(** * AmarcordDJ: the control core of [src/App.tsx]

    A shallow embedding of the two-deck console's control layer: the
    per-deck effect chain ([ensureNodes], [setEQ], [applyFilters]), the
    tempo handlers ([tapTempo], [syncTempo], [setTempo], beat-snap in
    [togglePlay]), the recording toggle and the MIDI dispatcher.

    Conventions of the embedding:
    - a JavaScript [number] is a rational [Q] with exact arithmetic
      (no NaN, no infinities, no rounding); every division of the source
      is guarded by a truthiness test, so no division by zero is reached;
    - a JavaScript object that the code keeps a reference to (an audio
      node) is a [handle] into a store, so that identity ("the same node")
      and contents ("its parameters") are told apart;
    - React state and refs are fields of one record, [App]; a handler is a
      function [App -> App];
    - WaveSurfer, the Web Audio nodes and MediaRecorder are external: only
      the getters and setters the handlers call are modelled. *)

From Stdlib Require Import QArith Qround Qabs Lqa ZArith Lia Bool Sorted.
From stdpp Require Import base option list strings gmap.

Local Open Scope Q_scope.

(** ** JavaScript numbers *)

Definition number := Q.

(** [!x] on a number: only [0] is falsy (NaN is outside the model). *)
Definition falsy (x : number) : bool := Qeq_bool x 0.

(** [!x] on [number | null]. *)
Definition falsy_opt (x : option number) : bool :=
  match x with
  | None => true
  | Some v => falsy v
  end.

(** [Math.round]: the nearest integer, a tie going up. *)
Definition Math_round (x : number) : Z := Qfloor (x + (1 # 2)).

Definition Math_max (x y : number) : number := if Qle_bool x y then y else x.
Definition Math_min (x y : number) : number := if Qle_bool x y then x else y.

Definition Qlt_bool (x y : number) : bool := negb (Qle_bool y x).

(** ** Types of [App.tsx] *)

Inductive DeckId := DeckA | DeckB.

Global Instance DeckId_eq_dec : EqDecision DeckId.
Proof. solve_decision. Defined.

Inductive FxKey := FxReverb | FxDelay | FxFilter | FxGate.

Record MidiMap := {
  deckAPlay : Z;
  deckBPlay : Z;
  mm_crossfader : Z;
  mm_master : Z;
  fxAReverb : Z;
  fxADelay : Z;
  fxAFilter : Z;
  fxAGate : Z;
  fxBReverb : Z;
  fxBDelay : Z;
  fxBFilter : Z;
  fxBGate : Z;
  recordToggle : Z
}.

Definition DEFAULT_MIDI : MidiMap := {|
  deckAPlay := 60;
  deckBPlay := 62;
  mm_crossfader := 1;
  mm_master := 7;
  fxAReverb := 20;
  fxADelay := 21;
  fxAFilter := 22;
  fxAGate := 23;
  fxBReverb := 24;
  fxBDelay := 25;
  fxBFilter := 26;
  fxBGate := 27;
  recordToggle := 40
|}.

(** The second entry of [DEFAULT_PRESETS]: [{...DEFAULT_MIDI, fxAReverb: 36, ...}]. *)
Definition COMPACT_MIDI : MidiMap := {|
  deckAPlay := deckAPlay DEFAULT_MIDI;
  deckBPlay := deckBPlay DEFAULT_MIDI;
  mm_crossfader := mm_crossfader DEFAULT_MIDI;
  mm_master := mm_master DEFAULT_MIDI;
  fxAReverb := 36;
  fxADelay := 37;
  fxAFilter := 38;
  fxAGate := 39;
  fxBReverb := 40;
  fxBDelay := 41;
  fxBFilter := 42;
  fxBGate := 43;
  recordToggle := recordToggle DEFAULT_MIDI
|}.

Definition DEFAULT_PRESETS : list (string * MidiMap) :=
  [("Default"%string, DEFAULT_MIDI); ("Compact"%string, COMPACT_MIDI)].

(** [Record<FxKey, boolean>] and [Record<FxKey, number>]. *)
Record FxFlags := {
  fx_reverb : bool;
  fx_delay : bool;
  fx_filter : bool;
  fx_gate : bool
}.

Record FxWet := {
  wet_reverb : number;
  wet_delay : number;
  wet_filter : number;
  wet_gate : number
}.

Definition get_fx (f : FxFlags) (k : FxKey) : bool :=
  match k with
  | FxReverb => fx_reverb f
  | FxDelay => fx_delay f
  | FxFilter => fx_filter f
  | FxGate => fx_gate f
  end.

Definition set_fx (f : FxFlags) (k : FxKey) (v : bool) : FxFlags :=
  match k with
  | FxReverb => {| fx_reverb := v; fx_delay := fx_delay f; fx_filter := fx_filter f; fx_gate := fx_gate f |}
  | FxDelay => {| fx_reverb := fx_reverb f; fx_delay := v; fx_filter := fx_filter f; fx_gate := fx_gate f |}
  | FxFilter => {| fx_reverb := fx_reverb f; fx_delay := fx_delay f; fx_filter := v; fx_gate := fx_gate f |}
  | FxGate => {| fx_reverb := fx_reverb f; fx_delay := fx_delay f; fx_filter := fx_filter f; fx_gate := v |}
  end.

Definition get_wet (w : FxWet) (k : FxKey) : number :=
  match k with
  | FxReverb => wet_reverb w
  | FxDelay => wet_delay w
  | FxFilter => wet_filter w
  | FxGate => wet_gate w
  end.

Definition set_wet (w : FxWet) (k : FxKey) (v : number) : FxWet :=
  match k with
  | FxReverb => {| wet_reverb := v; wet_delay := wet_delay w; wet_filter := wet_filter w; wet_gate := wet_gate w |}
  | FxDelay => {| wet_reverb := wet_reverb w; wet_delay := v; wet_filter := wet_filter w; wet_gate := wet_gate w |}
  | FxFilter => {| wet_reverb := wet_reverb w; wet_delay := wet_delay w; wet_filter := v; wet_gate := wet_gate w |}
  | FxGate => {| wet_reverb := wet_reverb w; wet_delay := wet_delay w; wet_filter := wet_filter w; wet_gate := v |}
  end.

(** ** Web Audio objects

    Every [create*] call of an [AudioContext] returns a new object; the
    store maps its [handle] to the parameters the handlers read or write. *)

Definition handle := nat.

Inductive AudioContext := mkAudioContext (id : nat).

Inductive BiquadFilterType :=
  lowpass | highpass | bandpass | lowshelf | highshelf | peaking | notch | allpass.

Global Instance BiquadFilterType_eq_dec : EqDecision BiquadFilterType.
Proof. solve_decision. Defined.

(** The buffer of [createImpulse(ac, duration, decay)]: its samples are
    random, so only the two shape parameters are kept. *)
Record AudioBuffer := { imp_duration : number; imp_decay : number }.

Inductive AudioNode :=
| BiquadFilterNode (type : BiquadFilterType) (frequency q gain : number)
| DelayNode (delayTime : number)
| GainNode (gain : number)
| ConvolverNode (buffer : option AudioBuffer)
| DynamicsCompressorNode (threshold ratio attack release : number)
| AnalyserNode (fftSize : Z)
| OscillatorNode (frequency : number)
| MediaStreamAudioDestinationNode.

(** [DeckNodes]. The object [eq] is keyed by strings, so [Object.values]
    lists it in insertion order: an association list, appended to. *)
Record DeckNodes := {
  n_eq : list (BiquadFilterType * handle);
  n_filter : option handle;
  n_delay : option handle;
  n_delayFeedback : option handle;
  n_reverb : option handle;
  n_gate : option handle;
  n_analyser : option handle
}.

Definition empty_nodes : DeckNodes := {|
  n_eq := [];
  n_filter := None;
  n_delay := None;
  n_delayFeedback := None;
  n_reverb := None;
  n_gate := None;
  n_analyser := None
|}.

(** [nodes.eq[type]]. *)
Fixpoint eq_lookup (t : BiquadFilterType) (l : list (BiquadFilterType * handle)) : option handle :=
  match l with
  | [] => None
  | (t', h) :: l' => if decide (t = t') then Some h else eq_lookup t l'
  end.

(** The part of a WaveSurfer instance the handlers touch. *)
Record WaveSurfer := {
  backend_ac : option AudioContext;
  isPlaying : bool;
  getCurrentTime : number;
  getDuration : number;
  getPlaybackRate : number;
  getFilters : list handle
}.

Definition setTime (t : number) (w : WaveSurfer) : WaveSurfer := {|
  backend_ac := backend_ac w;
  isPlaying := isPlaying w;
  getCurrentTime := t;
  getDuration := getDuration w;
  getPlaybackRate := getPlaybackRate w;
  getFilters := getFilters w
|}.

Definition playPause (w : WaveSurfer) : WaveSurfer := {|
  backend_ac := backend_ac w;
  isPlaying := negb (isPlaying w);
  getCurrentTime := getCurrentTime w;
  getDuration := getDuration w;
  getPlaybackRate := getPlaybackRate w;
  getFilters := getFilters w
|}.

Definition setPlaybackRate (r : number) (w : WaveSurfer) : WaveSurfer := {|
  backend_ac := backend_ac w;
  isPlaying := isPlaying w;
  getCurrentTime := getCurrentTime w;
  getDuration := getDuration w;
  getPlaybackRate := r;
  getFilters := getFilters w
|}.

Definition setFilters (chain : list handle) (w : WaveSurfer) : WaveSurfer := {|
  backend_ac := backend_ac w;
  isPlaying := isPlaying w;
  getCurrentTime := getCurrentTime w;
  getDuration := getDuration w;
  getPlaybackRate := getPlaybackRate w;
  getFilters := chain
|}.

(** [WaveSurfer.create]: nothing loaded, no audio backend yet. *)
Definition WaveSurfer_create : WaveSurfer := {|
  backend_ac := None;
  isPlaying := false;
  getCurrentTime := 0;
  getDuration := 0;
  getPlaybackRate := 1;
  getFilters := []
|}.

(** ** The object store and the audio context ref *)

(** An end of a [connect] call: a created node or a context's [destination]. *)
Inductive Endpoint :=
| Node (h : handle)
| Destination (ac : AudioContext).

(** [audioCtxRef.current], the store of created nodes, the [connect] calls
    made by the handlers themselves, and the next free object identity. *)
Record Audio := {
  audioCtxRef : option AudioContext;
  heap : gmap handle AudioNode;
  edges : list (Endpoint * Endpoint);
  next : handle
}.

Definition set_audioCtxRef (c : option AudioContext) (a : Audio) : Audio :=
  {| audioCtxRef := c; heap := heap a; edges := edges a; next := next a |}.

(** A [create*] call: a new object with the given initial parameters. *)
Definition alloc (n : AudioNode) (a : Audio) : handle * Audio :=
  (next a,
   {| audioCtxRef := audioCtxRef a;
      heap := <[next a := n]> (heap a);
      edges := edges a;
      next := S (next a) |}).

(** [new AudioContext(...)]. *)
Definition new_AudioContext (a : Audio) : AudioContext * Audio :=
  (mkAudioContext (next a),
   {| audioCtxRef := audioCtxRef a; heap := heap a; edges := edges a; next := S (next a) |}).

(** A write to a parameter of the node behind [h]. *)
Definition set_param (h : handle) (f : AudioNode -> AudioNode) (a : Audio) : Audio :=
  {| audioCtxRef := audioCtxRef a;
     heap := alter f h (heap a);
     edges := edges a;
     next := next a |}.

Definition connect (src dst : Endpoint) (a : Audio) : Audio :=
  {| audioCtxRef := audioCtxRef a;
     heap := heap a;
     edges := edges a ++ [(src, dst)];
     next := next a |}.

Definition set_threshold (v : number) (n : AudioNode) : AudioNode :=
  match n with
  | DynamicsCompressorNode _ r a rel => DynamicsCompressorNode v r a rel
  | _ => n
  end.

Definition set_frequency (v : number) (n : AudioNode) : AudioNode :=
  match n with
  | BiquadFilterNode t _ q g => BiquadFilterNode t v q g
  | OscillatorNode _ => OscillatorNode v
  | _ => n
  end.

Definition set_gain (v : number) (n : AudioNode) : AudioNode :=
  match n with
  | BiquadFilterNode t f q _ => BiquadFilterNode t f q v
  | GainNode _ => GainNode v
  | _ => n
  end.

Definition set_delayTime (v : number) (n : AudioNode) : AudioNode :=
  match n with
  | DelayNode _ => DelayNode v
  | _ => n
  end.

(** [nodes.reverb.buffer] as a condition. *)
Definition has_buffer (n : option AudioNode) : bool :=
  match n with
  | Some (ConvolverNode (Some _)) => true
  | _ => false
  end.

(** ** Application state *)

Record Deck := {
  wave : option WaveSurfer;
  nodes : DeckNodes;
  bpm : option number;
  tempo : number;
  fx : FxFlags;
  wet : FxWet
}.

Definition set_wave (w : option WaveSurfer) (d : Deck) : Deck :=
  {| wave := w; nodes := nodes d; bpm := bpm d; tempo := tempo d; fx := fx d; wet := wet d |}.
Definition set_nodes (n : DeckNodes) (d : Deck) : Deck :=
  {| wave := wave d; nodes := n; bpm := bpm d; tempo := tempo d; fx := fx d; wet := wet d |}.
Definition set_bpm (b : option number) (d : Deck) : Deck :=
  {| wave := wave d; nodes := nodes d; bpm := b; tempo := tempo d; fx := fx d; wet := wet d |}.
Definition set_tempo (t : number) (d : Deck) : Deck :=
  {| wave := wave d; nodes := nodes d; bpm := bpm d; tempo := t; fx := fx d; wet := wet d |}.
Definition set_fxState (f : FxFlags) (d : Deck) : Deck :=
  {| wave := wave d; nodes := nodes d; bpm := bpm d; tempo := tempo d; fx := f; wet := wet d |}.
Definition set_wetState (w : FxWet) (d : Deck) : Deck :=
  {| wave := wave d; nodes := nodes d; bpm := bpm d; tempo := tempo d; fx := fx d; wet := w |}.

Record Blob := { size : Z }.

(** A [MediaRecorder] on the stream of a capture sink. *)
Record MediaRecorder := { rec_sink : handle; rec_active : bool }.

Record Recording := {
  recording : bool;
  recorderRef : option MediaRecorder;
  recordChunksRef : list Blob;
  recordedUrl : option (list Blob)
}.

Record App := {
  deckA : Deck;
  deckB : Deck;
  audio : Audio;
  beatSnap : bool;
  lastTap : number;
  rec : Recording;
  midiMap : MidiMap;
  crossfader : number;
  master : number
}.

Definition getDeck (deck : DeckId) (s : App) : Deck :=
  match deck with
  | DeckA => deckA s
  | DeckB => deckB s
  end.

Definition set_deck (deck : DeckId) (d : Deck) (s : App) : App :=
  match deck with
  | DeckA =>
      {| deckA := d; deckB := deckB s; audio := audio s; beatSnap := beatSnap s;
         lastTap := lastTap s; rec := rec s; midiMap := midiMap s;
         crossfader := crossfader s; master := master s |}
  | DeckB =>
      {| deckA := deckA s; deckB := d; audio := audio s; beatSnap := beatSnap s;
         lastTap := lastTap s; rec := rec s; midiMap := midiMap s;
         crossfader := crossfader s; master := master s |}
  end.

Definition set_audio (a : Audio) (s : App) : App :=
  {| deckA := deckA s; deckB := deckB s; audio := a; beatSnap := beatSnap s;
     lastTap := lastTap s; rec := rec s; midiMap := midiMap s;
     crossfader := crossfader s; master := master s |}.

Definition setLastTap (t : number) (s : App) : App :=
  {| deckA := deckA s; deckB := deckB s; audio := audio s; beatSnap := beatSnap s;
     lastTap := t; rec := rec s; midiMap := midiMap s;
     crossfader := crossfader s; master := master s |}.

Definition set_rec (r : Recording) (s : App) : App :=
  {| deckA := deckA s; deckB := deckB s; audio := audio s; beatSnap := beatSnap s;
     lastTap := lastTap s; rec := r; midiMap := midiMap s;
     crossfader := crossfader s; master := master s |}.

Definition setBeatSnap (b : bool) (s : App) : App :=
  {| deckA := deckA s; deckB := deckB s; audio := audio s; beatSnap := b;
     lastTap := lastTap s; rec := rec s; midiMap := midiMap s;
     crossfader := crossfader s; master := master s |}.

Definition setMidiMap (m : MidiMap) (s : App) : App :=
  {| deckA := deckA s; deckB := deckB s; audio := audio s; beatSnap := beatSnap s;
     lastTap := lastTap s; rec := rec s; midiMap := m;
     crossfader := crossfader s; master := master s |}.

Definition setCrossfader (v : number) (s : App) : App :=
  {| deckA := deckA s; deckB := deckB s; audio := audio s; beatSnap := beatSnap s;
     lastTap := lastTap s; rec := rec s; midiMap := midiMap s;
     crossfader := v; master := master s |}.

Definition setMaster (v : number) (s : App) : App :=
  {| deckA := deckA s; deckB := deckB s; audio := audio s; beatSnap := beatSnap s;
     lastTap := lastTap s; rec := rec s; midiMap := midiMap s;
     crossfader := crossfader s; master := v |}.

(** The per-deck state variables under the names of the source. *)
Definition bpmA (s : App) := bpm (deckA s).
Definition bpmB (s : App) := bpm (deckB s).
Definition tempoA (s : App) := tempo (deckA s).
Definition tempoB (s : App) := tempo (deckB s).
Definition fxA (s : App) := fx (deckA s).
Definition fxB (s : App) := fx (deckB s).
Definition wetA (s : App) := wet (deckA s).
Definition wetB (s : App) := wet (deckB s).
Definition waveARef (s : App) := wave (deckA s).
Definition waveBRef (s : App) := wave (deckB s).
Definition nodesRef (s : App) (deck : DeckId) := nodes (getDeck deck s).

Definition setBpm (deck : DeckId) (b : option number) (s : App) : App :=
  set_deck deck (set_bpm b (getDeck deck s)) s.

(** The values of the [useState] and [useRef] calls, before the first effect. *)
Definition initial_deck : Deck := {|
  wave := None;
  nodes := empty_nodes;
  bpm := None;
  tempo := 1;
  fx := {| fx_reverb := false; fx_delay := false; fx_filter := false; fx_gate := false |};
  wet := {| wet_reverb := 0.35; wet_delay := 0.25; wet_filter := 0.5; wet_gate := 0.5 |}
|}.

Definition initial : App := {|
  deckA := initial_deck;
  deckB := initial_deck;
  audio := {| audioCtxRef := None; heap := ∅; edges := []; next := 0%nat |};
  beatSnap := true;
  lastTap := 0;
  rec := {| recording := false; recorderRef := None; recordChunksRef := []; recordedUrl := None |};
  midiMap := DEFAULT_MIDI;
  crossfader := 55;
  master := 72
|}.

(** ** The effect chain *)

Definition set_n_eq (l : list (BiquadFilterType * handle)) (n : DeckNodes) : DeckNodes :=
  {| n_eq := l; n_filter := n_filter n; n_delay := n_delay n;
     n_delayFeedback := n_delayFeedback n; n_reverb := n_reverb n;
     n_gate := n_gate n; n_analyser := n_analyser n |}.
Definition set_n_filter (h : option handle) (n : DeckNodes) : DeckNodes :=
  {| n_eq := n_eq n; n_filter := h; n_delay := n_delay n;
     n_delayFeedback := n_delayFeedback n; n_reverb := n_reverb n;
     n_gate := n_gate n; n_analyser := n_analyser n |}.
Definition set_n_delay (h hf : option handle) (n : DeckNodes) : DeckNodes :=
  {| n_eq := n_eq n; n_filter := n_filter n; n_delay := h;
     n_delayFeedback := hf; n_reverb := n_reverb n;
     n_gate := n_gate n; n_analyser := n_analyser n |}.
Definition set_n_reverb (h : option handle) (n : DeckNodes) : DeckNodes :=
  {| n_eq := n_eq n; n_filter := n_filter n; n_delay := n_delay n;
     n_delayFeedback := n_delayFeedback n; n_reverb := h;
     n_gate := n_gate n; n_analyser := n_analyser n |}.
Definition set_n_gate (h : option handle) (n : DeckNodes) : DeckNodes :=
  {| n_eq := n_eq n; n_filter := n_filter n; n_delay := n_delay n;
     n_delayFeedback := n_delayFeedback n; n_reverb := n_reverb n;
     n_gate := h; n_analyser := n_analyser n |}.
Definition set_n_analyser (h : option handle) (n : DeckNodes) : DeckNodes :=
  {| n_eq := n_eq n; n_filter := n_filter n; n_delay := n_delay n;
     n_delayFeedback := n_delayFeedback n; n_reverb := n_reverb n;
     n_gate := n_gate n; n_analyser := h |}.

(** [createImpulse(ac, duration, decay)]. *)
Definition createImpulse (duration decay : number) : AudioBuffer :=
  {| imp_duration := duration; imp_decay := decay |}.

(** The four [if (!nodes.x) { ... }] blocks of [ensureNodes], in order. *)
Definition ensure_filter (an : Audio * DeckNodes) : Audio * DeckNodes :=
  let '(a, n) := an in
  match n_filter n with
  | Some _ => (a, n)
  | None =>
      let '(h, a) := alloc (BiquadFilterNode lowpass 8000 0.6 0) a in
      (a, set_n_filter (Some h) n)
  end.

Definition ensure_delay (an : Audio * DeckNodes) : Audio * DeckNodes :=
  let '(a, n) := an in
  match n_delay n with
  | Some _ => (a, n)
  | None =>
      let '(d, a) := alloc (DelayNode 0.25) a in
      let '(f, a) := alloc (GainNode 0.35) a in
      let a := connect (Node d) (Node f) a in
      let a := connect (Node f) (Node d) a in
      (a, set_n_delay (Some d) (Some f) n)
  end.

Definition ensure_reverb (an : Audio * DeckNodes) : Audio * DeckNodes :=
  let '(a, n) := an in
  match n_reverb n with
  | Some _ => (a, n)
  | None =>
      let '(h, a) := alloc (ConvolverNode (Some (createImpulse 1.3 2.3))) a in
      (a, set_n_reverb (Some h) n)
  end.

Definition ensure_gate (an : Audio * DeckNodes) : Audio * DeckNodes :=
  let '(a, n) := an in
  match n_gate n with
  | Some _ => (a, n)
  | None =>
      let '(h, a) := alloc (DynamicsCompressorNode (-40) 12 0.003 0.2) a in
      (a, set_n_gate (Some h) n)
  end.

(** [ensureNodes(deck, wave)]: [false] stands for the [null] result, [true]
    for the reference [nodesRef.current[deck]], which the caller then reads
    from the state. *)
Definition ensureNodes (deck : DeckId) (w : WaveSurfer) (s : App) : App * bool :=
  match backend_ac w with
  | None => (s, false)
  | Some ac =>
      let a := set_audioCtxRef (Some ac) (audio s) in
      let '(a, n) :=
        ensure_gate (ensure_reverb (ensure_delay (ensure_filter (a, nodes (getDeck deck s))))) in
      (set_deck deck (set_nodes n (getDeck deck s)) (set_audio a s), true)
  end.

(** [createEQFilter(type)]; [None] is the thrown "AudioContext missing". *)
Definition createEQFilter (type : BiquadFilterType) (a : Audio) : option (handle * Audio) :=
  match audioCtxRef a with
  | None => None
  | Some _ =>
      let frequency : number :=
        match type with
        | lowshelf => 150
        | highshelf => 6000
        | _ => 1000
        end in
      Some (alloc (BiquadFilterNode type frequency 1 0) a)
  end.

(** The body of [applyFilters] between [ensureNodes] and [setFilters]:
    parameters written, and the array [chain] built by [push]. *)
Definition build_chain (fxState : FxFlags) (wet : FxWet) (n : DeckNodes) (a : Audio)
  : Audio * list handle :=
  let chain : list handle := [] in
  let '(a, chain) :=
    match fx_gate fxState, n_gate n with
    | true, Some g =>
        (set_param g (set_threshold (-50 + wet_gate wet * 30)) a, chain ++ [g])
    | _, _ => (a, chain)
    end in
  let chain := chain ++ (snd <$> n_eq n) in
  let '(a, chain) :=
    match fx_filter fxState, n_filter n with
    | true, Some f =>
        (set_param f (set_frequency (500 + wet_filter wet * 7500)) a, chain ++ [f])
    | _, _ => (a, chain)
    end in
  let '(a, chain) :=
    match fx_delay fxState, n_delay n with
    | true, Some d =>
        let a := set_param d (set_delayTime (0.05 + wet_delay wet * 0.45)) a in
        let a :=
          match n_delayFeedback n with
          | Some f => set_param f (set_gain (0.1 + wet_delay wet * 0.6)) a
          | None => a
          end in
        (a, chain ++ [d])
    | _, _ => (a, chain)
    end in
  let chain :=
    match fx_reverb fxState, n_reverb n with
    | true, Some r => if has_buffer (heap a !! r) then chain ++ [r] else chain
    | _, _ => chain
    end in
  (a, chain).

(** [applyFilters(deck)]. The function reads [fxA], [fxB], [wetA], [wetB] as
    the render that created it saw them: [fxState] and [wet] are the values
    for [deck] in that render. The nodes and the transport are refs and are
    read from the current state. *)
Definition applyFilters_in (fxState : FxFlags) (wet : FxWet) (deck : DeckId) (s : App) : App :=
  match wave (getDeck deck s) with
  | None => s
  | Some w =>
      match ensureNodes deck w s with
      | (s, false) => s
      | (s, true) =>
          let d := getDeck deck s in
          let '(a, chain) := build_chain fxState wet (nodes d) (audio s) in
          set_deck deck (set_wave (Some (setFilters chain w)) d) (set_audio a s)
      end
  end.

(** The call from a handler of the current render. *)
Definition applyFilters (deck : DeckId) (s : App) : App :=
  applyFilters_in (fx (getDeck deck s)) (wet (getDeck deck s)) deck s.

(** [setEQ(deck, type, value)]. A throw of [createEQFilter] leaves the state
    as [ensureNodes] made it. *)
Definition setEQ (deck : DeckId) (type : BiquadFilterType) (value : number) (s : App) : App :=
  match wave (getDeck deck s) with
  | None => s
  | Some w =>
      match ensureNodes deck w s with
      | (s, false) => s
      | (s, true) =>
          let n := nodes (getDeck deck s) in
          let created :=
            match eq_lookup type (n_eq n) with
            | Some h => Some (h, s)
            | None =>
                match createEQFilter type (audio s) with
                | None => None
                | Some (h, a) =>
                    Some (h, set_deck deck
                               (set_nodes (set_n_eq (n_eq n ++ [(type, h)]) n) (getDeck deck s))
                               (set_audio a s))
                end
            end in
          match created with
          | None => s
          | Some (h, s) =>
              applyFilters deck (set_audio (set_param h (set_gain value) (audio s)) s)
          end
      end
  end.

Definition toggleFx (deck : DeckId) (key : FxKey) (s : App) : App :=
  let d := getDeck deck s in
  set_deck deck (set_fxState (set_fx (fx d) key (negb (get_fx (fx d) key))) d) s.

(** The slider handlers [setWetA(prev => ({...prev, [key]: value}))]. *)
Definition setWet (deck : DeckId) (key : FxKey) (value : number) (s : App) : App :=
  let d := getDeck deck s in
  set_deck deck (set_wetState (set_wet (wet d) key value) d) s.

(** [attachAnalyser(deck, wave)]. *)
Definition attachAnalyser (deck : DeckId) (w : WaveSurfer) (s : App) : App :=
  match backend_ac w with
  | None => s
  | Some _ =>
      let n := nodes (getDeck deck s) in
      match n_analyser n with
      | Some _ => s
      | None =>
          let '(h, a) := alloc (AnalyserNode 256) (audio s) in
          set_deck deck (set_nodes (set_n_analyser (Some h) n) (getDeck deck s)) (set_audio a s)
      end
  end.

(** [playClick()]: the click's oscillator and gain, on the shared context. *)
Definition playClick (s : App) : App :=
  let a := audio s in
  let '(ac, a) :=
    match audioCtxRef a with
    | Some ac => (ac, a)
    | None => new_AudioContext a
    end in
  let a := set_audioCtxRef (Some ac) a in
  let '(osc, a) := alloc (OscillatorNode 760) a in
  let '(gain, a) := alloc (GainNode 0.001) a in
  let a := connect (Node osc) (Node gain) a in
  let a := connect (Node gain) (Destination ac) a in
  set_audio a s.

(** ** Transport and tempo *)

(** [togglePlay(deck)], with the beat-snap of a starting transport; [bpm]
    and [beatSnap] are the state variables as the function's render saw them. *)
Definition togglePlay_in (bpm : option number) (beatSnap : bool) (deck : DeckId) (s : App)
  : App :=
  match wave (getDeck deck s) with
  | None => s
  | Some w =>
      let w :=
        match negb (isPlaying w) && beatSnap, bpm with
        | true, Some bpm =>
            if falsy bpm then w
            else
              let beat := 60 / bpm in
              let t := getCurrentTime w in
              let snapped := inject_Z (Math_round (t / beat)) * beat in
              setTime (Math_max 0 (Math_min snapped (getDuration w))) w
        | _, _ => w
        end in
      playClick (set_deck deck (set_wave (Some (playPause w)) (getDeck deck s)) s)
  end.

(** The call from a button of the current render. *)
Definition togglePlay (deck : DeckId) (s : App) : App :=
  togglePlay_in (bpm (getDeck deck s)) (beatSnap s) deck s.

Definition setTempo (deck : DeckId) (value : number) (s : App) : App :=
  match wave (getDeck deck s) with
  | None => s
  | Some w =>
      set_deck deck
        (set_tempo value (set_wave (Some (setPlaybackRate value w)) (getDeck deck s))) s
  end.

Definition syncTempo (deck : DeckId) (s : App) : App :=
  let sourceBpm := match deck with DeckA => bpmB s | DeckB => bpmA s end in
  let targetBpm := match deck with DeckA => bpmA s | DeckB => bpmB s end in
  match sourceBpm, targetBpm with
  | Some sourceBpm, Some targetBpm =>
      if falsy sourceBpm || falsy targetBpm then s
      else
        let ratio := sourceBpm / targetBpm in
        playClick (setTempo deck (Math_min 1.5 (Math_max 0.6 ratio)) s)
  | _, _ => s
  end.

(** [tapTempo(deck)]; [now] is the value of [performance.now()]. *)
Definition tapTempo (deck : DeckId) (now : number) (s : App) : App :=
  if falsy (lastTap s) then setLastTap now s
  else
    let interval := now - lastTap s in
    let s := setLastTap now s in
    if Qlt_bool interval 250 || Qlt_bool 2000 interval then s
    else
      let bpm := 60000 / interval in
      playClick (setBpm deck (Some (inject_Z (Math_round bpm))) s).

(** The result of the beat detector in [analyzeTrack]. *)
Inductive Analysis :=
| Detected (bpmValue : number)
| NoValue
| Thrown.

Definition analyzeTrack (deck : DeckId) (result : Analysis) (s : App) : App :=
  let a := audio s in
  let '(ctx, a) :=
    match audioCtxRef a with
    | Some ac => (ac, a)
    | None => new_AudioContext a
    end in
  let s := set_audio (set_audioCtxRef (Some ctx) a) s in
  match result with
  | Detected bpmValue => setBpm deck (Some (inject_Z (Math_round bpmValue))) s
  | NoValue => s
  | Thrown => setBpm deck None s
  end.

(** ** Recording *)

Definition MediaRecorder_stop (r : MediaRecorder) : MediaRecorder :=
  {| rec_sink := rec_sink r; rec_active := false |}.

(** [toggleRecord()]; [connect_ok] tells whether
    [ac.destination.connect(destination)] returns or throws, and
    [recording_seen] is the state variable [recording] as the function's
    render saw it. *)
Definition toggleRecord_in (recording_seen : bool) (connect_ok : bool) (s : App) : App :=
  let backend := match waveARef s with Some w => backend_ac w | None => None end in
  let ac := match backend with Some ac => Some ac | None => audioCtxRef (audio s) end in
  match ac with
  | None => s
  | Some ac =>
      if recording_seen then
        playClick
          (set_rec {| recording := false;
                      recorderRef := MediaRecorder_stop <$> recorderRef (rec s);
                      recordChunksRef := recordChunksRef (rec s);
                      recordedUrl := recordedUrl (rec s) |} s)
      else
        let '(destination, a) := alloc MediaStreamAudioDestinationNode (audio s) in
        let s := set_audio a s in
        if negb connect_ok then s
        else
          let s := set_audio (connect (Destination ac) (Node destination) (audio s)) s in
          let recorder := {| rec_sink := destination; rec_active := true |} in
          playClick
            (set_rec {| recording := true;
                        recorderRef := Some recorder;
                        recordChunksRef := [];
                        recordedUrl := recordedUrl (rec s) |} s)
  end.

(** The call from the record button of the current render. *)
Definition toggleRecord (connect_ok : bool) (s : App) : App :=
  toggleRecord_in (recording (rec s)) connect_ok s.

(** [recorder.ondataavailable] and [recorder.onstop]. *)
Definition ondataavailable (data : Blob) (s : App) : App :=
  if (0 <? size data)%Z then
    set_rec {| recording := recording (rec s);
               recorderRef := recorderRef (rec s);
               recordChunksRef := recordChunksRef (rec s) ++ [data];
               recordedUrl := recordedUrl (rec s) |} s
  else s.

Definition onstop (s : App) : App :=
  set_rec {| recording := recording (rec s);
             recorderRef := recorderRef (rec s);
             recordChunksRef := recordChunksRef (rec s);
             recordedUrl := Some (recordChunksRef (rec s)) |} s.

(** ** MIDI dispatch *)

(** A call made by [onmidimessage]. *)
Inductive Action :=
| CallTogglePlay (deck : DeckId)
| CallToggleFx (deck : DeckId) (key : FxKey)
| CallToggleRecord
| CallSetCrossfader (v : Z)
| CallSetMaster (v : Z).

(** [if (c) f();] as the list of calls it makes. *)
Definition when (c : bool) (f : Action) : list Action := if c then [f] else [].

(** [input.onmidimessage]: the calls made for one message, in order.
    [data] is [event.data], a byte array or [null]. *)
Definition onmidimessage (midiMap : MidiMap) (data : option (list Z)) : list Action :=
  match data with
  | Some (status :: data1 :: data2 :: _) =>
      let command := Z.land status 240 in
      (if (command =? 144)%Z && (0 <? data2)%Z then
         when (data1 =? deckAPlay midiMap)%Z (CallTogglePlay DeckA) ++
         when (data1 =? deckBPlay midiMap)%Z (CallTogglePlay DeckB) ++
         when (data1 =? fxAReverb midiMap)%Z (CallToggleFx DeckA FxReverb) ++
         when (data1 =? fxADelay midiMap)%Z (CallToggleFx DeckA FxDelay) ++
         when (data1 =? fxAFilter midiMap)%Z (CallToggleFx DeckA FxFilter) ++
         when (data1 =? fxAGate midiMap)%Z (CallToggleFx DeckA FxGate) ++
         when (data1 =? fxBReverb midiMap)%Z (CallToggleFx DeckB FxReverb) ++
         when (data1 =? fxBDelay midiMap)%Z (CallToggleFx DeckB FxDelay) ++
         when (data1 =? fxBFilter midiMap)%Z (CallToggleFx DeckB FxFilter) ++
         when (data1 =? fxBGate midiMap)%Z (CallToggleFx DeckB FxGate) ++
         when (data1 =? recordToggle midiMap)%Z CallToggleRecord
       else []) ++
      (if (command =? 176)%Z then
         when (data1 =? mm_crossfader midiMap)%Z
           (CallSetCrossfader (Math_round (inject_Z data2 / 127 * 100))) ++
         when (data1 =? mm_master midiMap)%Z
           (CallSetMaster (Math_round (inject_Z data2 / 127 * 100)))
       else [])
  | _ => []
  end.

(** The handler behind a call. The callback holds the handlers of the
    render [seen] in which the MIDI effect ran, so the state variables they
    read ([bpmA], [beatSnap], [recording]) are those of [seen]; refs and
    functional updates act on the current state. *)
Definition perform (seen : App) (connect_ok : bool) (c : Action) (s : App) : App :=
  match c with
  | CallTogglePlay deck => togglePlay_in (bpm (getDeck deck seen)) (beatSnap seen) deck s
  | CallToggleFx deck key => toggleFx deck key s
  | CallToggleRecord => toggleRecord_in (recording (rec seen)) connect_ok s
  | CallSetCrossfader v => setCrossfader (inject_Z v) s
  | CallSetMaster v => setMaster (inject_Z v) s
  end.

(** The calls of one message, made in order by [handler]. *)
Definition dispatch (handler : Action -> App -> App) (cs : list Action) (s : App) : App :=
  foldl (fun s c => handler c s) s cs.

Definition is_toggleFx (c : Action) : bool :=
  match c with
  | CallToggleFx _ _ => true
  | _ => false
  end.

(** ** Histories *)

(** The effect on [fxA, fxB, wetA, wetB]. *)
Definition fx_effect (s : App) : App := applyFilters DeckB (applyFilters DeckA s).

(** What can happen to the application: the handlers, called from the
    current render or (ready, MIDI) from an older one, and the callbacks of
    WaveSurfer and MediaRecorder that matter to them. *)
Inductive Event :=
| EvMount
| EvReady (deck : DeckId) (ac : option AudioContext) (duration : number)
| EvSeek (deck : DeckId) (t : number)
| EvTogglePlay (deck : DeckId)
| EvSetEQ (deck : DeckId) (type : BiquadFilterType) (value : number)
| EvToggleFx (deck : DeckId) (key : FxKey)
| EvSetWet (deck : DeckId) (key : FxKey) (value : number)
| EvApplyFilters (deck : DeckId) (fxState : FxFlags) (wet : FxWet)
| EvAnalyzed (deck : DeckId) (result : Analysis)
| EvSetTempo (deck : DeckId) (value : number)
| EvSyncTempo (deck : DeckId)
| EvTapTempo (deck : DeckId) (now : number)
| EvToggleRecord (connect_ok : bool)
| EvData (data : Blob)
| EvStop
| EvSetBeatSnap (b : bool)
| EvSetMidiMap (m : MidiMap)
| EvMidi (seen : App) (connect_ok : bool) (data : option (list Z)).

(** The library side of "ready": the backend of the deck's instance has
    the context [ac] (if any) and the duration of the decoded track. *)
Definition backend_ready (ac : option AudioContext) (duration : number) (w : WaveSurfer)
  : WaveSurfer := {|
  backend_ac := ac;
  isPlaying := isPlaying w;
  getCurrentTime := getCurrentTime w;
  getDuration := duration;
  getPlaybackRate := getPlaybackRate w;
  getFilters := getFilters w
|}.

Definition step (e : Event) (s : App) : App :=
  match e with
  | EvMount =>
      (* both instances are created, then the effect on the fx state runs *)
      fx_effect
        (set_deck DeckB (set_wave (Some WaveSurfer_create) (deckB s))
           (set_deck DeckA (set_wave (Some WaveSurfer_create) (deckA s)) s))
  | EvReady deck ac duration =>
      (* the "ready" callback was created by the first render *)
      match wave (getDeck deck s) with
      | None => s
      | Some w =>
          let w := backend_ready ac duration w in
          let s := set_deck deck (set_wave (Some w) (getDeck deck s)) s in
          let s := applyFilters_in (fx initial_deck) (wet initial_deck) deck s in
          attachAnalyser deck w s
      end
  | EvSeek deck t =>
      match wave (getDeck deck s) with
      | None => s
      | Some w => set_deck deck (set_wave (Some (setTime t w)) (getDeck deck s)) s
      end
  | EvTogglePlay deck => togglePlay deck s
  | EvSetEQ deck type value => setEQ deck type value s
  | EvToggleFx deck key => fx_effect (toggleFx deck key s)
  | EvSetWet deck key value => fx_effect (setWet deck key value s)
  | EvApplyFilters deck fxState wet => applyFilters_in fxState wet deck s
  | EvAnalyzed deck result => analyzeTrack deck result s
  | EvSetTempo deck value => setTempo deck value s
  | EvSyncTempo deck => syncTempo deck s
  | EvTapTempo deck now => tapTempo deck now s
  | EvToggleRecord connect_ok => toggleRecord connect_ok s
  | EvData data => ondataavailable data s
  | EvStop => onstop s
  | EvSetBeatSnap b => setBeatSnap b s
  | EvSetMidiMap m => setMidiMap m s
  | EvMidi seen connect_ok data =>
      let cs := onmidimessage (midiMap seen) data in
      let s := dispatch (perform seen connect_ok) cs s in
      if existsb is_toggleFx cs then fx_effect s else s
  end.

(** The state after a history, oldest event first. *)
Definition run (evs : list Event) (s : App) : App := foldl (fun s e => step e s) s evs.

(** ** Notions used in the statements *)

(** The deck a deck is synced to. *)
Definition other_deck (deck : DeckId) : DeckId :=
  match deck with
  | DeckA => DeckB
  | DeckB => DeckA
  end.

(** The eleven actions a note-on message can start, each with its mapped
    code, in the order of the [if] statements of [onmidimessage]. *)
Definition note_actions (m : MidiMap) : list (Z * Action) :=
  [ (deckAPlay m, CallTogglePlay DeckA);
    (deckBPlay m, CallTogglePlay DeckB);
    (fxAReverb m, CallToggleFx DeckA FxReverb);
    (fxADelay m, CallToggleFx DeckA FxDelay);
    (fxAFilter m, CallToggleFx DeckA FxFilter);
    (fxAGate m, CallToggleFx DeckA FxGate);
    (fxBReverb m, CallToggleFx DeckB FxReverb);
    (fxBDelay m, CallToggleFx DeckB FxDelay);
    (fxBFilter m, CallToggleFx DeckB FxFilter);
    (fxBGate m, CallToggleFx DeckB FxGate);
    (recordToggle m, CallToggleRecord) ].

(** The actions of [note_actions] mapped to the code [data1]. *)
Definition mapped_to (data1 : Z) (l : list (Z * Action)) : list Action :=
  snd <$> filter (fun p => fst p = data1) l.

(** What a write to a parameter cannot change: the class of the node, the
    type of a biquad filter, whether a convolver has a buffer. *)
Inductive Kind :=
| KBiquad (t : BiquadFilterType)
| KDelay
| KGain
| KConvolver (loaded : bool)
| KCompressor
| KAnalyser
| KOscillator
| KSink.

Definition node_kind (n : AudioNode) : Kind :=
  match n with
  | BiquadFilterNode t _ _ _ => KBiquad t
  | DelayNode _ => KDelay
  | GainNode _ => KGain
  | ConvolverNode (Some _) => KConvolver true
  | ConvolverNode None => KConvolver false
  | DynamicsCompressorNode _ _ _ _ => KCompressor
  | AnalyserNode _ => KAnalyser
  | OscillatorNode _ => KOscillator
  | MediaStreamAudioDestinationNode => KSink
  end.

Definition kind_at (a : Audio) (h : handle) : option Kind := node_kind <$> heap a !! h.

(** The handles a deck holds, those of the chain stages first, in the
    order of the chain. *)
Definition handles (n : DeckNodes) : list handle :=
  option_list (n_gate n) ++ (snd <$> n_eq n) ++ option_list (n_filter n) ++
  option_list (n_delay n) ++ option_list (n_reverb n) ++
  option_list (n_delayFeedback n) ++ option_list (n_analyser n).

(** The stage list [applyFilters] is to realize from the flags and the
    handles of a deck: gate, EQ stages as [Object.values] lists them,
    filter, delay, reverb, each effect only when its flag is on. *)
Definition stage (on : bool) (h : option handle) : list handle :=
  if on then option_list h else [].

Definition chain_of (fxState : FxFlags) (n : DeckNodes) : list handle :=
  stage (fx_gate fxState) (n_gate n) ++ (snd <$> n_eq n) ++
  stage (fx_filter fxState) (n_filter n) ++ stage (fx_delay fxState) (n_delay n) ++
  stage (fx_reverb fxState) (n_reverb n).

(** Rank of a node in the order of the specification: gate, low shelf,
    mid peak, high shelf, resonant filter, delay, reverb. *)
Definition stage_rank (n : AudioNode) : nat :=
  match n with
  | DynamicsCompressorNode _ _ _ _ => 0
  | BiquadFilterNode lowshelf _ _ _ => 1
  | BiquadFilterNode peaking _ _ _ => 2
  | BiquadFilterNode highshelf _ _ _ => 3
  | BiquadFilterNode _ _ _ _ => 4
  | DelayNode _ => 5
  | ConvolverNode _ => 6
  | _ => 7
  end.

(** The ranks along the chain a deck's transport currently has. *)
Definition chain_ranks (deck : DeckId) (s : App) : list nat :=
  match wave (getDeck deck s) with
  | None => []
  | Some w =>
      omap (fun h => stage_rank <$> heap (audio s) !! h) (getFilters w)
  end.

(** Well-formedness of a deck's node set in a store: its handles are
    distinct objects that exist, each of the class its field says, and the
    delay and its feedback gain come together. *)
Record nodes_ok (a : Audio) (n : DeckNodes) : Prop := {
  ok_fresh : Forall (fun h => (h < next a)%nat) (handles n);
  ok_nodup : NoDup (handles n);
  ok_gate : forall h, n_gate n = Some h -> kind_at a h = Some KCompressor;
  ok_filter : forall h, n_filter n = Some h -> kind_at a h = Some (KBiquad lowpass);
  ok_delay : forall h, n_delay n = Some h -> kind_at a h = Some KDelay;
  ok_feedback : forall h, n_delayFeedback n = Some h -> kind_at a h = Some KGain;
  ok_reverb : forall h, n_reverb n = Some h -> kind_at a h = Some (KConvolver true);
  ok_analyser : forall h, n_analyser n = Some h -> kind_at a h = Some KAnalyser;
  ok_eq : Forall (fun p => kind_at a (snd p) = Some (KBiquad (fst p))) (n_eq n);
  ok_pair : n_delay n = None <-> n_delayFeedback n = None
}.

Definition app_ok (s : App) : Prop :=
  nodes_ok (audio s) (nodes (deckA s)) /\ nodes_ok (audio s) (nodes (deckB s)).

(** A later store: every object of the earlier one is still there, of the
    same kind. *)
Definition extends (a a' : Audio) : Prop :=
  (next a <= next a')%nat /\
  forall h, (h < next a)%nat -> kind_at a' h = kind_at a h.

(** A later node set: every handle is still in its place. *)
Record nodes_le (n n' : DeckNodes) : Prop := {
  le_eq : n_eq n `prefix_of` n_eq n';
  le_filter : forall h, n_filter n = Some h -> n_filter n' = Some h;
  le_delay : forall h, n_delay n = Some h -> n_delay n' = Some h;
  le_feedback : forall h, n_delayFeedback n = Some h -> n_delayFeedback n' = Some h;
  le_reverb : forall h, n_reverb n = Some h -> n_reverb n' = Some h;
  le_gate : forall h, n_gate n = Some h -> n_gate n' = Some h;
  le_analyser : forall h, n_analyser n = Some h -> n_analyser n' = Some h
}.

(** A later state of the application, as far as the audio graph goes. *)
Definition advance (s s' : App) : Prop :=
  extends (audio s) (audio s') /\
  forall deck, nodes_le (nodes (getDeck deck s)) (nodes (getDeck deck s')).

(** A function on nodes that keeps the kind, as every parameter write does. *)
Definition keeps_kind (f : AudioNode -> AudioNode) : Prop :=
  forall x, node_kind (f x) = node_kind x.

(** A later state in which no deck's node set has changed. *)
Definition quiet (s s' : App) : Prop :=
  extends (audio s) (audio s') /\
  forall deck, nodes (getDeck deck s') = nodes (getDeck deck s).

(** One block of [ensureNodes], or several, on a well-formed node set:
    the set stays well-formed, keeps what it had, and the context ref, the
    EQ stages and the analyser are not touched. *)
Definition grows (an an' : Audio * DeckNodes) : Prop :=
  nodes_ok (fst an) (snd an) ->
  nodes_ok (fst an') (snd an') /\
  extends (fst an) (fst an') /\
  nodes_le (snd an) (snd an') /\
  audioCtxRef (fst an') = audioCtxRef (fst an) /\
  n_eq (snd an') = n_eq (snd an) /\
  n_analyser (snd an') = n_analyser (snd an).

(** The four blocks of [ensureNodes] in a row. *)
Definition ensure_all (an : Audio * DeckNodes) : Audio * DeckNodes :=
  ensure_gate (ensure_reverb (ensure_delay (ensure_filter an))).

(** All stage nodes of [ensureNodes] exist. *)
Definition complete (n : DeckNodes) : Prop :=
  is_Some (n_filter n) /\ is_Some (n_delay n) /\ is_Some (n_delayFeedback n) /\
  is_Some (n_reverb n) /\ is_Some (n_gate n).

(** The parameter writes of the gate, filter and delay blocks of
    [applyFilters], one block each. *)
Definition write_gate (fxState : FxFlags) (wet : FxWet) (n : DeckNodes) (a : Audio) : Audio :=
  match fx_gate fxState, n_gate n with
  | true, Some g => set_param g (set_threshold (-50 + wet_gate wet * 30)) a
  | _, _ => a
  end.

Definition write_filter (fxState : FxFlags) (wet : FxWet) (n : DeckNodes) (a : Audio) : Audio :=
  match fx_filter fxState, n_filter n with
  | true, Some f => set_param f (set_frequency (500 + wet_filter wet * 7500)) a
  | _, _ => a
  end.

Definition write_delay (fxState : FxFlags) (wet : FxWet) (n : DeckNodes) (a : Audio) : Audio :=
  match fx_delay fxState, n_delay n with
  | true, Some d =>
      let a := set_param d (set_delayTime (0.05 + wet_delay wet * 0.45)) a in
      match n_delayFeedback n with
      | Some f => set_param f (set_gain (0.1 + wet_delay wet * 0.6)) a
      | None => a
      end
  | _, _ => a
  end.

(** The parameters of the enabled stages have the values [applyFilters]
    gives them for the wet amounts [wet]. *)
Definition params_set (fxState : FxFlags) (wet : FxWet) (n : DeckNodes) (a : Audio) : Prop :=
  (fx_gate fxState = true -> forall g, n_gate n = Some g ->
     exists ratio attack release,
       heap a !! g
       = Some (DynamicsCompressorNode (-50 + wet_gate wet * 30) ratio attack release)) /\
  (fx_filter fxState = true -> forall f, n_filter n = Some f ->
     exists q gain,
       heap a !! f = Some (BiquadFilterNode lowpass (500 + wet_filter wet * 7500) q gain)) /\
  (fx_delay fxState = true -> forall d, n_delay n = Some d ->
     heap a !! d = Some (DelayNode (0.05 + wet_delay wet * 0.45))) /\
  (fx_delay fxState = true -> is_Some (n_delay n) -> forall f, n_delayFeedback n = Some f ->
     heap a !! f = Some (GainNode (0.1 + wet_delay wet * 0.6))).

(** What [ensureNodes] and [applyFilters] go by when they create nodes
    and pick the deck's transport: the next free identity, the node sets,
    and the context of each deck's backend. *)
Definition skeleton (s : App)
  : nat * DeckNodes * DeckNodes * option (option AudioContext) * option (option AudioContext) :=
  (next (audio s), nodes (deckA s), nodes (deckB s),
   backend_ac <$> wave (deckA s), backend_ac <$> wave (deckB s)).

(** [toggleFx] on the flags of a deck. *)
Definition toggle_flag (f : FxFlags) (k : FxKey) : FxFlags :=
  set_fx f k (negb (get_fx f k)).

(** A run of effect toggles on one deck, each with the effect it starts. *)
Definition toggles (deck : DeckId) (ks : list FxKey) : list Event :=
  EvToggleFx deck <$> ks.

(** ** The mixer, the beat clock and the beat grid *)

(** [volumes]: the gains handed to the two transports, from the crossfader
    and the master (both on a scale of 0 to 100). *)
Definition volumes (s : App) : number * number :=
  let x := crossfader s / 100 in
  let masterGain := master s / 100 in
  ((1 - x) * masterGain, x * masterGain).

(** [[bpmA, bpmB].filter((v) => typeof v === "number")]. *)
Definition known_bpms (s : App) : list number := omap id [bpmA s; bpmB s].

(** [bpms.reduce((a, b) => a + b, 0)]. *)
Definition sum_numbers (l : list number) : number := foldl Qplus 0 l.

(** [beatMs]. An average of 0 makes [60000 / bpm] infinite, and
    [Math.min(1200, Infinity)] is 1200. *)
Definition beatMs (s : App) : number :=
  let bpms := known_bpms s in
  let bpm :=
    match bpms with
    | [] => 120
    | _ => sum_numbers bpms / inject_Z (Z.of_nat (length bpms))
    end in
  if falsy bpm then Math_max 250 1200
  else Math_max 250 (Math_min 1200 (60000 / bpm)).

(** [beatSize(bpm, duration)]; [None] is [null]. With [bpm] not 0 the
    number of beats is finite. *)
Definition beatSize (bpm : option number) (duration : number) : option number :=
  match bpm with
  | None => None
  | Some bpm =>
      if falsy bpm || falsy duration then None
      else
        let beats := duration / (60 / bpm) in
        if Qle_bool beats 0 then None
        else Some (Math_max 1.5 (100 / beats))
  end.

(** ** The spectrum *)

Definition SPECTRUM_BARS : nat := 24.

(** The first value of [spectrumLevelsRef]. *)
Definition initial_levels : list number := replicate SPECTRUM_BARS 0.

(** The array [updateSpectrum] reads for a deck: the frequency data of the
    deck's analyser, [freq], when the analyser exists and the deck plays,
    and [null] otherwise. *)
Definition spectrum_data (deck : DeckId) (freq : list Z) (s : App) : option (list Z) :=
  match n_analyser (nodes (getDeck deck s)), wave (getDeck deck s) with
  | Some _, Some w => if isPlaying w then Some freq else None
  | _, _ => None
  end.

(** [data ? data[idx] ?? 0 : 0]. *)
Definition bin_at (data : option (list Z)) (idx : Z) : number :=
  match data with
  | None => 0
  | Some d =>
      if (idx <? 0)%Z then 0
      else
        match d !! Z.to_nat idx with
        | Some v => inject_Z v
        | None => 0
        end
  end.

(** [dataA?.length ?? dataB?.length ?? 0]. *)
Definition data_length (dataA dataB : option (list Z)) : Z :=
  match dataA, dataB with
  | Some d, _ => Z.of_nat (length d)
  | None, Some d => Z.of_nat (length d)
  | None, None => 0
  end.

(** The raw level of bar [i] out of [bars]. *)
Definition bar_value (dataA dataB : option (list Z)) (bars i : nat) : number :=
  let idx :=
    Qfloor (inject_Z (data_length dataA dataB) / inject_Z (Z.of_nat bars)
            * inject_Z (Z.of_nat i)) in
  let a := bin_at dataA idx in
  let b := bin_at dataB idx in
  Math_max a b / 255.

(** The loop of [updateSpectrum] from bar [i] on, [n] bars to go. A level
    read beyond the end of [levels] is [undefined] and the smoothed value
    not a number: [None]. *)
Fixpoint spectrum_loop (dataA dataB : option (list Z)) (bars : nat) (n i : nat)
    (levels : list number) : option (list number) :=
  match n with
  | O => Some levels
  | S n' =>
      match levels !! i with
      | None => None
      | Some level =>
          let value := bar_value dataA dataB bars i in
          let smoothed := Math_max (level * 0.82) value in
          spectrum_loop dataA dataB bars n' (S i) (<[i := smoothed]> levels)
      end
  end.

(** [updateSpectrum()] on the levels of [spectrumLevelsRef], for [bars]
    bars on screen and the analysers' data [freqA], [freqB]. *)
Definition updateSpectrum (bars : nat) (freqA freqB : list Z) (s : App)
    (levels : list number) : option (list number) :=
  match bars with
  | O => Some levels
  | _ =>
      let dataA := spectrum_data DeckA freqA s in
      let dataB := spectrum_data DeckB freqB s in
      spectrum_loop dataA dataB bars bars 0 levels
  end.

(** ** Presets and sessions *)

Record FxPreset := {
  fp_name : string;
  fp_fx : FxFlags;
  fp_wet : FxWet
}.

Definition DEFAULT_FX_PRESETS : list FxPreset := [
  {| fp_name := "Clean";
     fp_fx := {| fx_reverb := false; fx_delay := false; fx_filter := false; fx_gate := false |};
     fp_wet := {| wet_reverb := 0.2; wet_delay := 0.15; wet_filter := 0.4; wet_gate := 0.4 |} |};
  {| fp_name := "Wide";
     fp_fx := {| fx_reverb := true; fx_delay := true; fx_filter := false; fx_gate := false |};
     fp_wet := {| wet_reverb := 0.6; wet_delay := 0.35; wet_filter := 0.4; wet_gate := 0.4 |} |};
  {| fp_name := "Tight";
     fp_fx := {| fx_reverb := false; fx_delay := false; fx_filter := true; fx_gate := true |};
     fp_wet := {| wet_reverb := 0.2; wet_delay := 0.2; wet_filter := 0.5; wet_gate := 0.7 |} |}
].

(** [{ trackName?: string; bpm?: number | null }]. *)
Record DeckInfo := {
  trackName : option string;
  di_bpm : option number
}.

Record SessionState := {
  ss_name : string;
  savedAt : string;
  ss_deckA : option DeckInfo;
  ss_deckB : option DeckInfo;
  ss_fxA : FxFlags;
  ss_fxB : FxFlags;
  ss_wetA : FxWet;
  ss_wetB : FxWet;
  ss_crossfader : number;
  ss_master : number;
  ss_performanceMode : bool;
  ss_darkMode : bool;
  ss_beatSnap : bool;
  ss_midiMap : MidiMap
}.

(** The state variables of the settings, presets and sessions. *)
Record Settings := {
  deckATrackName : option string;
  deckBTrackName : option string;
  performanceMode : bool;
  darkMode : bool;
  presets : list (string * MidiMap);
  presetName : string;
  fxPresetsA : list FxPreset;
  fxPresetsB : list FxPreset;
  fxPresetNameA : string;
  fxPresetNameB : string;
  sessions : list SessionState;
  sessionName : string
}.

Definition initial_settings : Settings := {|
  deckATrackName := None;
  deckBTrackName := None;
  performanceMode := false;
  darkMode := false;
  presets := DEFAULT_PRESETS;
  presetName := EmptyString;
  fxPresetsA := DEFAULT_FX_PRESETS;
  fxPresetsB := DEFAULT_FX_PRESETS;
  fxPresetNameA := EmptyString;
  fxPresetNameB := EmptyString;
  sessions := [];
  sessionName := EmptyString
|}.

Definition set_fxPresets (deck : DeckId) (l : list FxPreset) (name : string) (u : Settings)
  : Settings :=
  match deck with
  | DeckA =>
      {| deckATrackName := deckATrackName u; deckBTrackName := deckBTrackName u;
         performanceMode := performanceMode u; darkMode := darkMode u;
         presets := presets u; presetName := presetName u;
         fxPresetsA := l; fxPresetsB := fxPresetsB u;
         fxPresetNameA := name; fxPresetNameB := fxPresetNameB u;
         sessions := sessions u; sessionName := sessionName u |}
  | DeckB =>
      {| deckATrackName := deckATrackName u; deckBTrackName := deckBTrackName u;
         performanceMode := performanceMode u; darkMode := darkMode u;
         presets := presets u; presetName := presetName u;
         fxPresetsA := fxPresetsA u; fxPresetsB := l;
         fxPresetNameA := fxPresetNameA u; fxPresetNameB := name;
         sessions := sessions u; sessionName := sessionName u |}
  end.

Definition set_presets (l : list (string * MidiMap)) (name : string) (u : Settings) : Settings :=
  {| deckATrackName := deckATrackName u; deckBTrackName := deckBTrackName u;
     performanceMode := performanceMode u; darkMode := darkMode u;
     presets := l; presetName := name;
     fxPresetsA := fxPresetsA u; fxPresetsB := fxPresetsB u;
     fxPresetNameA := fxPresetNameA u; fxPresetNameB := fxPresetNameB u;
     sessions := sessions u; sessionName := sessionName u |}.

Definition set_sessions (l : list SessionState) (name : string) (u : Settings) : Settings :=
  {| deckATrackName := deckATrackName u; deckBTrackName := deckBTrackName u;
     performanceMode := performanceMode u; darkMode := darkMode u;
     presets := presets u; presetName := presetName u;
     fxPresetsA := fxPresetsA u; fxPresetsB := fxPresetsB u;
     fxPresetNameA := fxPresetNameA u; fxPresetNameB := fxPresetNameB u;
     sessions := l; sessionName := name |}.

Definition fxPresets (deck : DeckId) (u : Settings) : list FxPreset :=
  match deck with
  | DeckA => fxPresetsA u
  | DeckB => fxPresetsB u
  end.

Definition fxPresetName (deck : DeckId) (u : Settings) : string :=
  match deck with
  | DeckA => fxPresetNameA u
  | DeckB => fxPresetNameB u
  end.

(** [list.find((p) => p.name === name)]: the first entry of that name. *)
Fixpoint find_by {A} (key : A -> string) (name : string) (l : list A) : option A :=
  match l with
  | [] => None
  | p :: l' => if decide (key p = name) then Some p else find_by key name l'
  end.

(** [prev.filter((p) => p.name !== name)]. *)
Definition without {A} (key : A -> string) (name : string) (l : list A) : list A :=
  filter (fun p => key p <> name) l.

Section Names.

(** [String.prototype.trim], of the language and not of this program. *)
Variable trim : string -> string.

(** [saveFxPreset(deck)]. *)
Definition saveFxPreset (deck : DeckId) (s : App) (u : Settings) : Settings :=
  let name := trim (fxPresetName deck u) in
  if decide (name = EmptyString) then u
  else
    let payload :=
      {| fp_name := name; fp_fx := fx (getDeck deck s); fp_wet := wet (getDeck deck s) |} in
    set_fxPresets deck (without fp_name name (fxPresets deck u) ++ [payload]) EmptyString u.

(** [savePreset()]. *)
Definition savePreset (s : App) (u : Settings) : Settings :=
  let name := trim (presetName u) in
  if decide (name = EmptyString) then u
  else set_presets (without fst name (presets u) ++ [(name, midiMap s)]) EmptyString u.

(** [saveSession()]; [now] is [new Date().toISOString()]. *)
Definition saveSession (now : string) (s : App) (u : Settings) : Settings :=
  let name := trim (sessionName u) in
  if decide (name = EmptyString) then u
  else
    let payload := {|
      ss_name := name;
      savedAt := now;
      ss_deckA := Some {| trackName := deckATrackName u; di_bpm := bpmA s |};
      ss_deckB := Some {| trackName := deckBTrackName u; di_bpm := bpmB s |};
      ss_fxA := fxA s;
      ss_fxB := fxB s;
      ss_wetA := wetA s;
      ss_wetB := wetB s;
      ss_crossfader := crossfader s;
      ss_master := master s;
      ss_performanceMode := performanceMode u;
      ss_darkMode := darkMode u;
      ss_beatSnap := beatSnap s;
      ss_midiMap := midiMap s
    |} in
    set_sessions (without ss_name name (sessions u) ++ [payload]) EmptyString u.

End Names.

(** [applyFxPreset(deck, name)]. *)
Definition applyFxPreset (deck : DeckId) (name : string) (u : Settings) (s : App) : App :=
  match find_by fp_name name (fxPresets deck u) with
  | None => s
  | Some preset =>
      set_deck deck (set_wetState (fp_wet preset) (set_fxState (fp_fx preset) (getDeck deck s))) s
  end.

(** [applyPreset(name)]. *)
Definition applyPreset (name : string) (u : Settings) (s : App) : App :=
  match find_by fst name (presets u) with
  | None => s
  | Some preset => setMidiMap (snd preset) s
  end.

(** The track name and the BPM a session brings back for a deck: a name
    that is not empty, a BPM that is a number. *)
Definition session_trackName (d : option DeckInfo) (current : option string) : option string :=
  match d with
  | Some {| trackName := Some n |} => if decide (n = EmptyString) then current else Some n
  | _ => current
  end.

Definition session_bpm (d : option DeckInfo) (current : option number) : option number :=
  match d with
  | Some {| di_bpm := Some b |} => Some b
  | _ => current
  end.

(** [loadSession(name)]. *)
Definition loadSession (name : string) (su : App * Settings) : App * Settings :=
  let '(s, u) := su in
  match find_by ss_name name (sessions u) with
  | None => (s, u)
  | Some session =>
      let a :=
        set_bpm (session_bpm (ss_deckA session) (bpmA s))
          (set_wetState (ss_wetA session) (set_fxState (ss_fxA session) (deckA s))) in
      let b :=
        set_bpm (session_bpm (ss_deckB session) (bpmB s))
          (set_wetState (ss_wetB session) (set_fxState (ss_fxB session) (deckB s))) in
      ({| deckA := a; deckB := b; audio := audio s;
          beatSnap := ss_beatSnap session; lastTap := lastTap s; rec := rec s;
          midiMap := ss_midiMap session;
          crossfader := ss_crossfader session; master := ss_master session |},
       {| deckATrackName := session_trackName (ss_deckA session) (deckATrackName u);
          deckBTrackName := session_trackName (ss_deckB session) (deckBTrackName u);
          performanceMode := ss_performanceMode session;
          darkMode := ss_darkMode session;
          presets := presets u; presetName := presetName u;
          fxPresetsA := fxPresetsA u; fxPresetsB := fxPresetsB u;
          fxPresetNameA := fxPresetNameA u; fxPresetNameB := fxPresetNameB u;
          sessions := sessions u; sessionName := sessionName u |})
  end.

(** [deleteSession(name)]. *)
Definition deleteSession (name : string) (u : Settings) : Settings :=
  set_sessions (without ss_name name (sessions u)) (sessionName u) u.

(** No list of presets or sessions has two entries of one name. *)
Definition names_unique (u : Settings) : Prop :=
  NoDup (fp_name <$> fxPresetsA u) /\ NoDup (fp_name <$> fxPresetsB u) /\
  NoDup (fst <$> presets u) /\ NoDup (ss_name <$> sessions u).

(** ** The two decks side by side *)

(** No audio node belongs to both decks. *)
Definition decks_apart (s : App) : Prop :=
  forall h, h ∈ handles (nodes (deckA s)) -> h ∉ handles (nodes (deckB s)).

(** A later store in which every object of the earlier one is as it was. *)
Definition store_kept (a a' : Audio) : Prop :=
  (next a <= next a')%nat /\
  forall h, (h < next a)%nat -> heap a' !! h = heap a !! h.

(** A later state in which no deck's node set has changed and every object
    of the earlier store is as it was. *)
Definition calm (s s' : App) : Prop :=
  store_kept (audio s) (audio s') /\
  forall deck, nodes (getDeck deck s') = nodes (getDeck deck s).

(** ... and in which the wet amounts are as they were, too. *)
Definition still (s s' : App) : Prop :=
  calm s s' /\ forall deck, wet (getDeck deck s') = wet (getDeck deck s).

(** A step that works on the audio graph of [deck]: the other deck is as it
    was, [deck] keeps its handles and its controls, a handle it gains is a
    new object, and an old object that is not a node of [deck] is as it
    was. *)
Record touches (deck : DeckId) (s s' : App) : Prop := {
  t_next : (next (audio s) <= next (audio s'))%nat;
  t_other : getDeck (other_deck deck) s' = getDeck (other_deck deck) s;
  t_wet : wet (getDeck deck s') = wet (getDeck deck s);
  t_fx : fx (getDeck deck s') = fx (getDeck deck s);
  t_keep : forall h, h ∈ handles (nodes (getDeck deck s)) ->
                     h ∈ handles (nodes (getDeck deck s'));
  t_new : forall h, h ∈ handles (nodes (getDeck deck s')) ->
                    h ∈ handles (nodes (getDeck deck s)) \/ (next (audio s) <= h)%nat;
  t_heap : forall h, (h < next (audio s))%nat ->
                     h ∉ handles (nodes (getDeck deck s')) ->
                     heap (audio s') !! h = heap (audio s) !! h
}.

(** The ranges of the effect parameters: what [ensureNodes] creates and
    [applyFilters] writes for wet amounts between 0 and 1. *)
Definition node_in_range (x : AudioNode) : Prop :=
  match x with
  | DynamicsCompressorNode threshold _ _ _ => -50 <= threshold <= -20
  | BiquadFilterNode lowpass frequency _ _ => 500 <= frequency <= 8000
  | DelayNode delayTime => 0.05 <= delayTime <= 0.5
  | GainNode gain => 0.1 <= gain <= 0.7
  | _ => True
  end.

Definition wet_in_range (w : FxWet) : Prop :=
  0 <= wet_reverb w <= 1 /\ 0 <= wet_delay w <= 1 /\
  0 <= wet_filter w <= 1 /\ 0 <= wet_gate w <= 1.

(** The node behind [h] has its parameters in range. *)
Definition in_range_at (a : Audio) (h : handle) : Prop :=
  exists x, heap a !! h = Some x /\ node_in_range x.

(** Every node of every deck has its parameters in range. *)
Definition tuned (s : App) : Prop :=
  forall deck h, h ∈ handles (nodes (getDeck deck s)) -> in_range_at (audio s) h.

(** One block of [ensureNodes], or several: the objects of the store are
    as they were, the node set keeps its handles, and a handle it gains is
    a new object with its parameters in range. *)
Definition block_kept (an an' : Audio * DeckNodes) : Prop :=
  store_kept (fst an) (fst an') /\
  (forall h, h ∈ handles (snd an) -> h ∈ handles (snd an')) /\
  (forall h, h ∈ handles (snd an') ->
     h ∈ handles (snd an) \/ ((next (fst an) <= h)%nat /\ in_range_at (fst an') h)).

(** An event whose wet amounts satisfy [R]. *)
Definition event_ok (R : FxWet -> Prop) (e : Event) : Prop :=
  match e with
  | EvSetWet _ key value => forall w, R w -> R (set_wet w key value)
  | EvApplyFilters _ _ wet => R wet
  | _ => True
  end.

(** An event as the sliders can make it: a wet amount from 0 to 1. *)
Definition slider_event (e : Event) : Prop :=
  match e with
  | EvSetWet _ _ value => 0 <= value <= 1
  | EvApplyFilters _ _ wet => wet_in_range wet
  | _ => True
  end.

(** A well-formed state with wet amounts in [R] and the property [P]. *)
Definition holds (R : FxWet -> Prop) (P : App -> Prop) (s : App) : Prop :=
  app_ok s /\ (forall deck, R (wet (getDeck deck s))) /\ P s.

(** The frequency [createEQFilter] gives a stage of [type]. *)
Definition eq_frequency (type : BiquadFilterType) : number :=
  match type with
  | lowshelf => 150
  | highshelf => 6000
  | _ => 1000
  end.

(** ** What the graph handlers leave alone *)

(** The transport of a deck apart from its chain. *)
Definition transport (w : WaveSurfer)
  : option AudioContext * bool * number * number * number :=
  (backend_ac w, isPlaying w, getCurrentTime w, getDuration w, getPlaybackRate w).

(** A step that changes nothing but the audio graph: the store, the node
    sets and the chains of the transports. *)
Definition graph_only (s s' : App) : Prop :=
  (forall deck,
     bpm (getDeck deck s') = bpm (getDeck deck s) /\
     tempo (getDeck deck s') = tempo (getDeck deck s) /\
     fx (getDeck deck s') = fx (getDeck deck s) /\
     wet (getDeck deck s') = wet (getDeck deck s) /\
     transport <$> wave (getDeck deck s') = transport <$> wave (getDeck deck s)) /\
  beatSnap s' = beatSnap s /\ lastTap s' = lastTap s /\ rec s' = rec s /\
  midiMap s' = midiMap s /\ crossfader s' = crossfader s /\ master s' = master s.




(** * Properties *)

(** ** Numbers *)

Lemma falsy_true (x : number) : falsy x = true <-> x == 0.
Proof. unfold falsy. apply Qeq_bool_iff. Qed.

Lemma falsy_false (x : number) : falsy x = false <-> ~ x == 0.
Proof.
  unfold falsy. split.
  - intros H E. apply Qeq_bool_iff in E. congruence.
  - intros H. destruct (Qeq_bool x 0) eqn:E; [|reflexivity].
    apply Qeq_bool_iff in E. contradiction.
Qed.

Lemma Qlt_bool_true (x y : number) : Qlt_bool x y = true <-> x < y.
Proof.
  unfold Qlt_bool. rewrite negb_true_iff. split.
  - intros H. apply Qnot_le_lt. intros L. apply Qle_bool_iff in L. congruence.
  - intros H. destruct (Qle_bool y x) eqn:E; [|reflexivity].
    apply Qle_bool_iff in E. lra.
Qed.

Lemma Qlt_bool_false (x y : number) : Qlt_bool x y = false <-> y <= x.
Proof. unfold Qlt_bool. rewrite negb_false_iff. apply Qle_bool_iff. Qed.

Lemma Math_max_case (x y : number) :
  (x <= y /\ Math_max x y = y) \/ (y < x /\ Math_max x y = x).
Proof.
  unfold Math_max. destruct (Qle_bool x y) eqn:E.
  - left. split; [now apply Qle_bool_iff | reflexivity].
  - right. split; [|reflexivity].
    apply Qnot_le_lt. intros L. apply Qle_bool_iff in L. congruence.
Qed.

Lemma Math_min_case (x y : number) :
  (x <= y /\ Math_min x y = x) \/ (y < x /\ Math_min x y = y).
Proof.
  unfold Math_min. destruct (Qle_bool x y) eqn:E.
  - left. split; [now apply Qle_bool_iff | reflexivity].
  - right. split; [|reflexivity].
    apply Qnot_le_lt. intros L. apply Qle_bool_iff in L. congruence.
Qed.

(** [Math.min(hi, Math.max(lo, x))] is [x] clamped to [[lo, hi]]. *)
Lemma min_max_clamp (lo hi x : number) :
  lo <= hi ->
  let r := Math_min hi (Math_max lo x) in
  lo <= r <= hi /\
  (x < lo -> r == lo) /\ (lo <= x <= hi -> r == x) /\ (hi < x -> r == hi).
Proof.
  intros Hlh r. subst r.
  destruct (Math_max_case lo x) as [[H1 ->] | [H1 ->]];
    destruct (Math_min_case hi x) as [[H2 E2] | [H2 E2]];
    destruct (Math_min_case hi lo) as [[H3 E3] | [H3 E3]];
    rewrite ?E2, ?E3; repeat split; intros; lra.
Qed.

(** [Math.max(lo, Math.min(x, hi))], the form used by the beat-snap. *)
Lemma max_min_clamp (lo hi x : number) :
  lo <= hi ->
  let r := Math_max lo (Math_min x hi) in
  lo <= r <= hi /\
  (x < lo -> r == lo) /\ (lo <= x <= hi -> r == x) /\ (hi < x -> r == hi).
Proof.
  intros Hlh r. subst r.
  destruct (Math_min_case x hi) as [[H1 ->] | [H1 ->]];
    destruct (Math_max_case lo x) as [[H2 E2] | [H2 E2]];
    destruct (Math_max_case lo hi) as [[H3 E3] | [H3 E3]];
    rewrite ?E2, ?E3; repeat split; intros; lra.
Qed.

Lemma Math_round_bounds (x : number) :
  inject_Z (Math_round x) - (1 # 2) <= x /\ x < inject_Z (Math_round x) + (1 # 2).
Proof.
  unfold Math_round.
  pose proof (Qfloor_le (x + (1 # 2))) as Hl.
  pose proof (Qlt_floor (x + (1 # 2))) as Hu.
  rewrite inject_Z_plus in Hu. change (inject_Z 1) with 1 in Hu. split; lra.
Qed.

(** No integer is closer to [x] than [Math.round(x)]. *)
Lemma Math_round_nearest (x : number) (j : Z) :
  Qabs (inject_Z (Math_round x) - x) <= Qabs (inject_Z j - x).
Proof.
  destruct (Math_round_bounds x) as [Hl Hu].
  set (r := Math_round x) in *.
  assert (Hr : Qabs (inject_Z r - x) <= 1 # 2) by (apply Qabs_Qle_condition; split; lra).
  destruct (Z.lt_trichotomy j r) as [Hlt | [-> | Hgt]].
  - assert (Hj : inject_Z j + 1 <= inject_Z r).
    { change 1 with (inject_Z 1). rewrite <- inject_Z_plus.
      rewrite <- Zle_Qle. lia. }
    eapply Qle_trans; [exact Hr|].
    rewrite <- Qabs_opp. eapply Qle_trans; [|apply Qle_Qabs]. lra.
  - apply Qle_refl.
  - assert (Hj : inject_Z r + 1 <= inject_Z j).
    { change 1 with (inject_Z 1). rewrite <- inject_Z_plus.
      rewrite <- Zle_Qle. lia. }
    eapply Qle_trans; [exact Hr|].
    eapply Qle_trans; [|apply Qle_Qabs]. lra.
Qed.

Lemma Math_round_comp (x y : number) : x == y -> Math_round x = Math_round y.
Proof. intros E. unfold Math_round. apply Qfloor_comp. now rewrite E. Qed.

(** ** Frame properties of the state updates *)

Lemma getDeck_set_deck_eq (deck : DeckId) (d : Deck) (s : App) :
  getDeck deck (set_deck deck d s) = d.
Proof. destruct deck; reflexivity. Qed.

Lemma getDeck_set_deck_ne (deck deck' : DeckId) (d : Deck) (s : App) :
  deck <> deck' -> getDeck deck' (set_deck deck d s) = getDeck deck' s.
Proof. destruct deck, deck'; intros H; try reflexivity; congruence. Qed.

Lemma getDeck_set_audio (deck : DeckId) (a : Audio) (s : App) :
  getDeck deck (set_audio a s) = getDeck deck s.
Proof. destruct deck; reflexivity. Qed.

Lemma playClick_getDeck (deck : DeckId) (s : App) :
  getDeck deck (playClick s) = getDeck deck s.
Proof. unfold playClick. destruct (audioCtxRef (audio s)), deck; reflexivity. Qed.

Lemma playClick_lastTap (s : App) : lastTap (playClick s) = lastTap s.
Proof. unfold playClick. destruct (audioCtxRef (audio s)); reflexivity. Qed.

Lemma playClick_rec (s : App) : rec (playClick s) = rec s.
Proof. unfold playClick. destruct (audioCtxRef (audio s)); reflexivity. Qed.

(** ** Tap tempo *)

(** The three outcomes of a tap, by the test the code makes. *)
Lemma tapTempo_first (deck : DeckId) (now : number) (s : App) :
  lastTap s == 0 -> tapTempo deck now s = setLastTap now s.
Proof.
  intros H. unfold tapTempo. apply falsy_true in H. now rewrite H.
Qed.

Lemma tapTempo_discard (deck : DeckId) (now : number) (s : App) :
  ~ lastTap s == 0 ->
  now - lastTap s < 250 \/ 2000 < now - lastTap s ->
  tapTempo deck now s = setLastTap now s.
Proof.
  intros H0 H. unfold tapTempo. apply falsy_false in H0. rewrite H0. cbn zeta.
  replace (lastTap (setLastTap now s)) with now by reflexivity.
  destruct H as [H | H]; apply Qlt_bool_true in H.
  - unfold number in *. now rewrite H.
  - unfold number in *. rewrite H. now rewrite orb_true_r.
Qed.

Lemma tapTempo_accept (deck : DeckId) (now : number) (s : App) :
  ~ lastTap s == 0 ->
  250 <= now - lastTap s <= 2000 ->
  tapTempo deck now s =
  playClick (setBpm deck (Some (inject_Z (Math_round (60000 / (now - lastTap s)))))
               (setLastTap now s)).
Proof.
  intros H0 [Hl Hu]. unfold tapTempo. apply falsy_false in H0. rewrite H0. cbn zeta.
  apply Qlt_bool_false in Hl, Hu. unfold number in *. now rewrite Hl, Hu.
Qed.

(** C3. A tap with no earlier tap on record ([lastTap] is still 0) only
    records its time; a tap less than 250 ms or more than 2000 ms after the
    recorded one records its time and leaves both BPM estimates alone; a tap
    250 to 2000 ms after the recorded one records its time and sets the
    tapped deck's BPM to [Math.round(60000 / interval)], the integer nearest
    to 60000 / interval, which is 120 for an interval of 500 ms. *)
Theorem tapTempo_cases (deck : DeckId) (now : number) (s : App) :
  let s' := tapTempo deck now s in
  let interval := now - lastTap s in
  (lastTap s == 0 ->
     s' = setLastTap now s /\ lastTap s' = now /\
     forall d, bpm (getDeck d s') = bpm (getDeck d s)) /\
  (~ lastTap s == 0 -> interval < 250 \/ 2000 < interval ->
     s' = setLastTap now s /\ lastTap s' = now /\
     forall d, bpm (getDeck d s') = bpm (getDeck d s)) /\
  (~ lastTap s == 0 -> 250 <= interval <= 2000 ->
     lastTap s' = now /\
     bpm (getDeck deck s') = Some (inject_Z (Math_round (60000 / interval))) /\
     (forall j : Z,
        Qabs (inject_Z (Math_round (60000 / interval)) - 60000 / interval)
        <= Qabs (inject_Z j - 60000 / interval)) /\
     (interval == 500 -> bpm (getDeck deck s') = Some 120)).
Proof.
  cbn zeta. split; [|split].
  - intros H. rewrite (tapTempo_first deck now s H).
    split; [reflexivity|]. split; [reflexivity|]. intros []; reflexivity.
  - intros H0 H. rewrite (tapTempo_discard deck now s H0 H).
    split; [reflexivity|]. split; [reflexivity|]. intros []; reflexivity.
  - intros H0 H. rewrite (tapTempo_accept deck now s H0 H).
    rewrite playClick_lastTap, playClick_getDeck.
    unfold setBpm. rewrite getDeck_set_deck_eq.
    split; [destruct deck; reflexivity|]. split; [reflexivity|].
    split; [intros j; apply Math_round_nearest|].
    intros E. cbn [bpm set_bpm].
    rewrite (Math_round_comp _ 120); [reflexivity|].
    rewrite E. reflexivity.
Qed.

Lemma tapTempo_cases_witness :
  tapTempo DeckA 1000 initial = setLastTap 1000 initial /\
  tapTempo DeckB 1100 (setLastTap 1000 initial)
  = setLastTap 1100 (setLastTap 1000 initial) /\
  bpm (getDeck DeckB (tapTempo DeckB 1500 (setLastTap 1000 initial))) = Some 120.
Proof.
  split; [|split].
  - apply (proj1 (tapTempo_cases DeckA 1000 initial)). reflexivity.
  - apply (proj1 (proj2 (tapTempo_cases DeckB 1100 (setLastTap 1000 initial)))).
    + intros H; discriminate H.
    + left. reflexivity.
  - apply (proj2 (proj2 (tapTempo_cases DeckB 1500 (setLastTap 1000 initial)))).
    + intros H; discriminate H.
    + split; intros H; discriminate H.
    + reflexivity.
Defined.

(** C10. The time of the last tap is one value for both decks: a tap on
    any deck [d1] at a time [t1] (not 0) records [t1], and a following tap on
    any deck [d2] (deck B after deck A, say) at [t2], 250 to 2000 ms later,
    sets the BPM of [d2] from [t2 - t1] and records [t2] for the tap after it. *)
Theorem tapTempo_shared (d1 d2 : DeckId) (t1 t2 : number) (s : App) :
  ~ t1 == 0 ->
  250 <= t2 - t1 <= 2000 ->
  let s1 := tapTempo d1 t1 s in
  let s2 := tapTempo d2 t2 s1 in
  lastTap s1 = t1 /\
  bpm (getDeck d2 s2) = Some (inject_Z (Math_round (60000 / (t2 - t1)))) /\
  lastTap s2 = t2.
Proof.
  intros H1 H12. cbn zeta.
  assert (E1 : lastTap (tapTempo d1 t1 s) = t1).
  { unfold tapTempo. destruct (falsy (lastTap s)); [reflexivity|]. cbn zeta.
    destruct (_ || _); [reflexivity|].
    rewrite playClick_lastTap. destruct d1; reflexivity. }
  split; [exact E1|].
  assert (H1' : ~ lastTap (tapTempo d1 t1 s) == 0) by (rewrite E1; exact H1).
  assert (H12' : 250 <= t2 - lastTap (tapTempo d1 t1 s) <= 2000)
    by (rewrite E1; exact H12).
  rewrite (tapTempo_accept d2 t2 _ H1' H12').
  rewrite playClick_lastTap, playClick_getDeck.
  unfold setBpm. rewrite getDeck_set_deck_eq, E1.
  split; [reflexivity | destruct d2; reflexivity].
Qed.

Lemma tapTempo_shared_witness :
  bpmB (tapTempo DeckB 1500 (tapTempo DeckA 1000 initial)) = Some 120.
Proof.
  apply (tapTempo_shared DeckA DeckB 1000 1500 initial).
  - intros H; discriminate H.
  - split; intros H; discriminate H.
Defined.

(** ** Playback rate and sync *)

Lemma setTempo_mounted (deck : DeckId) (value : number) (s : App) (w : WaveSurfer) :
  wave (getDeck deck s) = Some w ->
  setTempo deck value s =
  set_deck deck (set_tempo value (set_wave (Some (setPlaybackRate value w)) (getDeck deck s))) s.
Proof. intros H. unfold setTempo. now rewrite H. Qed.

(** C6. Syncing a deck whose BPM or whose partner's BPM is unknown changes
    nothing. With both known (and not 0), syncing deck X sets the rate of X,
    on its transport and as its multiplier, to BPM(Y) / BPM(X) clamped to
    [0.6, 1.5], Y being the other deck: 0.8 for BPM(X) = 150 and
    BPM(Y) = 120. *)
Theorem syncTempo_spec (deck : DeckId) (s : App) :
  let s' := syncTempo deck s in
  (bpm (getDeck deck s) = None \/ bpm (getDeck (other_deck deck) s) = None -> s' = s) /\
  (forall x y w,
     bpm (getDeck deck s) = Some x ->
     bpm (getDeck (other_deck deck) s) = Some y ->
     ~ x == 0 -> ~ y == 0 ->
     wave (getDeck deck s) = Some w ->
     let r := tempo (getDeck deck s') in
     r = Math_min 1.5 (Math_max 0.6 (y / x)) /\
     getPlaybackRate <$> wave (getDeck deck s') = Some r /\
     0.6 <= r <= 1.5 /\
     (y / x < 0.6 -> r == 0.6) /\
     (0.6 <= y / x <= 1.5 -> r == y / x) /\
     (1.5 < y / x -> r == 1.5) /\
     (x == 150 -> y == 120 -> r == 0.8)).
Proof.
  cbn zeta. split.
  - unfold syncTempo, bpmA, bpmB.
    destruct deck; cbn [other_deck getDeck]; intros [H | H]; rewrite H;
      try reflexivity;
      match goal with |- match ?b with _ => _ end = _ => destruct b; reflexivity end.
  - intros x y w Hx Hy Hx0 Hy0 Hw.
    assert (E : syncTempo deck s
                = playClick (setTempo deck (Math_min 1.5 (Math_max 0.6 (y / x))) s)).
    { apply falsy_false in Hx0, Hy0. unfold syncTempo, bpmA, bpmB.
      destruct deck; cbn [other_deck getDeck] in *; rewrite Hx, Hy, Hx0, Hy0; reflexivity. }
    rewrite E, playClick_getDeck, (setTempo_mounted deck _ s w Hw), getDeck_set_deck_eq.
    cbn [tempo wave set_tempo set_wave fmap option_fmap option_map getPlaybackRate setPlaybackRate].
    assert (Hlh : 0.6 <= 1.5) by (intros H; discriminate H).
    destruct (min_max_clamp 0.6 1.5 (y / x) Hlh) as (Hr & Hlo & Hmid & Hhi).
    cbn zeta in *. repeat split; try tauto.
    intros Ex Ey.
    assert (Hyx : y / x == 0.8) by (rewrite Ex, Ey; reflexivity).
    etransitivity; [apply Hmid | exact Hyx].
    rewrite Hyx. split; intros H; discriminate H.
Qed.

Lemma syncTempo_spec_witness :
  syncTempo DeckA initial = initial /\
  tempoB (syncTempo DeckB
            (setBpm DeckB (Some 150) (setBpm DeckA (Some 120) (run [EvMount] initial))))
  == 0.8.
Proof.
  split.
  - apply (proj1 (syncTempo_spec DeckA initial)). left. reflexivity.
  - pose (s := setBpm DeckB (Some 150) (setBpm DeckA (Some 120) (run [EvMount] initial))).
    assert (N150 : ~ 150 == 0) by (intros H; discriminate H).
    assert (N120 : ~ 120 == 0) by (intros H; discriminate H).
    destruct (proj2 (syncTempo_spec DeckB s) 150 120 WaveSurfer_create
                eq_refl eq_refl N150 N120 eq_refl)
      as (_ & _ & _ & _ & _ & _ & H).
    apply H; reflexivity.
Defined.

(** ** Beat-snap *)

(** The transport of a deck after [togglePlay], when beat-snap applies. *)
Lemma togglePlay_snap (deck : DeckId) (s : App) (w : WaveSurfer) (b : number) :
  wave (getDeck deck s) = Some w ->
  isPlaying w = false -> beatSnap s = true ->
  bpm (getDeck deck s) = Some b -> ~ b == 0 ->
  wave (getDeck deck (togglePlay deck s)) =
  Some (playPause
          (setTime
             (Math_max 0
                (Math_min (inject_Z (Math_round (getCurrentTime w / (60 / b))) * (60 / b))
                   (getDuration w))) w)).
Proof.
  intros Hw Hp Hs Hb Hb0. apply falsy_false in Hb0.
  unfold togglePlay, togglePlay_in. rewrite Hw, Hp, Hs, Hb, Hb0. cbn zeta.
  rewrite playClick_getDeck, getDeck_set_deck_eq. reflexivity.
Qed.

(** ... and when it does not. *)
Lemma togglePlay_no_snap (deck : DeckId) (s : App) (w : WaveSurfer) :
  wave (getDeck deck s) = Some w ->
  isPlaying w = true \/ beatSnap s = false \/ falsy_opt (bpm (getDeck deck s)) = true ->
  wave (getDeck deck (togglePlay deck s)) = Some (playPause w).
Proof.
  intros Hw H. unfold togglePlay, togglePlay_in. rewrite Hw.
  rewrite playClick_getDeck, getDeck_set_deck_eq. cbn [wave set_wave].
  destruct H as [H | [H | H]].
  - rewrite H. reflexivity.
  - rewrite H, andb_false_r. reflexivity.
  - destruct (negb (isPlaying w) && beatSnap s); [|reflexivity].
    destruct (bpm (getDeck deck s)) as [b|]; [|reflexivity].
    cbn [falsy_opt] in H. now rewrite H.
Qed.

(** [Math.round(t / beat) * beat] is a multiple of [beat] nearest to [t]. *)
Lemma snapped_nearest (t beat : number) (j : Z) :
  ~ beat == 0 ->
  Qabs (inject_Z (Math_round (t / beat)) * beat - t) <= Qabs (inject_Z j * beat - t).
Proof.
  intros Hb.
  assert (E : forall k : Z, inject_Z k * beat - t == (inject_Z k - t / beat) * beat)
    by (intros k; field; exact Hb).
  rewrite (E (Math_round (t / beat))), (E j), !Qabs_Qmult.
  apply Qmult_le_compat_r; [apply Math_round_nearest | apply Qabs_nonneg].
Qed.

(** X25. The Play button of the current render: starting a stopped deck
    with beat-snap on and a known BPM (not 0) moves the position to
    [Math.round(t / beat) * beat], a multiple of the beat length
    [beat = 60 / BPM] nearest to the position [t], clamped to
    [0, duration]: 1.0 s for BPM = 120 and t = 1.23 s. With beat-snap off,
    the BPM unknown, or the deck playing (so that the call pauses it), the
    position stays where it is. *)
Theorem togglePlay_beat_snap (deck : DeckId) (s : App) (w : WaveSurfer) :
  wave (getDeck deck s) = Some w ->
  let s' := togglePlay deck s in
  let t := getCurrentTime w in
  (isPlaying w = false -> beatSnap s = true ->
   forall b, bpm (getDeck deck s) = Some b -> ~ b == 0 ->
     let beat := 60 / b in
     let snapped := inject_Z (Math_round (t / beat)) * beat in
     let p := Math_max 0 (Math_min snapped (getDuration w)) in
     getCurrentTime <$> wave (getDeck deck s') = Some p /\
     isPlaying <$> wave (getDeck deck s') = Some true /\
     (forall j : Z, Qabs (snapped - t) <= Qabs (inject_Z j * beat - t)) /\
     (0 <= getDuration w ->
        0 <= p <= getDuration w /\
        (snapped < 0 -> p == 0) /\
        (0 <= snapped <= getDuration w -> p == snapped) /\
        (getDuration w < snapped -> p == getDuration w)) /\
     (b == 120 -> t == 1.23 -> 1 <= getDuration w -> p == 1)) /\
  (isPlaying w = true \/ beatSnap s = false \/ bpm (getDeck deck s) = None ->
     getCurrentTime <$> wave (getDeck deck s') = Some t).
Proof.
  intros Hw. cbn zeta. split.
  - intros Hp Hs b Hb Hb0.
    rewrite (togglePlay_snap deck s w b Hw Hp Hs Hb Hb0).
    cbn [fmap option_fmap option_map getCurrentTime isPlaying playPause setTime].
    rewrite Hp.
    assert (Hbeat : ~ 60 / b == 0).
    { intros E. apply Hb0. 
      assert (E' : b * (60 / b) == 60) by (field; exact Hb0).
      rewrite E in E'. revert E'. rewrite Qmult_0_r. intros E'. discriminate E'. }
    split; [reflexivity|]. split; [reflexivity|].
    split; [intros j; apply snapped_nearest; exact Hbeat|].
    split.
    + intros Hd. exact (max_min_clamp 0 (getDuration w) _ Hd).
    + intros Eb Et Hd.
      assert (Ebeat : 60 / b == 1 # 2) by (rewrite Eb; reflexivity).
      assert (Er : Math_round (getCurrentTime w / (60 / b)) = 2%Z).
      { rewrite (Math_round_comp _ (246 # 100)); [reflexivity|].
        rewrite Et, Ebeat. reflexivity. }
      rewrite Er.
      assert (Hd0 : 0 <= getDuration w) by lra.
      destruct (max_min_clamp 0 (getDuration w) (inject_Z 2 * (60 / b)) Hd0)
        as (_ & _ & Hmid & _).
      cbn zeta in Hmid. rewrite Hmid.
      * rewrite Ebeat. reflexivity.
      * rewrite Ebeat. split; [intros H; discriminate H|].
        eapply Qle_trans; [|exact Hd]. intros H; discriminate H.
  - intros H.
    rewrite (togglePlay_no_snap deck s w Hw); [reflexivity|].
    destruct H as [H | [H | H]]; auto. right. right. now rewrite H.
Qed.

Lemma togglePlay_beat_snap_witness :
  let s := step (EvSeek DeckA 1.23)
             (setBpm DeckA (Some 120) (run [EvMount; EvReady DeckA None 180] initial)) in
  (exists p, getCurrentTime <$> waveARef (togglePlay DeckA s) = Some p /\ p == 1) /\
  getCurrentTime <$> waveARef (togglePlay DeckA (setBeatSnap false s)) = Some 1.23.
Proof.
  cbn zeta.
  pose (s := step (EvSeek DeckA 1.23)
               (setBpm DeckA (Some 120) (run [EvMount; EvReady DeckA None 180] initial))).
  pose (w := {| backend_ac := None; isPlaying := false; getCurrentTime := 1.23;
                getDuration := 180; getPlaybackRate := 1; getFilters := [] |}).
  assert (N120 : ~ 120 == 0) by (intros H; discriminate H).
  split.
  - destruct (proj1 (togglePlay_beat_snap DeckA s w eq_refl) eq_refl eq_refl 120 eq_refl N120)
      as (Hp & _ & _ & _ & He).
    eexists. split; [exact Hp|].
    apply He; [reflexivity | reflexivity | intros H; discriminate H].
  - apply (proj2 (togglePlay_beat_snap DeckA (setBeatSnap false s) w eq_refl)).
    right. left. reflexivity.
Defined.

(** ** Recording *)

(** C9. A record toggle made while idle changes nothing in the recording
    state when there is no audio context (neither on deck A's backend nor in
    [audioCtxRef]) or when connecting the master output to the capture sink
    throws: the flag stays false, [recorderRef] and the chunk buffer keep
    their values. Without a context the whole state is unchanged. *)
Theorem toggleRecord_abort (connect_ok : bool) (s : App) :
  recording (rec s) = false ->
  ((forall w, waveARef s = Some w -> backend_ac w = None) /\
   audioCtxRef (audio s) = None) \/ connect_ok = false ->
  let s' := toggleRecord connect_ok s in
  rec s' = rec s /\
  recording (rec s') = false /\
  recorderRef (rec s') = recorderRef (rec s) /\
  recordChunksRef (rec s') = recordChunksRef (rec s) /\
  (audioCtxRef (audio s) = None ->
   (forall w, waveARef s = Some w -> backend_ac w = None) -> s' = s).
Proof.
  intros Hidle H. cbn zeta.
  assert (E : rec (toggleRecord connect_ok s) = rec s).
  { unfold toggleRecord, toggleRecord_in. rewrite Hidle.
    destruct H as [[Hw Hc] | ->].
    - rewrite Hc. destruct (waveARef s) as [w|]; [|reflexivity].
      rewrite (Hw w eq_refl). reflexivity.
    - destruct (match waveARef s with Some w => backend_ac w | None => None end);
        [reflexivity|].
      destruct (audioCtxRef (audio s)); reflexivity. }
  rewrite E. repeat split; try assumption.
  intros Hc Hw. unfold toggleRecord, toggleRecord_in. rewrite Hc.
  destruct (waveARef s) as [w|]; [|reflexivity].
  rewrite (Hw w eq_refl). reflexivity.
Qed.

Lemma toggleRecord_abort_witness :
  toggleRecord true initial = initial /\
  rec (toggleRecord false (run [EvMount; EvReady DeckA (Some (mkAudioContext 7)) 180] initial))
  = rec initial.
Proof.
  split.
  - apply (toggleRecord_abort true initial eq_refl).
    + left. split; [intros w H; discriminate H | reflexivity].
    + reflexivity.
    + intros w H; discriminate H.
  - apply (toggleRecord_abort false
             (run [EvMount; EvReady DeckA (Some (mkAudioContext 7)) 180] initial) eq_refl).
    right. reflexivity.
Defined.

(** ** MIDI dispatch *)

Lemma when_mapped_to (data1 code : Z) (c : Action) (l : list (Z * Action)) :
  when (data1 =? code)%Z c ++ mapped_to data1 l = mapped_to data1 ((code, c) :: l).
Proof.
  unfold mapped_to, when. rewrite filter_cons. cbn [fst].
  destruct (Z.eqb_spec data1 code) as [-> | Hne].
  - rewrite decide_True by reflexivity. reflexivity.
  - rewrite decide_False by congruence. reflexivity.
Qed.

Lemma onmidimessage_note (m : MidiMap) (status data1 data2 : Z) (rest : list Z) :
  Z.land status 240 = 144%Z -> (0 < data2)%Z ->
  onmidimessage m (Some (status :: data1 :: data2 :: rest)) = mapped_to data1 (note_actions m).
Proof.
  intros Hc Hv. unfold onmidimessage. cbn zeta. rewrite Hc.
  apply Z.ltb_lt in Hv. rewrite Hv. cbn [Z.eqb Pos.eqb andb]. rewrite app_nil_r.
  unfold note_actions. rewrite <- !when_mapped_to.
  change (mapped_to data1 []) with (@nil Action). now rewrite app_nil_r.
Qed.

Lemma mapped_to_absent (data1 : Z) (l : list (Z * Action)) :
  data1 ∉ fst <$> l -> mapped_to data1 l = [].
Proof.
  unfold mapped_to. induction l as [| [k a] l IH]; intros Hn; [reflexivity|].
  cbn [fmap list_fmap fst] in Hn. apply not_elem_of_cons in Hn as [Hk Hn].
  rewrite filter_cons. cbn [fst]. rewrite decide_False by congruence. now apply IH.
Qed.

Lemma mapped_to_unique (data1 : Z) (c : Action) (l : list (Z * Action)) :
  NoDup (fst <$> l) -> (data1, c) ∈ l -> mapped_to data1 l = [c].
Proof.
  induction l as [| [k a] l IH]; intros Hnd Hin.
  - now apply not_elem_of_nil in Hin.
  - cbn [fmap list_fmap fst] in Hnd. apply NoDup_cons in Hnd as [Hk Hnd].
    apply elem_of_cons in Hin as [Heq | Hin].
    + inversion Heq; subst k a.
      change (mapped_to data1 ((data1, c) :: l))
        with (snd <$> filter (fun p : Z * Action => fst p = data1) ((data1, c) :: l)).
      rewrite filter_cons. cbn [fst]. rewrite decide_True by reflexivity.
      cbn [fmap list_fmap snd]. f_equal. now apply mapped_to_absent.
    + assert (Hne : k <> data1).
      { intros ->. apply Hk. apply list_elem_of_fmap. now exists (data1, c). }
      change (mapped_to data1 ((k, a) :: l))
        with (snd <$> filter (fun p : Z * Action => fst p = data1) ((k, a) :: l)).
      rewrite filter_cons. cbn [fst]. rewrite decide_False by exact Hne.
      now apply IH.
Qed.

(** C5, as stated, fails for a map in which two actions share a code, and
    the "Compact" preset is one: it maps both the deck B reverb toggle and
    the record toggle to 40, so one note-on with that code makes two calls.
    A code mapped only to the crossfader makes none. *)
Lemma compact_preset_two_calls :
  In ("Compact"%string, COMPACT_MIDI) DEFAULT_PRESETS /\
  (fxBReverb COMPACT_MIDI = 40%Z) /\
  (onmidimessage COMPACT_MIDI (Some [144; 40; 127]%Z)
   = [CallToggleFx DeckB FxReverb; CallToggleRecord]) /\
  (length (onmidimessage COMPACT_MIDI (Some [144; 40; 127]%Z)) <> 1%nat) /\
  (mm_crossfader DEFAULT_MIDI = 1%Z) /\
  (onmidimessage DEFAULT_MIDI (Some [144; 1; 127]%Z) = []).
Proof.
  split; [right; left; reflexivity|].
  split; [reflexivity|]. split; [reflexivity|].
  split; [intros H; discriminate H|]. split; reflexivity.
Qed.

(** C5, amended. For every map and every message with command 0x90: with
    [data2 = 0] no handler is called, so the state stays as it is whatever
    the handlers do; with [data2 > 0] one call is made for each of the
    eleven note actions (two play/pause, eight effect toggles, the record
    toggle) whose code is [data1], in the order of [note_actions]; that is
    exactly one call when [data1] is the code of a note action and no two
    note actions share a code. *)
Theorem onmidimessage_note_on (m : MidiMap) (status data1 data2 : Z) :
  Z.land status 240 = 144%Z ->
  let calls := onmidimessage m (Some [status; data1; data2]) in
  (data2 = 0%Z ->
     calls = [] /\ forall handler s, dispatch handler calls s = s) /\
  ((0 < data2)%Z -> calls = mapped_to data1 (note_actions m)) /\
  ((0 < data2)%Z -> NoDup (fst <$> note_actions m) ->
     forall c, (data1, c) ∈ note_actions m -> calls = [c]).
Proof.
  intros Hc. cbn zeta. split; [|split].
  - intros ->.
    assert (E : onmidimessage m (Some [status; data1; 0%Z]) = []).
    { unfold onmidimessage. cbn zeta. rewrite Hc. reflexivity. }
    rewrite E. split; reflexivity.
  - intros Hv. now apply onmidimessage_note.
  - intros Hv Hnd c Hin. rewrite (onmidimessage_note m _ _ _ _ Hc Hv).
    now apply mapped_to_unique.
Qed.

Lemma onmidimessage_note_on_witness :
  onmidimessage DEFAULT_MIDI (Some [144; 60; 0]%Z) = [] /\
  onmidimessage DEFAULT_MIDI (Some [144; 60; 100]%Z) = [CallTogglePlay DeckA].
Proof.
  split.
  - apply (proj1 (onmidimessage_note_on DEFAULT_MIDI 144 60 0 eq_refl) eq_refl).
  - apply (proj2 (proj2 (onmidimessage_note_on DEFAULT_MIDI 144 60 100 eq_refl)) eq_refl).
    + compute_done.
    + apply elem_of_cons. left. reflexivity.
Defined.

(** ** The store: objects persist and keep their kind *)

Lemma extends_refl (a : Audio) : extends a a.
Proof. split; [lia | reflexivity]. Qed.

Lemma extends_trans (a b c : Audio) : extends a b -> extends b c -> extends a c.
Proof.
  intros [Hn1 Hk1] [Hn2 Hk2]. split; [lia|].
  intros h Hh. rewrite Hk2 by lia. now apply Hk1.
Qed.

Lemma extends_alloc (x : AudioNode) (a : Audio) : extends a (snd (alloc x a)).
Proof.
  split; [cbn; lia|]. intros h Hh. unfold kind_at. cbn.
  rewrite lookup_insert_ne by lia. reflexivity.
Qed.

Lemma kind_at_alloc (x : AudioNode) (a : Audio) :
  kind_at (snd (alloc x a)) (next a) = Some (node_kind x).
Proof. unfold kind_at. cbn. now rewrite lookup_insert_eq. Qed.

Lemma extends_new_AudioContext (a : Audio) : extends a (snd (new_AudioContext a)).
Proof. split; [cbn; lia | reflexivity]. Qed.

Lemma extends_set_audioCtxRef (c : option AudioContext) (a : Audio) :
  extends a (set_audioCtxRef c a).
Proof. split; [cbn; lia | reflexivity]. Qed.

Lemma extends_connect (src dst : Endpoint) (a : Audio) : extends a (connect src dst a).
Proof. split; [cbn; lia | reflexivity]. Qed.

(** A parameter write keeps every kind: the setters of the model change a
    field of the node and nothing else. *)
Lemma keeps_kind_threshold (v : number) : keeps_kind (set_threshold v).
Proof. intros []; reflexivity. Qed.
Lemma keeps_kind_frequency (v : number) : keeps_kind (set_frequency v).
Proof. intros []; reflexivity. Qed.
Lemma keeps_kind_gain (v : number) : keeps_kind (set_gain v).
Proof. intros []; reflexivity. Qed.
Lemma keeps_kind_delayTime (v : number) : keeps_kind (set_delayTime v).
Proof. intros []; reflexivity. Qed.

#[local] Hint Resolve keeps_kind_threshold keeps_kind_frequency keeps_kind_gain
  keeps_kind_delayTime : core.

Lemma kind_at_set_param (h i : handle) (f : AudioNode -> AudioNode) (a : Audio) :
  keeps_kind f -> kind_at (set_param h f a) i = kind_at a i.
Proof.
  intros Hf. unfold kind_at. cbn. rewrite lookup_alter. case_decide; [|reflexivity].
  subst i. destruct (heap a !! h) as [x|]; cbn; [|reflexivity]. now rewrite Hf.
Qed.

Lemma extends_set_param (h : handle) (f : AudioNode -> AudioNode) (a : Audio) :
  keeps_kind f -> extends a (set_param h f a).
Proof.
  intros Hf. split; [cbn; lia|]. intros i _. now apply kind_at_set_param.
Qed.

#[local] Hint Resolve extends_refl extends_alloc extends_new_AudioContext
  extends_set_audioCtxRef extends_connect extends_set_param : core.

Lemma elem_of_option_list {A} (o : option A) (x : A) :
  x ∈ option_list o <-> o = Some x.
Proof.
  destruct o as [y|]; cbn.
  - rewrite list_elem_of_singleton. split; [intros -> | intros [= ->]]; reflexivity.
  - split; [intros H; now apply not_elem_of_nil in H | discriminate].
Qed.

(** Membership in [handles], field by field. *)
Lemma elem_of_handles (n : DeckNodes) (h : handle) :
  h ∈ handles n <->
  n_gate n = Some h \/ h ∈ (snd <$> n_eq n) \/ n_filter n = Some h \/
  n_delay n = Some h \/ n_reverb n = Some h \/ n_delayFeedback n = Some h \/
  n_analyser n = Some h.
Proof.
  unfold handles. rewrite !elem_of_app, !elem_of_option_list. tauto.
Qed.

(** Well-formed node sets stay so in a later store. *)
Lemma nodes_ok_extends (a a' : Audio) (n : DeckNodes) :
  extends a a' -> nodes_ok a n -> nodes_ok a' n.
Proof.
  intros [Hn Hk] [Hf Hd Hg Hfi Hde Hfb Hr Han He Hp].
  assert (Hin : forall h, h ∈ handles n -> kind_at a' h = kind_at a h).
  { intros h Hh. apply Hk. rewrite Forall_forall in Hf. now apply Hf. }
  split; try assumption.
  - eapply Forall_impl; [exact Hf|]. cbn. intros; lia.
  - intros h E. rewrite Hin; [now apply Hg|]. apply elem_of_handles. tauto.
  - intros h E. rewrite Hin; [now apply Hfi|]. apply elem_of_handles. tauto.
  - intros h E. rewrite Hin; [now apply Hde|]. apply elem_of_handles. tauto.
  - intros h E. rewrite Hin; [now apply Hfb|]. apply elem_of_handles. tauto.
  - intros h E. rewrite Hin; [now apply Hr|]. apply elem_of_handles. tauto.
  - intros h E. rewrite Hin; [now apply Han|]. apply elem_of_handles. tauto.
  - rewrite Forall_forall in *. intros [t h] Hth. cbn.
    rewrite Hin; [exact (He _ Hth)|]. apply elem_of_handles. right. left.
    apply list_elem_of_fmap. now exists (t, h).
Qed.

Lemma nodes_le_refl (n : DeckNodes) : nodes_le n n.
Proof. split; auto. Qed.

Lemma nodes_le_trans (n1 n2 n3 : DeckNodes) :
  nodes_le n1 n2 -> nodes_le n2 n3 -> nodes_le n1 n3.
Proof.
  intros [] []. split; auto. etransitivity; eassumption.
Qed.

Lemma advance_refl (s : App) : advance s s.
Proof. split; [apply extends_refl | intros; apply nodes_le_refl]. Qed.

Lemma advance_trans (s1 s2 s3 : App) : advance s1 s2 -> advance s2 s3 -> advance s1 s3.
Proof.
  intros [He1 Hn1] [He2 Hn2]. split; [eapply extends_trans; eassumption|].
  intros deck. eapply nodes_le_trans; [apply Hn1 | apply Hn2].
Qed.

(** Handlers that leave the node sets alone only add to the store. *)
Lemma quiet_refl (s : App) : quiet s s.
Proof. split; [apply extends_refl | reflexivity]. Qed.

Lemma quiet_trans (s1 s2 s3 : App) : quiet s1 s2 -> quiet s2 s3 -> quiet s1 s3.
Proof.
  intros [He1 Hn1] [He2 Hn2]. split; [eapply extends_trans; eassumption|].
  intros deck. now rewrite Hn2.
Qed.

Lemma quiet_advance (s s' : App) : quiet s s' -> advance s s'.
Proof.
  intros [He Hn]. split; [exact He|]. intros deck. rewrite Hn. apply nodes_le_refl.
Qed.

Lemma quiet_ok (s s' : App) : quiet s s' -> app_ok s -> app_ok s'.
Proof.
  intros [He Hn] [HA HB]. pose proof (Hn DeckA) as EA. pose proof (Hn DeckB) as EB.
  cbn [getDeck] in EA, EB. unfold app_ok. rewrite EA, EB.
  split; eapply nodes_ok_extends; eassumption.
Qed.

(** ** Creating nodes *)

(** A node set grown by one new object stays well-formed: the common part
    of the cases below. [l'] is the new list of handles. *)
Lemma handles_add (a : Audio) (l l' : list handle) (h : handle) :
  Forall (fun h => (h < next a)%nat) l -> NoDup l ->
  h ∉ l -> (h < next a)%nat -> l' ≡ₚ h :: l ->
  Forall (fun h => (h < next a)%nat) l' /\ NoDup l'.
Proof.
  intros Hf Hd Hh Hlt Hp. rewrite Hp. split.
  - now constructor.
  - now constructor.
Qed.

Lemma nodes_ok_add_filter (a : Audio) (n : DeckNodes) (h : handle) :
  nodes_ok a n -> n_filter n = None -> h ∉ handles n -> (h < next a)%nat ->
  kind_at a h = Some (KBiquad lowpass) ->
  nodes_ok a (set_n_filter (Some h) n).
Proof.
  intros [Hf Hd Hg Hfi Hde Hfb Hr Han He Hp] E Hh Hlt Hk.
  destruct n as [e fi d fb r g an]. cbn in *. subst fi.
  destruct (handles_add a _
              (handles {| n_eq := e; n_filter := Some h; n_delay := d;
                          n_delayFeedback := fb; n_reverb := r; n_gate := g;
                          n_analyser := an |}) h Hf Hd Hh Hlt) as [Hf' Hd'].
  { unfold handles. cbn. solve_Permutation. }
  split; cbn; try assumption. intros ? [= <-]. exact Hk.
Qed.

Lemma nodes_ok_add_reverb (a : Audio) (n : DeckNodes) (h : handle) :
  nodes_ok a n -> n_reverb n = None -> h ∉ handles n -> (h < next a)%nat ->
  kind_at a h = Some (KConvolver true) ->
  nodes_ok a (set_n_reverb (Some h) n).
Proof.
  intros [Hf Hd Hg Hfi Hde Hfb Hr Han He Hp] E Hh Hlt Hk.
  destruct n as [e fi d fb r g an]. cbn in *. subst r.
  destruct (handles_add a _
              (handles {| n_eq := e; n_filter := fi; n_delay := d;
                          n_delayFeedback := fb; n_reverb := Some h; n_gate := g;
                          n_analyser := an |}) h Hf Hd Hh Hlt) as [Hf' Hd'].
  { unfold handles. cbn. solve_Permutation. }
  split; cbn; try assumption. intros ? [= <-]. exact Hk.
Qed.

Lemma nodes_ok_add_gate (a : Audio) (n : DeckNodes) (h : handle) :
  nodes_ok a n -> n_gate n = None -> h ∉ handles n -> (h < next a)%nat ->
  kind_at a h = Some KCompressor ->
  nodes_ok a (set_n_gate (Some h) n).
Proof.
  intros [Hf Hd Hg Hfi Hde Hfb Hr Han He Hp] E Hh Hlt Hk.
  destruct n as [e fi d fb r g an]. cbn in *. subst g.
  destruct (handles_add a _
              (handles {| n_eq := e; n_filter := fi; n_delay := d;
                          n_delayFeedback := fb; n_reverb := r; n_gate := Some h;
                          n_analyser := an |}) h Hf Hd Hh Hlt) as [Hf' Hd'].
  { unfold handles. cbn. solve_Permutation. }
  split; cbn; try assumption. intros ? [= <-]. exact Hk.
Qed.

Lemma nodes_ok_add_analyser (a : Audio) (n : DeckNodes) (h : handle) :
  nodes_ok a n -> n_analyser n = None -> h ∉ handles n -> (h < next a)%nat ->
  kind_at a h = Some KAnalyser ->
  nodes_ok a (set_n_analyser (Some h) n).
Proof.
  intros [Hf Hd Hg Hfi Hde Hfb Hr Han He Hp] E Hh Hlt Hk.
  destruct n as [e fi d fb r g an]. cbn in *. subst an.
  destruct (handles_add a _
              (handles {| n_eq := e; n_filter := fi; n_delay := d;
                          n_delayFeedback := fb; n_reverb := r; n_gate := g;
                          n_analyser := Some h |}) h Hf Hd Hh Hlt) as [Hf' Hd'].
  { unfold handles. cbn. solve_Permutation. }
  split; cbn; try assumption. intros ? [= <-]. exact Hk.
Qed.

Lemma nodes_ok_add_eq (a : Audio) (n : DeckNodes) (t : BiquadFilterType) (h : handle) :
  nodes_ok a n -> h ∉ handles n -> (h < next a)%nat ->
  kind_at a h = Some (KBiquad t) ->
  nodes_ok a (set_n_eq (n_eq n ++ [(t, h)]) n).
Proof.
  intros [Hf Hd Hg Hfi Hde Hfb Hr Han He Hp] Hh Hlt Hk.
  destruct n as [e fi d fb r g an]. cbn in *.
  destruct (handles_add a _
              (handles {| n_eq := e ++ [(t, h)]; n_filter := fi; n_delay := d;
                          n_delayFeedback := fb; n_reverb := r; n_gate := g;
                          n_analyser := an |}) h Hf Hd Hh Hlt) as [Hf' Hd'].
  { unfold handles. cbn. rewrite fmap_app. cbn. solve_Permutation. }
  split; cbn; try assumption.
  apply Forall_app. split; [assumption|]. now repeat constructor.
Qed.

Lemma nodes_ok_add_delay (a : Audio) (n : DeckNodes) (d f : handle) :
  nodes_ok a n -> n_delay n = None ->
  d ∉ handles n -> f ∉ handles n -> d <> f ->
  (d < next a)%nat -> (f < next a)%nat ->
  kind_at a d = Some KDelay -> kind_at a f = Some KGain ->
  nodes_ok a (set_n_delay (Some d) (Some f) n).
Proof.
  intros [Hf Hd Hg Hfi Hde Hfb Hr Han He Hp] E Hdn Hfn Hne Hdlt Hflt Hkd Hkf.
  destruct n as [e fi dl fb r g an]. cbn in *. subst dl.
  assert (fb = None) by now apply Hp. subst fb.
  destruct (handles_add a _
              (f :: handles {| n_eq := e; n_filter := fi; n_delay := None;
                               n_delayFeedback := None; n_reverb := r; n_gate := g;
                               n_analyser := an |}) f Hf Hd Hfn Hflt) as [Hf1 Hd1];
    [reflexivity|].
  destruct (handles_add a _
              (handles {| n_eq := e; n_filter := fi; n_delay := Some d;
                          n_delayFeedback := Some f; n_reverb := r; n_gate := g;
                          n_analyser := an |}) d Hf1 Hd1) as [Hf' Hd']; try assumption.
  { rewrite not_elem_of_cons. split; assumption. }
  { unfold handles. cbn. solve_Permutation. }
  split; cbn; try assumption.
  - intros ? [= <-]. exact Hkd.
  - intros ? [= <-]. exact Hkf.
  - split; discriminate.
Qed.

(** The object [alloc] returns is new to a well-formed node set. *)
Lemma next_not_in_handles (a : Audio) (n : DeckNodes) (k : nat) :
  nodes_ok a n -> (next a + k)%nat ∉ handles n.
Proof.
  intros [Hf _ _ _ _ _ _ _ _ _] Hin. rewrite Forall_forall in Hf.
  apply Hf in Hin. lia.
Qed.

Lemma grows_refl (an : Audio * DeckNodes) : grows an an.
Proof.
  intros H. split; [exact H|]. split; [apply extends_refl|].
  split; [apply nodes_le_refl|]. auto.
Qed.

Lemma grows_trans (x y z : Audio * DeckNodes) : grows x y -> grows y z -> grows x z.
Proof.
  intros Hxy Hyz H. destruct (Hxy H) as (H1 & E1 & L1 & C1 & Q1 & A1).
  destruct (Hyz H1) as (H2 & E2 & L2 & C2 & Q2 & A2).
  split; [exact H2|]. split; [eapply extends_trans; eassumption|].
  split; [eapply nodes_le_trans; eassumption|]. repeat split; congruence.
Qed.

Lemma ensure_filter_grows (an : Audio * DeckNodes) :
  grows an (ensure_filter an) /\ is_Some (n_filter (snd (ensure_filter an))).
Proof.
  destruct an as [a n]. unfold ensure_filter.
  destruct (n_filter n) as [h|] eqn:E; [split; [apply grows_refl | cbn; rewrite E; eauto]|].
  cbn. split; [|eauto]. intros H. cbn in H.
  pose proof (nodes_ok_extends _ _ _ (extends_alloc (BiquadFilterNode lowpass 8000 0.6 0) a) H)
    as H'.
  split.
  { apply nodes_ok_add_filter; try assumption.
    - pose proof (next_not_in_handles a n 0 H) as Hn. now rewrite Nat.add_0_r in Hn.
    - cbn. lia.
    - apply (kind_at_alloc (BiquadFilterNode lowpass 8000 0.6 0)). }
  split; [apply (extends_alloc (BiquadFilterNode lowpass 8000 0.6 0))|].
  split; [|auto].
  destruct n; split; cbn in *; auto; congruence.
Qed.

Lemma ensure_reverb_grows (an : Audio * DeckNodes) :
  grows an (ensure_reverb an) /\ is_Some (n_reverb (snd (ensure_reverb an))).
Proof.
  destruct an as [a n]. unfold ensure_reverb.
  destruct (n_reverb n) as [h|] eqn:E; [split; [apply grows_refl | cbn; rewrite E; eauto]|].
  cbn. split; [|eauto]. intros H. cbn in H.
  set (x := ConvolverNode (Some (createImpulse 1.3 2.3))).
  pose proof (nodes_ok_extends _ _ _ (extends_alloc x a) H) as H'.
  split.
  { apply nodes_ok_add_reverb; try assumption.
    - pose proof (next_not_in_handles a n 0 H) as Hn. now rewrite Nat.add_0_r in Hn.
    - cbn. lia.
    - apply (kind_at_alloc x). }
  split; [apply (extends_alloc x)|].
  split; [|auto].
  destruct n; split; cbn in *; auto; congruence.
Qed.

Lemma ensure_gate_grows (an : Audio * DeckNodes) :
  grows an (ensure_gate an) /\ is_Some (n_gate (snd (ensure_gate an))).
Proof.
  destruct an as [a n]. unfold ensure_gate.
  destruct (n_gate n) as [h|] eqn:E; [split; [apply grows_refl | cbn; rewrite E; eauto]|].
  cbn. split; [|eauto]. intros H. cbn in H.
  set (x := DynamicsCompressorNode (-40) 12 0.003 0.2).
  pose proof (nodes_ok_extends _ _ _ (extends_alloc x a) H) as H'.
  split.
  { apply nodes_ok_add_gate; try assumption.
    - pose proof (next_not_in_handles a n 0 H) as Hn. now rewrite Nat.add_0_r in Hn.
    - cbn. lia.
    - apply (kind_at_alloc x). }
  split; [apply (extends_alloc x)|].
  split; [|auto].
  destruct n; split; cbn in *; auto; congruence.
Qed.

Lemma ensure_delay_grows (an : Audio * DeckNodes) :
  grows an (ensure_delay an) /\ is_Some (n_delay (snd (ensure_delay an))).
Proof.
  destruct an as [a n]. unfold ensure_delay.
  destruct (n_delay n) as [h|] eqn:E; [split; [apply grows_refl | cbn; rewrite E; eauto]|].
  cbn. split; [|eauto]. intros H. cbn in H.
  set (a' := connect (Node (S (next a))) (Node (next a))
               (connect (Node (next a)) (Node (S (next a)))
                  (snd (alloc (GainNode 0.35) (snd (alloc (DelayNode 0.25) a)))))).
  assert (Hext : extends a a').
  { subst a'. eapply extends_trans; [apply (extends_alloc (DelayNode 0.25))|].
    eapply extends_trans; [apply (extends_alloc (GainNode 0.35))|].
    eapply extends_trans; apply extends_connect. }
  pose proof (nodes_ok_extends _ _ _ Hext H) as H'.
  split.
  { apply nodes_ok_add_delay; try assumption.
    - pose proof (next_not_in_handles a n 0 H) as Hn. now rewrite Nat.add_0_r in Hn.
    - pose proof (next_not_in_handles a n 1 H) as Hn.
      now replace (next a + 1)%nat with (S (next a)) in Hn by lia.
    - lia.
    - cbn. lia.
    - cbn. lia.
    - unfold kind_at. cbn. rewrite lookup_insert_ne by lia.
      now rewrite lookup_insert_eq.
    - unfold kind_at. cbn. now rewrite lookup_insert_eq. }
  split; [exact Hext|]. split; [|auto].
  destruct H as [_ _ _ _ _ _ _ _ _ Hp].
  destruct n; split; cbn in *; auto; try congruence.
  intros h Hh. rewrite (proj1 Hp E) in Hh. discriminate.
Qed.

(** [ensureNodes] as a whole, on the store and the node set of a deck. *)
Lemma ensure_all_grows (an : Audio * DeckNodes) :
  grows an (ensure_all an) /\
  (nodes_ok (fst an) (snd an) -> complete (snd (ensure_all an))).
Proof.
  unfold ensure_all.
  destruct (ensure_filter_grows an) as [G1 S1].
  destruct (ensure_delay_grows (ensure_filter an)) as [G2 S2].
  destruct (ensure_reverb_grows (ensure_delay (ensure_filter an))) as [G3 S3].
  destruct (ensure_gate_grows (ensure_reverb (ensure_delay (ensure_filter an)))) as [G4 S4].
  assert (G : grows an (ensure_gate (ensure_reverb (ensure_delay (ensure_filter an))))).
  { eapply grows_trans; [exact G1|]. eapply grows_trans; [exact G2|].
    eapply grows_trans; [exact G3 | exact G4]. }
  split; [exact G|]. intros H.
  destruct (G1 H) as (H1 & _). destruct (G2 H1) as (H2 & _).
  destruct (G3 H2) as (H3 & _ & L3 & _). destruct (G4 H3) as (H4 & _ & L4 & _).
  destruct S1 as [f Ef], S2 as [d Ed], S3 as [r Er].
  assert (Ef' : n_filter (snd (ensure_gate (ensure_reverb (ensure_delay (ensure_filter an)))))
                = Some f).
  { apply L4, L3. destruct (G2 H1) as (_ & _ & L2 & _). now apply L2. }
  assert (Ed' : n_delay (snd (ensure_gate (ensure_reverb (ensure_delay (ensure_filter an)))))
                = Some d) by now apply L4, L3.
  assert (Er' : n_reverb (snd (ensure_gate (ensure_reverb (ensure_delay (ensure_filter an)))))
                = Some r) by now apply L4.
  unfold complete. rewrite Ef', Ed', Er'. repeat split; eauto.
  destruct H4 as [_ _ _ _ _ _ _ _ _ Hp].
  apply not_eq_None_Some. intros Efb. apply Hp in Efb. congruence.
Qed.

(** On a complete node set [ensureNodes] creates nothing. *)
Lemma ensure_all_complete (a : Audio) (n : DeckNodes) :
  complete n -> ensure_all (a, n) = (a, n).
Proof.
  intros ([f Ef] & [d Ed] & _ & [r Er] & [g Eg]).
  unfold ensure_all, ensure_filter, ensure_delay, ensure_reverb, ensure_gate.
  now rewrite Ef, Ed, Er, Eg.
Qed.

(** ** Building the chain *)

Lemma kind_at_inv (a : Audio) (h : handle) (k : Kind) :
  kind_at a h = Some k -> exists x, heap a !! h = Some x /\ node_kind x = k.
Proof.
  unfold kind_at. destruct (heap a !! h) as [x|]; cbn; [|discriminate].
  intros [= <-]. eauto.
Qed.

Lemma has_buffer_loaded (a : Audio) (h : handle) :
  kind_at a h = Some (KConvolver true) -> has_buffer (heap a !! h) = true.
Proof.
  intros H. apply kind_at_inv in H as (x & -> & Hk).
  destruct x as [| | | [b|] | | | |]; cbn in Hk; try discriminate. reflexivity.
Qed.

(** The writes of [build_chain] keep every kind and nothing but the store
    of parameters changes. *)
Lemma build_chain_store (fxState : FxFlags) (wet : FxWet) (n : DeckNodes) (a : Audio) :
  let a' := fst (build_chain fxState wet n a) in
  next a' = next a /\ audioCtxRef a' = audioCtxRef a /\ edges a' = edges a /\
  forall h, kind_at a' h = kind_at a h.
Proof.
  unfold build_chain.
  destruct (fx_gate fxState), (n_gate n) as [g|], (fx_filter fxState),
    (n_filter n) as [f|], (fx_delay fxState), (n_delay n) as [d|],
    (n_delayFeedback n) as [fb|];
    cbn; repeat split; intros; rewrite ?kind_at_set_param by auto; reflexivity.
Qed.

Lemma build_chain_extends (fxState : FxFlags) (wet : FxWet) (n : DeckNodes) (a : Audio) :
  extends a (fst (build_chain fxState wet n a)).
Proof.
  destruct (build_chain_store fxState wet n a) as (Hn & _ & _ & Hk).
  split; [lia | intros h _; apply Hk].
Qed.

(** The list [build_chain] returns. *)
Lemma build_chain_chain (fxState : FxFlags) (wet : FxWet) (n : DeckNodes) (a : Audio) :
  nodes_ok a n -> snd (build_chain fxState wet n a) = chain_of fxState n.
Proof.
  intros H.
  assert (Hr : forall a', (forall h, kind_at a' h = kind_at a h) ->
               forall r, n_reverb n = Some r -> has_buffer (heap a' !! r) = true).
  { intros a' Hk r Er. apply has_buffer_loaded. rewrite Hk. now apply (ok_reverb _ _ H). }
  unfold build_chain, chain_of, stage.
  destruct (fx_gate fxState), (n_gate n) as [g|], (fx_filter fxState),
    (n_filter n) as [f|], (fx_delay fxState), (n_delay n) as [d|],
    (n_delayFeedback n) as [fb|], (fx_reverb fxState), (n_reverb n) as [r|] eqn:Er;
    cbn [fst snd option_list option_rect app];
    rewrite ?Hr by (try reflexivity; intros; rewrite ?kind_at_set_param by auto; reflexivity);
    rewrite ?app_nil_r, <- ?app_assoc; reflexivity.
Qed.

Lemma build_chain_writes (fxState : FxFlags) (wet : FxWet) (n : DeckNodes) (a : Audio) :
  fst (build_chain fxState wet n a)
  = write_delay fxState wet n (write_filter fxState wet n (write_gate fxState wet n a)).
Proof.
  unfold build_chain, write_delay, write_filter, write_gate.
  destruct (fx_gate fxState), (n_gate n) as [g|], (fx_filter fxState),
    (n_filter n) as [f|], (fx_delay fxState), (n_delay n) as [d|],
    (n_delayFeedback n) as [fb|]; reflexivity.
Qed.

Lemma heap_set_param_eq (h : handle) (f : AudioNode -> AudioNode) (a : Audio) :
  heap (set_param h f a) !! h = f <$> heap a !! h.
Proof. cbn. apply lookup_alter_eq. Qed.

Lemma heap_set_param_ne (h i : handle) (f : AudioNode -> AudioNode) (a : Audio) :
  h <> i -> heap (set_param h f a) !! i = heap a !! i.
Proof. intros H. cbn. now apply lookup_alter_ne. Qed.

Lemma set_param_id (h : handle) (f : AudioNode -> AudioNode) (a : Audio) :
  (forall x, heap a !! h = Some x -> f x = x) -> set_param h f a = a.
Proof.
  intros H. destruct a as [c m e k]. unfold set_param. cbn in *. f_equal.
  now apply alter_id.
Qed.

Lemma kinds_differ (a : Audio) (h i : handle) (k1 k2 : Kind) :
  kind_at a h = Some k1 -> kind_at a i = Some k2 -> k1 <> k2 -> h <> i.
Proof. intros H1 H2 Hk ->. congruence. Qed.

(** Each block writes to its own nodes only. *)
Lemma write_gate_other (fxState : FxFlags) (wet : FxWet) (n : DeckNodes) (a : Audio) (i : handle) :
  n_gate n <> Some i -> heap (write_gate fxState wet n a) !! i = heap a !! i.
Proof.
  intros H. unfold write_gate. destruct (fx_gate fxState), (n_gate n) as [g|]; try reflexivity.
  apply heap_set_param_ne. congruence.
Qed.

Lemma write_filter_other (fxState : FxFlags) (wet : FxWet) (n : DeckNodes) (a : Audio) (i : handle) :
  n_filter n <> Some i -> heap (write_filter fxState wet n a) !! i = heap a !! i.
Proof.
  intros H. unfold write_filter.
  destruct (fx_filter fxState), (n_filter n) as [g|]; try reflexivity.
  apply heap_set_param_ne. congruence.
Qed.

Lemma write_delay_other (fxState : FxFlags) (wet : FxWet) (n : DeckNodes) (a : Audio) (i : handle) :
  n_delay n <> Some i -> n_delayFeedback n <> Some i ->
  heap (write_delay fxState wet n a) !! i = heap a !! i.
Proof.
  intros H1 H2. unfold write_delay.
  destruct (fx_delay fxState), (n_delay n) as [d|]; try reflexivity.
  destruct (n_delayFeedback n) as [f|].
  - rewrite heap_set_param_ne by congruence. apply heap_set_param_ne. congruence.
  - apply heap_set_param_ne. congruence.
Qed.

(** Two fields of a well-formed node set of different kinds hold different
    handles. *)
Lemma field_differs (a : Audio) (x y : option handle) (k1 k2 : Kind) (i : handle) :
  (forall h, x = Some h -> kind_at a h = Some k1) ->
  (forall h, y = Some h -> kind_at a h = Some k2) ->
  k1 <> k2 -> y = Some i -> x <> Some i.
Proof. intros H1 H2 Hk Ey Ex. apply Hk. pose proof (H1 i Ex). pose proof (H2 i Ey). congruence. Qed.

(** After [build_chain] the enabled stages have their parameters. *)
Lemma build_chain_params (fxState : FxFlags) (wet : FxWet) (n : DeckNodes) (a : Audio) :
  nodes_ok a n -> params_set fxState wet n (fst (build_chain fxState wet n a)).
Proof.
  intros [_ _ Hg Hf Hd Hfb _ _ _ Hp]. rewrite build_chain_writes.
  split; [|split; [|split]].
  - intros On g Eg.
    rewrite write_delay_other, write_filter_other;
      try (eapply field_differs; [| | |exact Eg]; eauto; discriminate).
    unfold write_gate. rewrite On, Eg, heap_set_param_eq.
    destruct (kind_at_inv _ _ _ (Hg g Eg)) as (x & -> & Hk).
    destruct x as [| | | [b|] | | | |]; cbn in Hk; try discriminate. cbn. eauto.
  - intros On f Ef.
    rewrite write_delay_other;
      try (eapply field_differs; [| | |exact Ef]; eauto; discriminate).
    unfold write_filter. rewrite On, Ef, heap_set_param_eq.
    rewrite write_gate_other
      by (eapply field_differs; [| | |exact Ef]; eauto; discriminate).
    destruct (kind_at_inv _ _ _ (Hf f Ef)) as (x & -> & Hk).
    destruct x as [| | | [b|] | | | |]; cbn in Hk; try discriminate.
    injection Hk as ->. cbn. eauto.
  - intros On d Ed. unfold write_delay. rewrite On, Ed.
    assert (E : heap (set_param d (set_delayTime (0.05 + wet_delay wet * 0.45))
                        (write_filter fxState wet n (write_gate fxState wet n a))) !! d
                = Some (DelayNode (0.05 + wet_delay wet * 0.45))).
    { rewrite heap_set_param_eq, write_filter_other, write_gate_other;
        try (eapply field_differs; [| | |exact Ed]; eauto; discriminate).
      destruct (kind_at_inv _ _ _ (Hd d Ed)) as (x & -> & Hk).
      destruct x as [| | | [b|] | | | |]; cbn in Hk; try discriminate. reflexivity. }
    assert (Hne : forall fb, n_delayFeedback n = Some fb -> fb <> d).
    { intros fb Efb <-. pose proof (Hd _ Ed). pose proof (Hfb _ Efb). congruence. }
    destruct (n_delayFeedback n) as [fb|]; [|exact E].
    rewrite heap_set_param_ne; [exact E | now apply Hne].
  - intros On [d Ed] fb Efb. unfold write_delay. rewrite On, Ed, Efb.
    rewrite heap_set_param_eq, heap_set_param_ne.
    2:{ intros <-. pose proof (Hd _ Ed). pose proof (Hfb _ Efb). congruence. }
    rewrite write_filter_other, write_gate_other;
      try (eapply field_differs; [| | |exact Efb]; eauto; discriminate).
    destruct (kind_at_inv _ _ _ (Hfb fb Efb)) as (x & -> & Hk).
    destruct x as [| | | [b|] | | | |]; cbn in Hk; try discriminate. reflexivity.
Qed.

(** With the parameters already there, [build_chain] writes nothing new. *)
Lemma build_chain_fixed (fxState : FxFlags) (wet : FxWet) (n : DeckNodes) (a : Audio) :
  params_set fxState wet n a -> fst (build_chain fxState wet n a) = a.
Proof.
  intros (Pg & Pf & Pd & Pfb). rewrite build_chain_writes.
  assert (E1 : write_gate fxState wet n a = a).
  { unfold write_gate. destruct (fx_gate fxState); [|reflexivity].
    destruct (n_gate n) as [g|]; [|reflexivity].
    apply set_param_id. intros x Hx.
    destruct (Pg eq_refl g eq_refl) as (r & at' & rel & E). rewrite E in Hx.
    injection Hx as <-. reflexivity. }
  assert (E2 : write_filter fxState wet n a = a).
  { unfold write_filter. destruct (fx_filter fxState); [|reflexivity].
    destruct (n_filter n) as [f|]; [|reflexivity].
    apply set_param_id. intros x Hx.
    destruct (Pf eq_refl f eq_refl) as (q & gn & E). rewrite E in Hx.
    injection Hx as <-. reflexivity. }
  rewrite E1, E2. unfold write_delay.
  destruct (fx_delay fxState); [|reflexivity].
  destruct (n_delay n) as [d|] eqn:Ed; [|reflexivity].
  rewrite (set_param_id d).
  2:{ intros x Hx. rewrite (Pd eq_refl d eq_refl) in Hx. injection Hx as <-. reflexivity. }
  destruct (n_delayFeedback n) as [fb|]; [|reflexivity].
  apply set_param_id. intros x Hx.
  rewrite (Pfb eq_refl (ex_intro _ d eq_refl) fb eq_refl) in Hx.
  injection Hx as <-. reflexivity.
Qed.

(** ** [ensureNodes], [applyFilters] and [setEQ] on the application *)

Lemma app_ok_deck (s : App) : app_ok s <-> forall deck, nodes_ok (audio s) (nodes (getDeck deck s)).
Proof.
  split.
  - intros [HA HB] []; assumption.
  - intros H. split; [apply (H DeckA) | apply (H DeckB)].
Qed.

(** The state after the body of a handler that worked on one deck: a new
    store, and a new node set and transport for that deck. *)
Lemma app_ok_set_deck (deck : DeckId) (s : App) (a : Audio) (d : Deck) :
  app_ok s -> extends (audio s) a -> nodes_ok a (nodes d) ->
  app_ok (set_deck deck d (set_audio a s)).
Proof.
  intros Hs He Hd. apply app_ok_deck. intros deck'.
  replace (audio (set_deck deck d (set_audio a s))) with a by (destruct deck; reflexivity).
  destruct (decide (deck = deck')) as [<- | Hne].
  - now rewrite getDeck_set_deck_eq.
  - rewrite getDeck_set_deck_ne, getDeck_set_audio by exact Hne.
    eapply nodes_ok_extends; [exact He|]. now apply app_ok_deck.
Qed.

Lemma advance_set_deck (deck : DeckId) (s : App) (a : Audio) (d : Deck) :
  extends (audio s) a -> nodes_le (nodes (getDeck deck s)) (nodes d) ->
  advance s (set_deck deck d (set_audio a s)).
Proof.
  intros He Hl. split; [destruct deck; exact He|]. intros deck'.
  destruct (decide (deck = deck')) as [<- | Hne].
  - now rewrite getDeck_set_deck_eq.
  - rewrite getDeck_set_deck_ne, getDeck_set_audio by exact Hne. apply nodes_le_refl.
Qed.

Lemma ensureNodes_eq (deck : DeckId) (w : WaveSurfer) (s : App) (ac : AudioContext) :
  backend_ac w = Some ac ->
  ensureNodes deck w s =
  (let an := ensure_all (set_audioCtxRef (Some ac) (audio s), nodes (getDeck deck s)) in
   (set_deck deck (set_nodes (snd an) (getDeck deck s)) (set_audio (fst an) s), true)).
Proof.
  intros H. unfold ensureNodes, ensure_all. rewrite H.
  destruct (ensure_gate _) as [a n]. reflexivity.
Qed.

Lemma ensureNodes_null (deck : DeckId) (w : WaveSurfer) (s : App) :
  backend_ac w = None -> ensureNodes deck w s = (s, false).
Proof. intros H. unfold ensureNodes. now rewrite H. Qed.

(** What [ensure_all] does from a state of the application. *)
Lemma ensure_all_app (deck : DeckId) (s : App) (c : option AudioContext) :
  app_ok s ->
  let an := ensure_all (set_audioCtxRef c (audio s), nodes (getDeck deck s)) in
  nodes_ok (fst an) (snd an) /\
  extends (audio s) (fst an) /\
  nodes_le (nodes (getDeck deck s)) (snd an) /\
  audioCtxRef (fst an) = c /\
  n_eq (snd an) = n_eq (nodes (getDeck deck s)) /\
  complete (snd an).
Proof.
  intros Hs. cbn zeta.
  assert (H0 : nodes_ok (set_audioCtxRef c (audio s)) (nodes (getDeck deck s))).
  { eapply nodes_ok_extends; [apply extends_set_audioCtxRef|]. now apply app_ok_deck. }
  destruct (ensure_all_grows (set_audioCtxRef c (audio s), nodes (getDeck deck s)))
    as [G C].
  destruct (G H0) as (H1 & E1 & L1 & C1 & Q1 & _).
  split; [exact H1|].
  split; [eapply extends_trans; [apply (extends_set_audioCtxRef c)| exact E1]|].
  split; [exact L1|]. split; [exact C1|]. split; [exact Q1|]. now apply C.
Qed.

(** [ensureNodes] keeps the application well-formed and every handle in place. *)
Lemma ensureNodes_advance (deck : DeckId) (w : WaveSurfer) (s : App) :
  app_ok s ->
  app_ok (fst (ensureNodes deck w s)) /\ advance s (fst (ensureNodes deck w s)).
Proof.
  intros Hs. destruct (backend_ac w) as [ac|] eqn:Eac.
  - rewrite (ensureNodes_eq deck w s ac Eac). cbn zeta. cbn [fst].
    destruct (ensure_all_app deck s (Some ac) Hs) as (H1 & E1 & L1 & _).
    split.
    + apply app_ok_set_deck; assumption.
    + apply advance_set_deck; assumption.
  - rewrite (ensureNodes_null deck w s Eac). split; [exact Hs | apply advance_refl].
Qed.

Lemma applyFilters_in_eq (fxState : FxFlags) (wet : FxWet) (deck : DeckId) (s : App)
    (w : WaveSurfer) (ac : AudioContext) :
  wave (getDeck deck s) = Some w -> backend_ac w = Some ac ->
  applyFilters_in fxState wet deck s =
  (let an := ensure_all (set_audioCtxRef (Some ac) (audio s), nodes (getDeck deck s)) in
   let bc := build_chain fxState wet (snd an) (fst an) in
   set_deck deck
     (set_wave (Some (setFilters (snd bc) w)) (set_nodes (snd an) (getDeck deck s)))
     (set_audio (fst bc) s)).
Proof.
  intros Hw Hac. unfold applyFilters_in. rewrite Hw, (ensureNodes_eq deck w s ac Hac).
  cbn zeta. destruct (ensure_all _) as [a n]. cbn [fst snd].
  rewrite getDeck_set_deck_eq. cbn [nodes set_nodes].
  replace (audio (set_deck deck (set_nodes n (getDeck deck s)) (set_audio a s)))
    with a by (destruct deck; reflexivity).
  destruct (build_chain fxState wet n a) as [a' chain]. cbn [fst snd].
  destruct deck; reflexivity.
Qed.

Lemma applyFilters_in_idle (fxState : FxFlags) (wet : FxWet) (deck : DeckId) (s : App) :
  (forall w, wave (getDeck deck s) = Some w -> backend_ac w = None) ->
  applyFilters_in fxState wet deck s = s.
Proof.
  intros H. unfold applyFilters_in. destruct (wave (getDeck deck s)) as [w|]; [|reflexivity].
  now rewrite (ensureNodes_null deck w s (H w eq_refl)).
Qed.

(** The whole of [applyFilters] on a deck with a transport and a context. *)
Lemma applyFilters_in_facts (fxState : FxFlags) (wet : FxWet) (deck : DeckId) (s : App)
    (w : WaveSurfer) (ac : AudioContext) :
  app_ok s -> wave (getDeck deck s) = Some w -> backend_ac w = Some ac ->
  let s' := applyFilters_in fxState wet deck s in
  let n' := nodes (getDeck deck s') in
  app_ok s' /\ advance s s' /\
  complete n' /\
  n_eq n' = n_eq (nodes (getDeck deck s)) /\
  wave (getDeck deck s') = Some (setFilters (chain_of fxState n') w) /\
  params_set fxState wet n' (audio s') /\
  audioCtxRef (audio s') = Some ac.
Proof.
  intros Hs Hw Hac. cbn zeta. rewrite (applyFilters_in_eq _ _ _ _ w ac Hw Hac). cbn zeta.
  destruct (ensure_all_app deck s (Some ac) Hs) as (H1 & E1 & L1 & C1 & Q1 & K1).
  destruct (ensure_all _) as [a n]. cbn [fst snd] in *.
  pose proof (build_chain_extends fxState wet n a) as E2.
  pose proof (build_chain_chain fxState wet n a H1) as Ech.
  pose proof (build_chain_params fxState wet n a H1) as Hpar.
  destruct (build_chain_store fxState wet n a) as (_ & C2 & _).
  destruct (build_chain fxState wet n a) as [a' chain]. cbn [fst snd] in *.
  rewrite getDeck_set_deck_eq. cbn [nodes wave set_wave set_nodes].
  assert (E : extends (audio s) a') by (eapply extends_trans; eassumption).
  split.
  { apply app_ok_set_deck; [exact Hs | exact E |].
    cbn [nodes set_wave set_nodes]. exact (nodes_ok_extends _ _ _ E2 H1). }
  split; [apply advance_set_deck; assumption|].
  split; [exact K1|]. split; [exact Q1|]. split; [now rewrite Ech|].
  split; [destruct deck; exact Hpar|].
  destruct deck; cbn; congruence.
Qed.

(** [applyFilters] keeps the application well-formed and every handle in
    place, whatever the deck has. *)
Lemma applyFilters_in_advance (fxState : FxFlags) (wet : FxWet) (deck : DeckId) (s : App) :
  app_ok s ->
  app_ok (applyFilters_in fxState wet deck s) /\ advance s (applyFilters_in fxState wet deck s).
Proof.
  intros Hs. destruct (wave (getDeck deck s)) as [w|] eqn:Hw.
  - destruct (backend_ac w) as [ac|] eqn:Hac.
    + destruct (applyFilters_in_facts fxState wet deck s w ac Hs Hw Hac) as (H1 & H2 & _).
      now split.
    + rewrite applyFilters_in_idle; [split; [exact Hs | apply advance_refl]|].
      intros w' E. congruence.
  - rewrite applyFilters_in_idle; [split; [exact Hs | apply advance_refl]|].
    intros w' E. congruence.
Qed.

Lemma ensureNodes_facts (deck : DeckId) (w : WaveSurfer) (s : App) (ac : AudioContext) :
  app_ok s -> backend_ac w = Some ac ->
  exists s1,
    ensureNodes deck w s = (s1, true) /\
    app_ok s1 /\ advance s s1 /\
    complete (nodes (getDeck deck s1)) /\
    n_eq (nodes (getDeck deck s1)) = n_eq (nodes (getDeck deck s)) /\
    audioCtxRef (audio s1) = Some ac /\
    getDeck deck s1 = set_nodes (nodes (getDeck deck s1)) (getDeck deck s).
Proof.
  intros Hs Hac. rewrite (ensureNodes_eq deck w s ac Hac). cbn zeta.
  destruct (ensure_all_app deck s (Some ac) Hs) as (H1 & E1 & L1 & C1 & Q1 & K1).
  destruct (ensure_all _) as [a n]. cbn [fst snd] in *.
  eexists. split; [reflexivity|].
  rewrite getDeck_set_deck_eq. cbn [nodes set_nodes].
  split; [now apply app_ok_set_deck|]. split; [now apply advance_set_deck|].
  split; [exact K1|]. split; [exact Q1|].
  split; [destruct deck; exact C1 | reflexivity].
Qed.

Lemma quiet_set_audio (a : Audio) (s : App) : extends (audio s) a -> quiet s (set_audio a s).
Proof. intros H. split; [exact H | intros []; reflexivity]. Qed.

Lemma eq_lookup_app_l (t : BiquadFilterType) (l k : list (BiquadFilterType * handle))
    (h : handle) :
  eq_lookup t l = Some h -> eq_lookup t (l ++ k) = Some h.
Proof.
  induction l as [| [t' h'] l IH]; cbn; [discriminate|].
  destruct (decide (t = t')); [trivial | exact IH].
Qed.

Lemma nodes_le_add_eq (n : DeckNodes) (k : list (BiquadFilterType * handle)) :
  nodes_le n (set_n_eq (n_eq n ++ k) n).
Proof. destruct n; split; cbn; auto. now apply prefix_app_r. Qed.

(** [setEQ] on a deck with a transport and a context: the application
    stays well-formed, every handle stays in place, and the EQ stage of
    [type] is the one the deck had, or else a new one put last. *)
Lemma setEQ_facts (deck : DeckId) (type : BiquadFilterType) (value : number) (s : App)
    (w : WaveSurfer) (ac : AudioContext) :
  app_ok s -> wave (getDeck deck s) = Some w -> backend_ac w = Some ac ->
  let s' := setEQ deck type value s in
  let l := n_eq (nodes (getDeck deck s)) in
  let n' := nodes (getDeck deck s') in
  app_ok s' /\ advance s s' /\
  (forall h, eq_lookup type l = Some h -> n_eq n' = l) /\
  (eq_lookup type l = None ->
     exists h, (h ∉ (snd <$> l)) /\ (n_eq n' = l ++ [(type, h)])) /\
  wave (getDeck deck s') = Some (setFilters (chain_of (fx (getDeck deck s)) n') w).
Proof.
  intros Hs Hw Hac. cbn zeta. unfold setEQ. rewrite Hw.
  destruct (ensureNodes_facts deck w s ac Hs Hac) as (s1 & -> & H1 & A1 & K1 & Q1 & C1 & D1).
  assert (Hw1 : wave (getDeck deck s1) = Some w) by (rewrite D1; exact Hw).
  assert (Hfx1 : fx (getDeck deck s1) = fx (getDeck deck s)) by (rewrite D1; reflexivity).
  destruct (eq_lookup type (n_eq (nodes (getDeck deck s1)))) as [h|] eqn:El; rewrite Q1 in El.
  - set (s2 := set_audio (set_param h (set_gain value) (audio s1)) s1).
    assert (Q2 : quiet s1 s2) by (apply quiet_set_audio; auto).
    pose proof (quiet_ok _ _ Q2 H1) as H2.
    assert (Hw2 : wave (getDeck deck s2) = Some w)
      by (subst s2; rewrite getDeck_set_audio; exact Hw1).
    destruct (applyFilters_in_facts (fx (getDeck deck s2)) (wet (getDeck deck s2))
                deck s2 w ac H2 Hw2 Hac) as (H3 & A3 & _ & Q3 & W3 & _).
    fold (applyFilters deck s2) in *.
    assert (Qe : n_eq (nodes (getDeck deck (applyFilters deck s2)))
                 = n_eq (nodes (getDeck deck s))).
    { rewrite Q3. subst s2. now rewrite getDeck_set_audio. }
    split; [exact H3|]. split.
    { eapply advance_trans; [exact A1|].
      eapply advance_trans; [apply quiet_advance; exact Q2 | exact A3]. }
    split; [intros _ _; exact Qe|]. split; [intros E; rewrite E in El; discriminate|].
    rewrite W3. subst s2. rewrite getDeck_set_audio, Hfx1. reflexivity.
  - unfold createEQFilter. rewrite C1.
    set (x := BiquadFilterNode type
                match type with lowshelf => 150 | highshelf => 6000 | _ => 1000 end 1 0).
    cbn [alloc].
    set (a := {| audioCtxRef := audioCtxRef (audio s1);
                 heap := <[next (audio s1) := x]> (heap (audio s1));
                 edges := edges (audio s1); next := S (next (audio s1)) |}).
    set (n1 := nodes (getDeck deck s1)) in *.
    set (n2 := set_n_eq (n_eq n1 ++ [(type, next (audio s1))]) n1).
    set (s2 := set_deck deck (set_nodes n2 (getDeck deck s1)) (set_audio a s1)).
    assert (Ea : extends (audio s1) a) by apply (extends_alloc x).
    assert (Hn1 : nodes_ok (audio s1) n1) by now apply app_ok_deck.
    assert (Hn2 : nodes_ok a n2).
    { apply nodes_ok_add_eq.
      - exact (nodes_ok_extends _ _ _ Ea Hn1).
      - pose proof (next_not_in_handles _ _ 0 Hn1) as Hn. now rewrite Nat.add_0_r in Hn.
      - cbn. lia.
      - apply (kind_at_alloc x). }
    assert (H2 : app_ok s2) by (apply app_ok_set_deck; assumption).
    assert (A2 : advance s1 s2).
    { apply advance_set_deck; [exact Ea|]. cbn [nodes set_nodes].
      subst n2. apply nodes_le_add_eq. }
    set (s3 := set_audio (set_param (next (audio s1)) (set_gain value) (audio s2)) s2).
    assert (Q3 : quiet s2 s3) by (apply quiet_set_audio; auto).
    pose proof (quiet_ok _ _ Q3 H2) as H3.
    assert (D3 : getDeck deck s3 = set_nodes n2 (getDeck deck s1)).
    { subst s3 s2. now rewrite getDeck_set_audio, getDeck_set_deck_eq. }
    assert (Hw3 : wave (getDeck deck s3) = Some w) by (rewrite D3; exact Hw1).
    destruct (applyFilters_in_facts (fx (getDeck deck s3)) (wet (getDeck deck s3))
                deck s3 w ac H3 Hw3 Hac) as (H4 & A4 & _ & Q4 & W4 & _).
    fold (applyFilters deck s3) in *.
    split; [exact H4|]. split.
    { eapply advance_trans; [exact A1|]. eapply advance_trans; [exact A2|].
      eapply advance_trans; [apply quiet_advance; exact Q3 | exact A4]. }
    split; [intros h' E; rewrite E in El; discriminate|]. split.
    + intros _. exists (next (audio s1)). split.
      * intros Hin.
        apply (next_not_in_handles _ _ 0 Hn1). rewrite Nat.add_0_r.
        apply elem_of_handles. right. left. subst n1. now rewrite Q1.
      * rewrite Q4, D3. cbn [nodes set_nodes]. subst n2. cbn [n_eq set_n_eq].
        subst n1. now rewrite Q1.
    + rewrite W4, D3. cbn [fx set_nodes]. now rewrite Hfx1.
Qed.

(** ** Every event keeps the graph well-formed and the handles in place *)

Lemma setEQ_advance (deck : DeckId) (type : BiquadFilterType) (value : number) (s : App) :
  app_ok s -> app_ok (setEQ deck type value s) /\ advance s (setEQ deck type value s).
Proof.
  intros Hs. destruct (wave (getDeck deck s)) as [w|] eqn:Hw.
  - destruct (backend_ac w) as [ac|] eqn:Hac.
    + destruct (setEQ_facts deck type value s w ac Hs Hw Hac) as (H1 & H2 & _). now split.
    + unfold setEQ. rewrite Hw, (ensureNodes_null deck w s Hac).
      split; [exact Hs | apply advance_refl].
  - unfold setEQ. rewrite Hw. split; [exact Hs | apply advance_refl].
Qed.

Lemma quiet_set_deck (deck : DeckId) (d : Deck) (s : App) :
  nodes d = nodes (getDeck deck s) -> quiet s (set_deck deck d s).
Proof.
  intros H. split; [destruct deck; apply extends_refl|]. intros deck'.
  destruct (decide (deck = deck')) as [<- | Hne].
  - now rewrite getDeck_set_deck_eq.
  - now rewrite getDeck_set_deck_ne.
Qed.

Lemma quiet_playClick (s : App) : quiet s (playClick s).
Proof.
  split; [|intros deck; now rewrite playClick_getDeck].
  unfold playClick. destruct (audioCtxRef (audio s)) as [ac|]; cbn.
  - split; [cbn; lia|]. intros h Hh. unfold kind_at. cbn.
    now rewrite !lookup_insert_ne by lia.
  - split; [cbn; lia|]. intros h Hh. unfold kind_at. cbn.
    now rewrite !lookup_insert_ne by lia.
Qed.

Lemma quiet_toggleFx (deck : DeckId) (key : FxKey) (s : App) : quiet s (toggleFx deck key s).
Proof. unfold toggleFx. now apply quiet_set_deck. Qed.

Lemma quiet_setWet (deck : DeckId) (key : FxKey) (value : number) (s : App) :
  quiet s (setWet deck key value s).
Proof. unfold setWet. now apply quiet_set_deck. Qed.

Lemma quiet_togglePlay_in (bpm : option number) (beatSnap : bool) (deck : DeckId) (s : App) :
  quiet s (togglePlay_in bpm beatSnap deck s).
Proof.
  unfold togglePlay_in. destruct (wave (getDeck deck s)) as [w|]; [|apply quiet_refl].
  eapply quiet_trans; [|apply quiet_playClick]. now apply quiet_set_deck.
Qed.

Lemma quiet_setTempo (deck : DeckId) (value : number) (s : App) :
  quiet s (setTempo deck value s).
Proof.
  unfold setTempo. destruct (wave (getDeck deck s)) as [w|]; [|apply quiet_refl].
  now apply quiet_set_deck.
Qed.

Lemma quiet_syncTempo (deck : DeckId) (s : App) : quiet s (syncTempo deck s).
Proof.
  unfold syncTempo.
  destruct (match deck with DeckA => bpmB s | DeckB => bpmA s end) as [x|];
    [|apply quiet_refl].
  destruct (match deck with DeckA => bpmA s | DeckB => bpmB s end) as [y|];
    [|apply quiet_refl].
  destruct (falsy x || falsy y); [apply quiet_refl|].
  eapply quiet_trans; [apply quiet_setTempo | apply quiet_playClick].
Qed.

Lemma quiet_setBpm (deck : DeckId) (b : option number) (s : App) : quiet s (setBpm deck b s).
Proof. unfold setBpm. now apply quiet_set_deck. Qed.

Lemma quiet_setLastTap (t : number) (s : App) : quiet s (setLastTap t s).
Proof. split; [apply extends_refl | intros []; reflexivity]. Qed.

Lemma quiet_tapTempo (deck : DeckId) (now : number) (s : App) : quiet s (tapTempo deck now s).
Proof.
  unfold tapTempo. destruct (falsy (lastTap s)); [apply quiet_setLastTap|]. cbn zeta.
  destruct (_ || _); [apply quiet_setLastTap|].
  eapply quiet_trans; [apply quiet_setLastTap|].
  eapply quiet_trans; [apply quiet_setBpm | apply quiet_playClick].
Qed.

Lemma quiet_analyzeTrack (deck : DeckId) (result : Analysis) (s : App) :
  quiet s (analyzeTrack deck result s).
Proof.
  unfold analyzeTrack.
  assert (Q : forall c a, extends (audio s) a ->
              quiet s (set_audio (set_audioCtxRef c a) s)).
  { intros c a Ha. apply quiet_set_audio.
    eapply extends_trans; [exact Ha | apply extends_set_audioCtxRef]. }
  destruct (audioCtxRef (audio s)) as [ac|]; cbn zeta.
  - destruct result; try (eapply quiet_trans; [|apply quiet_setBpm]);
      apply Q, extends_refl.
  - destruct result; try (eapply quiet_trans; [|apply quiet_setBpm]);
      apply Q, extends_new_AudioContext.
Qed.

Lemma quiet_set_rec (r : Recording) (s : App) : quiet s (set_rec r s).
Proof. split; [apply extends_refl | intros []; reflexivity]. Qed.

Lemma quiet_toggleRecord_in (seen connect_ok : bool) (s : App) :
  quiet s (toggleRecord_in seen connect_ok s).
Proof.
  unfold toggleRecord_in.
  destruct (match match waveARef s with Some w => backend_ac w | None => None end with
            | Some ac => Some ac
            | None => audioCtxRef (audio s)
            end) as [ac|]; [|apply quiet_refl].
  destruct seen.
  - eapply quiet_trans; [apply quiet_set_rec | apply quiet_playClick].
  - cbn [alloc]. cbn zeta.
    set (s1 := set_audio _ s).
    assert (Q1 : quiet s s1)
      by (apply quiet_set_audio; apply (extends_alloc MediaStreamAudioDestinationNode)).
    destruct connect_ok; cbn [negb]; [|exact Q1].
    eapply quiet_trans; [exact Q1|].
    eapply quiet_trans; [apply quiet_set_audio; apply extends_connect|].
    eapply quiet_trans; [apply quiet_set_rec | apply quiet_playClick].
Qed.

Lemma quiet_perform (seen : App) (connect_ok : bool) (c : Action) (s : App) :
  quiet s (perform seen connect_ok c s).
Proof.
  destruct c; cbn [perform].
  - apply quiet_togglePlay_in.
  - apply quiet_toggleFx.
  - apply quiet_toggleRecord_in.
  - split; [apply extends_refl | intros []; reflexivity].
  - split; [apply extends_refl | intros []; reflexivity].
Qed.

Lemma quiet_dispatch (seen : App) (connect_ok : bool) (cs : list Action) (s : App) :
  quiet s (dispatch (perform seen connect_ok) cs s).
Proof.
  unfold dispatch. revert s. induction cs as [| c cs IH]; intros s; [apply quiet_refl|].
  cbn [foldl]. eapply quiet_trans; [apply quiet_perform | apply IH].
Qed.

Lemma attachAnalyser_advance (deck : DeckId) (w : WaveSurfer) (s : App) :
  app_ok s -> app_ok (attachAnalyser deck w s) /\ advance s (attachAnalyser deck w s).
Proof.
  intros Hs. unfold attachAnalyser.
  destruct (backend_ac w); [|split; [exact Hs | apply advance_refl]].
  destruct (n_analyser (nodes (getDeck deck s))) eqn:E;
    [split; [exact Hs | apply advance_refl]|].
  cbn [alloc]. cbn zeta.
  assert (Hn : nodes_ok (audio s) (nodes (getDeck deck s))) by now apply app_ok_deck.
  pose proof (extends_alloc (AnalyserNode 256) (audio s)) as Ea. cbn [alloc snd] in Ea.
  split.
  - apply app_ok_set_deck; [exact Hs | exact Ea |]. cbn [nodes set_nodes].
    apply nodes_ok_add_analyser.
    + exact (nodes_ok_extends _ _ _ Ea Hn).
    + exact E.
    + pose proof (next_not_in_handles _ _ 0 Hn) as Hni. now rewrite Nat.add_0_r in Hni.
    + cbn. lia.
    + apply (kind_at_alloc (AnalyserNode 256)).
  - apply advance_set_deck; [exact Ea|]. cbn [nodes set_nodes].
    destruct (nodes (getDeck deck s)); split; cbn in *; auto; congruence.
Qed.

(** A pair of facts about a handler, chained. *)
Lemma advance_then (s s1 s2 : App) :
  app_ok s1 /\ advance s s1 ->
  (app_ok s1 -> app_ok s2 /\ advance s1 s2) ->
  app_ok s2 /\ advance s s2.
Proof.
  intros [H1 A1] H. destruct (H H1) as [H2 A2].
  split; [exact H2 | eapply advance_trans; eassumption].
Qed.

Lemma quiet_then (s s1 : App) :
  app_ok s -> quiet s s1 -> app_ok s1 /\ advance s s1.
Proof. intros Hs Q. split; [eapply quiet_ok; eassumption | now apply quiet_advance]. Qed.

Lemma fx_effect_advance (s : App) : app_ok s -> app_ok (fx_effect s) /\ advance s (fx_effect s).
Proof.
  intros Hs. unfold fx_effect, applyFilters.
  eapply advance_then; [apply applyFilters_in_advance; exact Hs|].
  intros H1. apply applyFilters_in_advance; exact H1.
Qed.

Lemma step_advance (e : Event) (s : App) :
  app_ok s -> app_ok (step e s) /\ advance s (step e s).
Proof.
  intros Hs. destruct e; cbn [step].
  - eapply advance_then; [|apply fx_effect_advance].
    apply quiet_then; [exact Hs|].
    eapply quiet_trans; now apply quiet_set_deck.
  - destruct (wave (getDeck deck s)) as [w|]; [|split; [exact Hs | apply advance_refl]].
    cbn zeta.
    eapply advance_then; [|intros H; apply attachAnalyser_advance; exact H].
    eapply advance_then; [|intros H; apply applyFilters_in_advance; exact H].
    apply quiet_then; [exact Hs | now apply quiet_set_deck].
  - destruct (wave (getDeck deck s)) as [w|]; [|split; [exact Hs | apply advance_refl]].
    apply quiet_then; [exact Hs | now apply quiet_set_deck].
  - apply quiet_then; [exact Hs | apply quiet_togglePlay_in].
  - now apply setEQ_advance.
  - eapply advance_then; [|apply fx_effect_advance].
    apply quiet_then; [exact Hs | apply quiet_toggleFx].
  - eapply advance_then; [|apply fx_effect_advance].
    apply quiet_then; [exact Hs | apply quiet_setWet].
  - now apply applyFilters_in_advance.
  - apply quiet_then; [exact Hs | apply quiet_analyzeTrack].
  - apply quiet_then; [exact Hs | apply quiet_setTempo].
  - apply quiet_then; [exact Hs | apply quiet_syncTempo].
  - apply quiet_then; [exact Hs | apply quiet_tapTempo].
  - apply quiet_then; [exact Hs | apply quiet_toggleRecord_in].
  - apply quiet_then; [exact Hs|]. unfold ondataavailable.
    destruct (0 <? size data)%Z; [apply quiet_set_rec | apply quiet_refl].
  - apply quiet_then; [exact Hs | apply quiet_set_rec].
  - apply quiet_then; [exact Hs|]. split; [apply extends_refl | intros []; reflexivity].
  - apply quiet_then; [exact Hs|]. split; [apply extends_refl | intros []; reflexivity].
  - cbn zeta.
    assert (H1 : app_ok (dispatch (perform seen connect_ok) (onmidimessage (midiMap seen) data) s)
                 /\ advance s (dispatch (perform seen connect_ok)
                                 (onmidimessage (midiMap seen) data) s))
      by (apply quiet_then; [exact Hs | apply quiet_dispatch]).
    destruct (existsb is_toggleFx _); [|exact H1].
    eapply advance_then; [exact H1 | apply fx_effect_advance].
Qed.

Lemma initial_ok : app_ok initial.
Proof.
  assert (H : nodes_ok (audio initial) empty_nodes).
  { split; cbn; try discriminate; try constructor; tauto. }
  split; exact H.
Qed.

Lemma run_snoc (evs : list Event) (e : Event) (s : App) :
  run (evs ++ [e]) s = step e (run evs s).
Proof. unfold run. now rewrite foldl_app. Qed.

Lemma run_app_later (evs later : list Event) (s : App) :
  run (evs ++ later) s = run later (run evs s).
Proof. unfold run. now rewrite foldl_app. Qed.

(** From a well-formed state every history leads to a well-formed state
    that holds all the handles of the first. *)
Lemma run_advance (evs : list Event) (s : App) :
  app_ok s -> app_ok (run evs s) /\ advance s (run evs s).
Proof.
  revert s. induction evs as [| e evs IH]; intros s Hs.
  - split; [exact Hs | apply advance_refl].
  - change (run (e :: evs) s) with (run evs (step e s)).
    eapply advance_then; [apply step_advance; exact Hs | apply IH].
Qed.

Lemma reachable_ok (evs : list Event) : app_ok (run evs initial).
Proof. apply run_advance, initial_ok. Qed.

(** ** The chain has no stage twice *)

Lemma stage_sublist (on : bool) (h : option handle) : stage on h `sublist_of` option_list h.
Proof. destruct on; cbn; [reflexivity | apply sublist_nil_l]. Qed.

Lemma chain_of_sublist (fxState : FxFlags) (n : DeckNodes) :
  chain_of fxState n `sublist_of` handles n.
Proof.
  unfold chain_of, handles.
  repeat (apply sublist_app; [first [apply stage_sublist | reflexivity]|]).
  rewrite <- (app_nil_r (stage _ _)).
  apply sublist_app; [apply stage_sublist | apply sublist_nil_l].
Qed.

Lemma chain_of_NoDup (fxState : FxFlags) (a : Audio) (n : DeckNodes) :
  nodes_ok a n -> NoDup (chain_of fxState n).
Proof.
  intros H. eapply sublist_NoDup; [apply (ok_nodup _ _ H) | apply chain_of_sublist].
Qed.

Lemma chain_of_complete (fxState : FxFlags) (n : DeckNodes) (g f d r : handle) :
  n_gate n = Some g -> n_filter n = Some f -> n_delay n = Some d -> n_reverb n = Some r ->
  chain_of fxState n =
  (if fx_gate fxState then [g] else []) ++ (snd <$> n_eq n) ++
  (if fx_filter fxState then [f] else []) ++ (if fx_delay fxState then [d] else []) ++
  (if fx_reverb fxState then [r] else []).
Proof. intros Eg Ef Ed Er. unfold chain_of, stage. now rewrite Eg, Ef, Ed, Er. Qed.

(** ** [applyFilters] once more changes nothing *)

Lemma set_audioCtxRef_id (c : option AudioContext) (a : Audio) :
  audioCtxRef a = c -> set_audioCtxRef c a = a.
Proof. intros <-. now destruct a. Qed.

Lemma applyFilters_in_idem (fxState : FxFlags) (wet : FxWet) (deck : DeckId) (s : App) :
  app_ok s ->
  let s1 := applyFilters_in fxState wet deck s in
  applyFilters_in fxState wet deck s1 = s1.
Proof.
  intros Hs. cbn zeta.
  destruct (wave (getDeck deck s)) as [w|] eqn:Hw.
  2:{ assert (E0 : applyFilters_in fxState wet deck s = s)
        by (apply applyFilters_in_idle; intros w' E; congruence).
      rewrite E0. exact E0. }
  destruct (backend_ac w) as [ac|] eqn:Hac.
  2:{ assert (E0 : applyFilters_in fxState wet deck s = s)
        by (apply applyFilters_in_idle; intros w' E; congruence).
      rewrite E0. exact E0. }
  destruct (applyFilters_in_facts fxState wet deck s w ac Hs Hw Hac)
    as (H1 & _ & K1 & _ & W1 & P1 & C1).
  set (s1 := applyFilters_in fxState wet deck s) in *.
  set (n1 := nodes (getDeck deck s1)) in *.
  assert (Hn1 : nodes_ok (audio s1) n1) by now apply app_ok_deck.
  rewrite (applyFilters_in_eq fxState wet deck s1 _ ac W1 Hac). cbn zeta.
  rewrite (set_audioCtxRef_id _ _ C1). fold n1.
  rewrite (ensure_all_complete _ _ K1). cbn [fst snd].
  rewrite (build_chain_fixed _ _ _ _ P1), (build_chain_chain _ _ _ _ Hn1).
  assert (Ed : set_wave (Some (setFilters (chain_of fxState n1)
                                 (setFilters (chain_of fxState n1) w)))
                 (set_nodes n1 (getDeck deck s1)) = getDeck deck s1).
  { subst n1. destruct (getDeck deck s1) as [w1 nn b t f we]. cbn in *. now rewrite W1. }
  rewrite Ed. destruct deck, s1; reflexivity.
Qed.

(** Every handle a well-formed node set holds is an object of the store. *)
Lemma handles_kinded (a : Audio) (n : DeckNodes) (h : handle) :
  nodes_ok a n -> h ∈ handles n -> is_Some (kind_at a h).
Proof.
  intros [_ _ Hg Hf Hd Hfb Hr Han He _] Hin.
  apply elem_of_handles in Hin as [E | [E | [E | [E | [E | [E | E]]]]]]; eauto.
  apply list_elem_of_fmap in E as ([t h'] & -> & Hin).
  rewrite Forall_forall in He. specialize (He _ Hin). cbn in *. eauto.
Qed.

Lemma nodes_le_eq_lookup (n n' : DeckNodes) (t : BiquadFilterType) (h : handle) :
  nodes_le n n' -> eq_lookup t (n_eq n) = Some h -> eq_lookup t (n_eq n') = Some h.
Proof.
  intros [[k Hk] _ _ _ _ _ _] E. rewrite Hk. now apply eq_lookup_app_l.
Qed.

(** X26. A handle a deck holds after some history (the resonant filter,
    the delay, its feedback gain, the reverb, the gate, the analyser, an EQ
    stage) is an object of the store, and after any further history, as
    after any single call of [ensureNodes], [applyFilters] or [setEQ], the
    deck holds the same handle in the same place and the object has its
    kind: only parameters change. A second call of [applyFilters] that
    reads the same flags and wet amounts as the first leaves the whole
    state as the first call made it, and the chain it realizes has no stage
    twice. *)
Theorem handles_never_recreated (evs later : list Event) (deck : DeckId) :
  let s := run evs initial in
  let s' := run later s in
  let n := nodes (getDeck deck s) in
  nodes_le n (nodes (getDeck deck s')) /\
  (forall h, h ∈ handles n ->
     is_Some (kind_at (audio s) h) /\ kind_at (audio s') h = kind_at (audio s) h) /\
  (forall type h, eq_lookup type (n_eq n) = Some h ->
     eq_lookup type (n_eq (nodes (getDeck deck s'))) = Some h) /\
  (forall w, nodes_le n (nodes (getDeck deck (fst (ensureNodes deck w s))))) /\
  (forall fxState wet, nodes_le n (nodes (getDeck deck (applyFilters_in fxState wet deck s)))) /\
  (forall type value, nodes_le n (nodes (getDeck deck (setEQ deck type value s)))) /\
  (forall fxState wet,
     let s1 := applyFilters_in fxState wet deck s in
     applyFilters_in fxState wet deck s1 = s1 /\
     forall w ac, wave (getDeck deck s) = Some w -> backend_ac w = Some ac ->
       getFilters <$> wave (getDeck deck s1)
       = Some (chain_of fxState (nodes (getDeck deck s1))) /\
       NoDup (chain_of fxState (nodes (getDeck deck s1)))).
Proof.
  cbn zeta. pose proof (reachable_ok evs) as Hs.
  set (s := run evs initial) in *.
  destruct (run_advance later s Hs) as [Hs' [He Hl]].
  assert (Hn : nodes_ok (audio s) (nodes (getDeck deck s))) by now apply app_ok_deck.
  split; [apply Hl|]. split.
  { intros h Hin. split; [eapply handles_kinded; eassumption|].
    apply He. pose proof (ok_fresh _ _ Hn) as Hf. rewrite Forall_forall in Hf.
    now apply Hf. }
  split; [intros type h; apply nodes_le_eq_lookup, Hl|].
  split; [intros w; apply (ensureNodes_advance deck w s Hs)|].
  split; [intros fxState wet; apply (applyFilters_in_advance fxState wet deck s Hs)|].
  split; [intros type value; apply (setEQ_advance deck type value s Hs)|].
  intros fxState wet. split; [now apply applyFilters_in_idem|].
  intros w ac Hw Hac.
  destruct (applyFilters_in_facts fxState wet deck s w ac Hs Hw Hac)
    as (H1 & _ & _ & _ & W1 & _).
  split; [now rewrite W1|].
  eapply chain_of_NoDup. apply app_ok_deck. exact H1.
Qed.

Lemma handles_never_recreated_witness :
  let on := {| fx_reverb := true; fx_delay := true; fx_filter := true; fx_gate := true |} in
  let s := run [EvMount; EvReady DeckA (Some (mkAudioContext 7)) 180;
                EvSetEQ DeckA highshelf 3; EvToggleFx DeckA FxGate] initial in
  let s1 := applyFilters_in on (wet (getDeck DeckA s)) DeckA s in
  getFilters <$> wave (getDeck DeckA s1) = Some (chain_of on (nodes (getDeck DeckA s1))) /\
  NoDup (chain_of on (nodes (getDeck DeckA s1))).
Proof.
  intros on s s1.
  destruct (handles_never_recreated
              [EvMount; EvReady DeckA (Some (mkAudioContext 7)) 180;
               EvSetEQ DeckA highshelf 3; EvToggleFx DeckA FxGate] [] DeckA)
    as (_ & _ & _ & _ & _ & _ & H).
  destruct (H on (wet (getDeck DeckA s))) as [_ H'].
  eapply H'.
  - vm_compute; reflexivity.
  - reflexivity.
Defined.

(** ** The chain follows the flags, not the calls *)

Lemma applyFilters_in_other (fxState : FxFlags) (wet : FxWet) (deck deck' : DeckId) (s : App) :
  deck <> deck' -> getDeck deck' (applyFilters_in fxState wet deck s) = getDeck deck' s.
Proof.
  intros Hne. destruct (wave (getDeck deck s)) as [w|] eqn:Hw.
  - destruct (backend_ac w) as [ac|] eqn:Hac.
    + rewrite (applyFilters_in_eq _ _ _ _ w ac Hw Hac). cbn zeta.
      now rewrite getDeck_set_deck_ne, getDeck_set_audio.
    + rewrite applyFilters_in_idle; [reflexivity|]. intros w' E. congruence.
  - rewrite applyFilters_in_idle; [reflexivity|]. intros w' E. congruence.
Qed.

Lemma applyFilters_in_fx (fxState : FxFlags) (wet : FxWet) (deck deck' : DeckId) (s : App) :
  fx (getDeck deck' (applyFilters_in fxState wet deck s)) = fx (getDeck deck' s).
Proof.
  destruct (decide (deck = deck')) as [<- | Hne]; [|now rewrite applyFilters_in_other].
  destruct (wave (getDeck deck s)) as [w|] eqn:Hw.
  - destruct (backend_ac w) as [ac|] eqn:Hac.
    + rewrite (applyFilters_in_eq _ _ _ _ w ac Hw Hac). cbn zeta.
      now rewrite getDeck_set_deck_eq.
    + rewrite applyFilters_in_idle; [reflexivity|]. intros w' E. congruence.
  - rewrite applyFilters_in_idle; [reflexivity|]. intros w' E. congruence.
Qed.

(** The effect on the fx state, seen from one deck with a transport and a
    context: its chain is the one of its flags. *)
Lemma fx_effect_chain (deck : DeckId) (s : App) (w : WaveSurfer) (ac : AudioContext) :
  app_ok s -> wave (getDeck deck s) = Some w -> backend_ac w = Some ac ->
  wave (getDeck deck (fx_effect s))
  = Some (setFilters (chain_of (fx (getDeck deck s)) (nodes (getDeck deck (fx_effect s)))) w).
Proof.
  intros Hs Hw Hac. unfold fx_effect, applyFilters. destruct deck.
  - rewrite !(applyFilters_in_other _ _ DeckB DeckA) by discriminate.
    destruct (applyFilters_in_facts (fx (getDeck DeckA s)) (wet (getDeck DeckA s))
                DeckA s w ac Hs Hw Hac) as (_ & _ & _ & _ & W & _).
    exact W.
  - destruct (applyFilters_in_advance (fx (getDeck DeckA s)) (wet (getDeck DeckA s))
                DeckA s Hs) as [H1 _].
    set (s1 := applyFilters_in (fx (getDeck DeckA s)) (wet (getDeck DeckA s)) DeckA s) in *.
    assert (E : getDeck DeckB s1 = getDeck DeckB s)
      by (apply applyFilters_in_other; discriminate).
    assert (Hw1 : wave (getDeck DeckB s1) = Some w) by now rewrite E.
    destruct (applyFilters_in_facts (fx (getDeck DeckB s1)) (wet (getDeck DeckB s1))
                DeckB s1 w ac H1 Hw1 Hac) as (_ & _ & _ & _ & W & _).
    rewrite W. now rewrite E.
Qed.

Lemma fx_effect_idle (deck : DeckId) (s : App) :
  (forall w, wave (getDeck deck s) = Some w -> backend_ac w = None) ->
  getDeck deck (fx_effect s) = getDeck deck s.
Proof.
  intros H. unfold fx_effect, applyFilters. destruct deck.
  - rewrite (applyFilters_in_other _ _ DeckB DeckA) by discriminate.
    now rewrite applyFilters_in_idle.
  - rewrite applyFilters_in_idle.
    + apply applyFilters_in_other. discriminate.
    + intros w. rewrite (applyFilters_in_other _ _ DeckA DeckB) by discriminate. apply H.
Qed.

Lemma fx_effect_fx (deck : DeckId) (s : App) :
  fx (getDeck deck (fx_effect s)) = fx (getDeck deck s).
Proof. unfold fx_effect, applyFilters. now rewrite !applyFilters_in_fx. Qed.

Lemma audio_set_deck (deck : DeckId) (d : Deck) (s : App) :
  audio (set_deck deck d s) = audio s.
Proof. destruct deck; reflexivity. Qed.

(** Which nodes are created, and under which identity, does not depend on
    the flags, the wet amounts or the parameters in the store. *)
Lemma ensure_all_skeleton (a1 a2 : Audio) (n : DeckNodes) :
  next a1 = next a2 ->
  snd (ensure_all (a1, n)) = snd (ensure_all (a2, n)) /\
  next (fst (ensure_all (a1, n))) = next (fst (ensure_all (a2, n))).
Proof.
  intros E. unfold ensure_all, ensure_filter, ensure_delay, ensure_reverb, ensure_gate.
  destruct n as [e [f|] [d|] fb [r|] [g|] an]; cbn; rewrite ?E; split; reflexivity.
Qed.

Lemma skeleton_deck (s1 s2 : App) (deck : DeckId) :
  skeleton s1 = skeleton s2 ->
  next (audio s1) = next (audio s2) /\
  nodes (getDeck deck s1) = nodes (getDeck deck s2) /\
  backend_ac <$> wave (getDeck deck s1) = backend_ac <$> wave (getDeck deck s2).
Proof. unfold skeleton. intros [= E1 E2 E3 E4 E5]. destruct deck; auto. Qed.

Lemma skeleton_other (s1 s2 s1' s2' : App) (deck : DeckId) :
  skeleton s1 = skeleton s2 ->
  (forall deck', deck <> deck' -> getDeck deck' s1' = getDeck deck' s1) ->
  (forall deck', deck <> deck' -> getDeck deck' s2' = getDeck deck' s2) ->
  next (audio s1') = next (audio s2') ->
  nodes (getDeck deck s1') = nodes (getDeck deck s2') ->
  backend_ac <$> wave (getDeck deck s1') = backend_ac <$> wave (getDeck deck s2') ->
  skeleton s1' = skeleton s2'.
Proof.
  unfold skeleton. intros [= E1 E2 E3 E4 E5] O1 O2 En Ed Ew. destruct deck.
  - pose proof (O1 DeckB) as B1. pose proof (O2 DeckB) as B2. cbn [getDeck] in *.
    rewrite B1, B2 by discriminate. congruence.
  - pose proof (O1 DeckA) as B1. pose proof (O2 DeckA) as B2. cbn [getDeck] in *.
    rewrite B1, B2 by discriminate. congruence.
Qed.

Lemma applyFilters_in_skeleton (fx1 fx2 : FxFlags) (wet1 wet2 : FxWet) (deck : DeckId)
    (s1 s2 : App) :
  skeleton s1 = skeleton s2 ->
  skeleton (applyFilters_in fx1 wet1 deck s1) = skeleton (applyFilters_in fx2 wet2 deck s2).
Proof.
  intros E. destruct (skeleton_deck s1 s2 deck E) as (En & Ed & Ew).
  apply (skeleton_other s1 s2 _ _ deck E);
    try (intros deck' Hne; now apply applyFilters_in_other).
  - destruct (wave (getDeck deck s1)) as [w1|] eqn:Hw1,
             (wave (getDeck deck s2)) as [w2|] eqn:Hw2; try discriminate.
    2:{ rewrite !applyFilters_in_idle; [exact En | |]; intros w' E'; congruence. }
    injection Ew as Ew.
    destruct (backend_ac w1) as [ac|] eqn:Hac1.
    2:{ rewrite !applyFilters_in_idle; [exact En | |]; intros w' E'; congruence. }
    symmetry in Ew.
    rewrite (applyFilters_in_eq _ _ _ _ w1 ac Hw1 Hac1),
            (applyFilters_in_eq _ _ _ _ w2 ac Hw2 Ew). cbn zeta.
    rewrite !audio_set_deck. cbn [audio set_audio].
    destruct (build_chain_store fx1 wet1
                (snd (ensure_all (set_audioCtxRef (Some ac) (audio s1), nodes (getDeck deck s1))))
                (fst (ensure_all (set_audioCtxRef (Some ac) (audio s1), nodes (getDeck deck s1)))))
      as (N1 & _).
    destruct (build_chain_store fx2 wet2
                (snd (ensure_all (set_audioCtxRef (Some ac) (audio s2), nodes (getDeck deck s2))))
                (fst (ensure_all (set_audioCtxRef (Some ac) (audio s2), nodes (getDeck deck s2)))))
      as (N2 & _).
    rewrite N1, N2, Ed.
    apply ensure_all_skeleton. exact En.
  - destruct (wave (getDeck deck s1)) as [w1|] eqn:Hw1,
             (wave (getDeck deck s2)) as [w2|] eqn:Hw2; try discriminate.
    2:{ rewrite !applyFilters_in_idle; [exact Ed | |]; intros w' E'; congruence. }
    injection Ew as Ew.
    destruct (backend_ac w1) as [ac|] eqn:Hac1.
    2:{ rewrite !applyFilters_in_idle; [exact Ed | |]; intros w' E'; congruence. }
    symmetry in Ew.
    rewrite (applyFilters_in_eq _ _ _ _ w1 ac Hw1 Hac1),
            (applyFilters_in_eq _ _ _ _ w2 ac Hw2 Ew). cbn zeta.
    rewrite !getDeck_set_deck_eq. cbn [nodes set_wave set_nodes]. rewrite Ed.
    apply ensure_all_skeleton. exact En.
  - destruct (wave (getDeck deck s1)) as [w1|] eqn:Hw1,
             (wave (getDeck deck s2)) as [w2|] eqn:Hw2; try discriminate.
    2:{ rewrite !applyFilters_in_idle; [now rewrite Hw1, Hw2 | |];
        intros w' E'; congruence. }
    injection Ew as Ew.
    destruct (backend_ac w1) as [ac|] eqn:Hac1.
    2:{ rewrite !applyFilters_in_idle; [rewrite Hw1, Hw2; cbn; congruence | |];
        intros w' E'; congruence. }
    symmetry in Ew.
    rewrite (applyFilters_in_eq _ _ _ _ w1 ac Hw1 Hac1),
            (applyFilters_in_eq _ _ _ _ w2 ac Hw2 Ew). cbn zeta.
    rewrite !getDeck_set_deck_eq. cbn. congruence.
Qed.

Lemma toggleFx_skeleton (deck : DeckId) (key : FxKey) (s : App) :
  skeleton (toggleFx deck key s) = skeleton s.
Proof. destruct deck; reflexivity. Qed.

Lemma toggle_step_skeleton (deck : DeckId) (k1 k2 : FxKey) (s1 s2 : App) :
  skeleton s1 = skeleton s2 ->
  skeleton (step (EvToggleFx deck k1) s1) = skeleton (step (EvToggleFx deck k2) s2).
Proof.
  intros E. cbn [step]. unfold fx_effect, applyFilters.
  apply applyFilters_in_skeleton, applyFilters_in_skeleton.
  now rewrite !toggleFx_skeleton.
Qed.

Lemma toggleFx_commute (k1 k2 : FxKey) (f : FxFlags) :
  set_fx (set_fx f k1 (negb (get_fx f k1))) k2 (negb (get_fx (set_fx f k1 (negb (get_fx f k1))) k2))
  = set_fx (set_fx f k2 (negb (get_fx f k2))) k1 (negb (get_fx (set_fx f k2 (negb (get_fx f k2))) k1)).
Proof. destruct f as [[] [] [] []], k1, k2; reflexivity. Qed.

(** What one toggle, with the effect it starts, does to the deck's
    transport and flags. *)
Lemma toggle_step_deck (deck : DeckId) (key : FxKey) (s : App) :
  app_ok s ->
  let s' := step (EvToggleFx deck key) s in
  let f' := set_fx (fx (getDeck deck s)) key (negb (get_fx (fx (getDeck deck s)) key)) in
  app_ok s' /\
  fx (getDeck deck s') = f' /\
  match wave (getDeck deck s) with
  | None => wave (getDeck deck s') = None
  | Some w =>
      match backend_ac w with
      | None => wave (getDeck deck s') = Some w
      | Some _ =>
          wave (getDeck deck s') = Some (setFilters (chain_of f' (nodes (getDeck deck s'))) w)
      end
  end.
Proof.
  intros Hs. cbn zeta. cbn [step].
  pose proof (quiet_ok _ _ (quiet_toggleFx deck key s) Hs) as Ht.
  assert (Ed : getDeck deck (toggleFx deck key s)
               = set_fxState (set_fx (fx (getDeck deck s)) key
                                (negb (get_fx (fx (getDeck deck s)) key))) (getDeck deck s))
    by (unfold toggleFx; now rewrite getDeck_set_deck_eq).
  split; [apply (fx_effect_advance _ Ht)|].
  split; [now rewrite fx_effect_fx, Ed|].
  destruct (wave (getDeck deck s)) as [w|] eqn:Hw.
  - assert (Hw' : wave (getDeck deck (toggleFx deck key s)) = Some w) by (rewrite Ed; exact Hw).
    destruct (backend_ac w) as [ac|] eqn:Hac.
    + rewrite (fx_effect_chain deck _ w ac Ht Hw' Hac). now rewrite Ed.
    + rewrite fx_effect_idle; [exact Hw'|]. intros w' E. congruence.
  - assert (Hw' : wave (getDeck deck (toggleFx deck key s)) = None) by (rewrite Ed; exact Hw).
    rewrite fx_effect_idle; [exact Hw'|]. intros w' E. congruence.
Qed.

Lemma toggle_flag_commute (f : FxFlags) (k1 k2 : FxKey) :
  toggle_flag (toggle_flag f k1) k2 = toggle_flag (toggle_flag f k2) k1.
Proof. apply toggleFx_commute. Qed.

(** The flags after a run of toggles depend on which keys were toggled how
    often, not on the order. *)
Lemma foldl_toggle_flag_perm (ks ks' : list FxKey) :
  ks ≡ₚ ks' -> forall f, foldl toggle_flag f ks = foldl toggle_flag f ks'.
Proof.
  induction 1 as [| k ks ks' _ IH | k1 k2 ks | ks1 ks2 ks3 _ IH1 _ IH2]; intros f; cbn.
  - reflexivity.
  - apply IH.
  - now rewrite toggle_flag_commute.
  - now rewrite IH1.
Qed.

Lemma run_cons (e : Event) (evs : list Event) (s : App) :
  run (e :: evs) s = run evs (step e s).
Proof. reflexivity. Qed.

(** A run of toggles on a deck, seen from that deck. *)
Lemma run_toggles_deck (deck : DeckId) (ks : list FxKey) (s : App) :
  app_ok s ->
  let s' := run (toggles deck ks) s in
  fx (getDeck deck s') = foldl toggle_flag (fx (getDeck deck s)) ks /\
  match wave (getDeck deck s) with
  | None => wave (getDeck deck s') = None
  | Some w =>
      match backend_ac w with
      | None => wave (getDeck deck s') = Some w
      | Some ac =>
          exists w',
            wave (getDeck deck s') = Some w' /\ backend_ac w' = Some ac /\
            (ks <> [] ->
             getFilters w' = chain_of (fx (getDeck deck s')) (nodes (getDeck deck s')))
      end
  end.
Proof.
  revert s. induction ks as [| k ks IH]; intros s Hs; cbn zeta.
  - split; [reflexivity|]. cbn.
    destruct (wave (getDeck deck s)) as [w|]; [|reflexivity].
    destruct (backend_ac w) as [ac|] eqn:Hac; [|reflexivity].
    exists w. split; [reflexivity|]. split; [exact Hac | congruence].
  - unfold toggles. cbn [fmap list_fmap]. rewrite run_cons. fold (toggles deck ks).
    destruct (toggle_step_deck deck k s Hs) as (H1 & F1 & W1). cbn zeta in F1, W1.
    destruct (IH _ H1) as (F2 & W2). cbn zeta in F2, W2.
    split; [rewrite F2, F1; reflexivity|].
    destruct (wave (getDeck deck s)) as [w|] eqn:Hw.
    + destruct (backend_ac w) as [ac|] eqn:Hac.
      * rewrite W1 in W2. cbn [backend_ac setFilters] in W2. rewrite Hac in W2.
        destruct W2 as (w' & E1 & E2 & E3). exists w'.
        split; [exact E1|]. split; [exact E2|]. intros _.
        destruct ks as [| k' ks]; [|apply E3; discriminate].
        unfold toggles, run in E1 |- *. cbn [fmap list_fmap foldl] in E1 |- *.
        rewrite W1 in E1. injection E1 as <-.
        cbn [getFilters setFilters]. now rewrite F1.
      * rewrite W1, Hac in W2. exact W2.
    + rewrite W1 in W2. exact W2.
Qed.

Lemma run_toggles_skeleton (deck : DeckId) (ks ks' : list FxKey) (s1 s2 : App) :
  length ks = length ks' -> skeleton s1 = skeleton s2 ->
  skeleton (run (toggles deck ks) s1) = skeleton (run (toggles deck ks') s2).
Proof.
  revert ks' s1 s2. induction ks as [| k ks IH]; intros [| k' ks'] s1 s2 Hl E;
    try discriminate; [exact E|].
  unfold toggles. cbn [fmap list_fmap]. rewrite !run_cons.
  apply IH; [now injection Hl | now apply toggle_step_skeleton].
Qed.

(** The toggles of a deck in any order leave the same chain. *)
Lemma toggles_permutation (deck : DeckId) (ks ks' : list FxKey) (s : App) :
  app_ok s -> ks ≡ₚ ks' ->
  getFilters <$> wave (getDeck deck (run (toggles deck ks) s))
  = getFilters <$> wave (getDeck deck (run (toggles deck ks') s)).
Proof.
  intros Hs Hp.
  destruct (run_toggles_deck deck ks s Hs) as (F1 & W1).
  destruct (run_toggles_deck deck ks' s Hs) as (F2 & W2). cbn zeta in *.
  pose proof (run_toggles_skeleton deck ks ks' s s (Permutation_length Hp) eq_refl) as Esk.
  destruct (skeleton_deck _ _ deck Esk) as (_ & En & _).
  destruct (wave (getDeck deck s)) as [w|].
  - destruct (backend_ac w) as [ac|].
    + destruct W1 as (w1 & E1 & _ & C1). destruct W2 as (w2 & E2 & _ & C2).
      destruct ks as [| k ks].
      * apply Permutation_nil_l in Hp. subst ks'. reflexivity.
      * assert (Hne : ks' <> []).
        { intros ->. now apply Permutation_nil_r in Hp. }
        rewrite E1, E2. cbn [fmap option_fmap option_map]. f_equal.
        rewrite C1, C2 by (exact Hne || discriminate).
        rewrite F1, F2, En. f_equal. now apply foldl_toggle_flag_perm.
    + now rewrite W1, W2.
  - now rewrite W1, W2.
Qed.

(** ** The realized chain *)

(** C1, as stated, fails on the order of the EQ stages: they come in the
    order in which [setEQ] created them. After the high knob and then the low
    knob of deck A are moved, the chain is high shelf, low shelf. *)
Lemma eq_stages_in_creation_order :
  let s := run [EvMount; EvReady DeckA (Some (mkAudioContext 7)) 180;
                EvSetEQ DeckA highshelf 3; EvSetEQ DeckA lowshelf (-2)] initial in
  n_eq (nodes (deckA s)) = [(highshelf, 6%nat); (lowshelf, 7%nat)] /\
  (getFilters <$> waveARef s = Some [6; 7]%nat) /\
  (chain_ranks DeckA s = [3; 1]%nat) /\
  ~ Sorted lt (chain_ranks DeckA s).
Proof.
  cbn zeta.
  assert (E : chain_ranks DeckA
                (run [EvMount; EvReady DeckA (Some (mkAudioContext 7)) 180;
                      EvSetEQ DeckA highshelf 3; EvSetEQ DeckA lowshelf (-2)] initial)
              = [3; 1]%nat) by (vm_compute; reflexivity).
  split; [vm_compute; reflexivity|]. split; [vm_compute; reflexivity|].
  split; [exact E|]. rewrite E. intros H.
  apply Sorted_inv in H as [_ H]. apply HdRel_inv in H. lia.
Qed.

(** C1, amended. On a deck with a transport and a context, after every
    history, the list [applyFilters] realizes is: the gate, then the EQ
    stages in the order in which [setEQ] created them, then the resonant
    filter, then the delay, then the reverb, where each of the four effects
    is there exactly when its flag is on in the fx state the call reads.
    [setEQ] puts a stage of a new type last and keeps the others in place.
    The handles involved are all different, so an effect that is off is not
    in the list at all. The list depends on the values of the flags, not on
    the order of the toggles that gave them: a run of toggles and any
    permutation of it leave the same list. *)
Theorem applyFilters_stage_order (evs : list Event) (deck : DeckId) :
  let s := run evs initial in
  (forall fxState wet w ac,
     wave (getDeck deck s) = Some w -> backend_ac w = Some ac ->
     let s' := applyFilters_in fxState wet deck s in
     let n' := nodes (getDeck deck s') in
     exists g f d r,
       n_gate n' = Some g /\ n_filter n' = Some f /\
       n_delay n' = Some d /\ n_reverb n' = Some r /\
       kind_at (audio s') g = Some KCompressor /\
       kind_at (audio s') f = Some (KBiquad lowpass) /\
       kind_at (audio s') d = Some KDelay /\
       kind_at (audio s') r = Some (KConvolver true) /\
       Forall (fun p => kind_at (audio s') (snd p) = Some (KBiquad (fst p))) (n_eq n') /\
       n_eq n' = n_eq (nodes (getDeck deck s)) /\
       NoDup ([g] ++ (snd <$> n_eq n') ++ [f] ++ [d] ++ [r]) /\
       getFilters <$> wave (getDeck deck s')
       = Some ((if fx_gate fxState then [g] else []) ++ (snd <$> n_eq n') ++
               (if fx_filter fxState then [f] else []) ++
               (if fx_delay fxState then [d] else []) ++
               (if fx_reverb fxState then [r] else []))) /\
  (forall type value w ac,
     wave (getDeck deck s) = Some w -> backend_ac w = Some ac ->
     let s' := setEQ deck type value s in
     let l := n_eq (nodes (getDeck deck s)) in
     let n' := nodes (getDeck deck s') in
     (forall h, eq_lookup type l = Some h -> n_eq n' = l) /\
     (eq_lookup type l = None ->
        exists h, (h ∉ (snd <$> l)) /\ (n_eq n' = l ++ [(type, h)])) /\
     getFilters <$> wave (getDeck deck s') = Some (chain_of (fx (getDeck deck s)) n')) /\
  (forall ks ks' : list FxKey,
     ks ≡ₚ ks' ->
     getFilters <$> wave (getDeck deck (run (toggles deck ks) s))
     = getFilters <$> wave (getDeck deck (run (toggles deck ks') s))).
Proof.
  cbn zeta. pose proof (reachable_ok evs) as Hs. set (s := run evs initial) in *.
  split; [|split].
  - intros fxState wet w ac Hw Hac.
    destruct (applyFilters_in_facts fxState wet deck s w ac Hs Hw Hac)
      as (H1 & _ & K1 & Q1 & W1 & _).
    destruct K1 as ([f Ef] & [d Ed] & _ & [r Er] & [g Eg]).
    pose proof (proj1 (app_ok_deck _) H1 deck) as Hn.
    exists g, f, d, r.
    split; [exact Eg|]. split; [exact Ef|]. split; [exact Ed|]. split; [exact Er|].
    split; [exact (ok_gate _ _ Hn g Eg)|]. split; [exact (ok_filter _ _ Hn f Ef)|].
    split; [exact (ok_delay _ _ Hn d Ed)|]. split; [exact (ok_reverb _ _ Hn r Er)|].
    split; [exact (ok_eq _ _ Hn)|]. split; [exact Q1|].
    split.
    { pose proof (chain_of_NoDup
                    {| fx_reverb := true; fx_delay := true; fx_filter := true;
                       fx_gate := true |} _ _ Hn) as Hd.
      now rewrite (chain_of_complete _ _ g f d r Eg Ef Ed Er) in Hd. }
    rewrite W1. cbn [fmap option_fmap option_map getFilters setFilters].
    now rewrite (chain_of_complete fxState _ g f d r Eg Ef Ed Er).
  - intros type value w ac Hw Hac.
    destruct (setEQ_facts deck type value s w ac Hs Hw Hac) as (_ & _ & E1 & E2 & W).
    split; [exact E1|]. split; [exact E2|]. now rewrite W.
  - intros ks ks' Hp. now apply toggles_permutation.
Qed.

Lemma applyFilters_stage_order_witness :
  let on := {| fx_reverb := true; fx_delay := false; fx_filter := true; fx_gate := true |} in
  let s := run [EvMount; EvReady DeckA (Some (mkAudioContext 7)) 180;
                EvSetEQ DeckA highshelf 3; EvSetEQ DeckA lowshelf (-2)] initial in
  let s' := applyFilters_in on (wet (getDeck DeckA s)) DeckA s in
  exists g f d r,
    getFilters <$> wave (getDeck DeckA s')
    = Some ((if fx_gate on then [g] else []) ++ (snd <$> n_eq (nodes (getDeck DeckA s'))) ++
            (if fx_filter on then [f] else []) ++ (if fx_delay on then [d] else []) ++
            (if fx_reverb on then [r] else [])).
Proof.
  intros on s s'.
  destruct (applyFilters_stage_order
              [EvMount; EvReady DeckA (Some (mkAudioContext 7)) 180;
               EvSetEQ DeckA highshelf 3; EvSetEQ DeckA lowshelf (-2)] DeckA) as (H & _ & _).
  edestruct (H on (wet (getDeck DeckA s))) as (g & f & d & r & H').
  - vm_compute; reflexivity.
  - reflexivity.
  - exists g, f, d, r. apply H'.
Defined.

(** C2. On a deck with a transport and a context, after every history,
    [applyFilters] leaves each enabled stage in the chain with its parameter
    computed from the wet amount the call reads: the filter's frequency is
    [500 + wet * 7500], the delay's time [0.05 + wet * 0.45] and the gain of
    its feedback [0.1 + wet * 0.6], the gate's threshold [-50 + wet * 30];
    this for every wet amount, those of [0, 1] among them. *)
Theorem applyFilters_parameters (evs : list Event) (deck : DeckId)
    (fxState : FxFlags) (wet : FxWet) (w : WaveSurfer) (ac : AudioContext) :
  let s := run evs initial in
  wave (getDeck deck s) = Some w -> backend_ac w = Some ac ->
  let s' := applyFilters_in fxState wet deck s in
  let n' := nodes (getDeck deck s') in
  let store := heap (audio s') in
  exists chain,
    getFilters <$> wave (getDeck deck s') = Some chain /\
    (fx_filter fxState = true ->
       exists f q gain,
         n_filter n' = Some f /\ f ∈ chain /\
         store !! f = Some (BiquadFilterNode lowpass (500 + wet_filter wet * 7500) q gain)) /\
    (fx_delay fxState = true ->
       exists d fb,
         n_delay n' = Some d /\ n_delayFeedback n' = Some fb /\ d ∈ chain /\
         store !! d = Some (DelayNode (0.05 + wet_delay wet * 0.45)) /\
         store !! fb = Some (GainNode (0.1 + wet_delay wet * 0.6))) /\
    (fx_gate fxState = true ->
       exists g ratio attack release,
         n_gate n' = Some g /\ g ∈ chain /\
         store !! g
         = Some (DynamicsCompressorNode (-50 + wet_gate wet * 30) ratio attack release)).
Proof.
  cbn zeta. intros Hw Hac. pose proof (reachable_ok evs) as Hs.
  set (s := run evs initial) in *.
  destruct (applyFilters_in_facts fxState wet deck s w ac Hs Hw Hac)
    as (_ & _ & K1 & _ & W1 & (Pg & Pf & Pd & Pfb) & _).
  destruct K1 as ([f Ef] & [d Ed] & [fb Efb] & [r Er] & [g Eg]).
  exists (chain_of fxState (nodes (getDeck deck (applyFilters_in fxState wet deck s)))).
  split; [rewrite W1; reflexivity|].
  rewrite (chain_of_complete fxState _ g f d r Eg Ef Ed Er).
  split; [|split].
  - intros On. destruct (Pf On f Ef) as (q & gain & E).
    exists f, q, gain. split; [exact Ef|]. split; [|exact E].
    rewrite On, !elem_of_app. right. right. left.
    apply list_elem_of_singleton. reflexivity.
  - intros On. exists d, fb. split; [exact Ed|]. split; [exact Efb|].
    split.
    { rewrite On, !elem_of_app. right. right. right. left.
      apply list_elem_of_singleton. reflexivity. }
    split; [exact (Pd On d Ed)|]. apply (Pfb On); [eauto | exact Efb].
  - intros On. destruct (Pg On g Eg) as (ratio & attack & release & E).
    exists g, ratio, attack, release. split; [exact Eg|]. split; [|exact E].
    rewrite On, !elem_of_app. left. apply list_elem_of_singleton. reflexivity.
Qed.

Lemma applyFilters_parameters_witness :
  let on := {| fx_reverb := false; fx_delay := true; fx_filter := true; fx_gate := true |} in
  let wet := {| wet_reverb := 0.35; wet_delay := 0.25; wet_filter := 0.5; wet_gate := 1 |} in
  let s := run [EvMount; EvReady DeckA (Some (mkAudioContext 7)) 180] initial in
  let s' := applyFilters_in on wet DeckA s in
  exists f q gain,
    n_filter (nodes (getDeck DeckA s')) = Some f /\
    heap (audio s') !! f = Some (BiquadFilterNode lowpass (500 + 0.5 * 7500) q gain).
Proof.
  intros on wet s s'.
  edestruct (applyFilters_parameters
               [EvMount; EvReady DeckA (Some (mkAudioContext 7)) 180] DeckA on wet)
    as (chain & _ & Hf & _).
  - vm_compute; reflexivity.
  - reflexivity.
  - destruct (Hf eq_refl) as (f & q & gain & E1 & _ & E2).
    exists f, q, gain. split; [exact E1 | exact E2].
Defined.

(** ** What the graph handlers leave alone *)

Lemma graph_only_refl (s : App) : graph_only s s.
Proof. split; [intros deck|]; repeat split. Qed.

Lemma graph_only_trans (s1 s2 s3 : App) :
  graph_only s1 s2 -> graph_only s2 s3 -> graph_only s1 s3.
Proof.
  intros [D1 (A1 & B1 & C1 & E1 & F1 & G1)] [D2 (A2 & B2 & C2 & E2 & F2 & G2)]. split.
  - intros deck. destruct (D1 deck) as (P1 & Q1 & R1 & S1 & T1).
    destruct (D2 deck) as (P2 & Q2 & R2 & S2 & T2).
    repeat split; congruence.
  - repeat split; congruence.
Qed.


(** A new node set and a new chain for one deck. *)
Lemma graph_only_set_deck (deck : DeckId) (d : Deck) (a : Audio) (s : App) :
  bpm d = bpm (getDeck deck s) -> tempo d = tempo (getDeck deck s) ->
  fx d = fx (getDeck deck s) -> wet d = wet (getDeck deck s) ->
  transport <$> wave d = transport <$> wave (getDeck deck s) ->
  graph_only s (set_deck deck d (set_audio a s)).
Proof.
  intros Hb Ht Hf Hw Hr. split.
  - intros deck'. destruct (decide (deck = deck')) as [<- | Hne].
    + rewrite getDeck_set_deck_eq. auto.
    + rewrite getDeck_set_deck_ne, getDeck_set_audio by exact Hne. repeat split.
  - destruct deck; repeat split.
Qed.

Lemma graph_only_applyFilters_in (fxState : FxFlags) (amounts : FxWet) (deck : DeckId)
    (s : App) :
  graph_only s (applyFilters_in fxState amounts deck s).
Proof.
  assert (Hidle : (forall w, wave (getDeck deck s) = Some w -> backend_ac w = None) ->
                  graph_only s (applyFilters_in fxState amounts deck s)).
  { intros H. rewrite applyFilters_in_idle by exact H. apply graph_only_refl. }
  destruct (wave (getDeck deck s)) as [w|] eqn:Hw; [|apply Hidle; intros w' E; congruence].
  destruct (backend_ac w) as [ac|] eqn:Hac; [|apply Hidle; intros w' E; congruence].
  rewrite (applyFilters_in_eq _ _ _ _ w ac Hw Hac). cbn zeta.
  apply graph_only_set_deck; try reflexivity.
  cbn [wave set_wave set_nodes]. now rewrite Hw.
Qed.

Lemma graph_only_fx_effect (s : App) : graph_only s (fx_effect s).
Proof.
  unfold fx_effect, applyFilters.
  eapply graph_only_trans; apply graph_only_applyFilters_in.
Qed.




(** * Further properties of the controls *)

(** ** Tap tempo, sync and the beat grid *)

Lemma tap_bpm_bounds (interval : number) :
  250 <= interval <= 2000 ->
  (30 <= Math_round (60000 / interval)%Q <= 240)%Z.
Proof.
  intros [Hl Hu].
  assert (Hpos : 0 < interval) by lra.
  assert (H1 : 30 <= 60000 / interval) by (apply Qle_shift_div_l; [exact Hpos | lra]).
  assert (H2 : 60000 / interval <= 240) by (apply Qle_shift_div_r; [exact Hpos | lra]).
  destruct (Math_round_bounds (60000 / interval)) as [Hb1 Hb2].
  set (r := Math_round (60000 / interval)) in *.
  split.
  - assert (H : inject_Z 29 < inject_Z r + 0) by (change (inject_Z 29) with 29; lra).
    rewrite Qplus_0_r in H. rewrite <- Zlt_Qlt in H. lia.
  - assert (H : inject_Z r + 0 < inject_Z 241) by (change (inject_Z 241) with 241; lra).
    rewrite Qplus_0_r in H. rewrite <- Zlt_Qlt in H. lia.
Qed.

(** X1. Whatever the times of the taps, a tap either leaves the BPM of its
    deck as it was or sets it to a whole number between 30 and 240; the BPM
    of the other deck is never touched. *)
Theorem tapTempo_bpm_range (deck : DeckId) (now : number) (s : App) :
  let s' := tapTempo deck now s in
  (bpm (getDeck deck s') = bpm (getDeck deck s) \/
   exists r : Z, bpm (getDeck deck s') = Some (inject_Z r) /\ (30 <= r <= 240)%Z) /\
  bpm (getDeck (other_deck deck) s') = bpm (getDeck (other_deck deck) s).
Proof.
  cbn zeta.
  destruct (Qeq_dec (lastTap s) 0) as [H0 | H0].
  { rewrite (tapTempo_first deck now s H0). split; [left|]; destruct deck; reflexivity. }
  destruct (Qlt_le_dec (now - lastTap s) 250) as [Hl | Hl].
  { rewrite (tapTempo_discard deck now s H0) by (left; exact Hl).
    split; [left|]; destruct deck; reflexivity. }
  destruct (Qlt_le_dec 2000 (now - lastTap s)) as [Hu | Hu].
  { rewrite (tapTempo_discard deck now s H0) by (right; exact Hu).
    split; [left|]; destruct deck; reflexivity. }
  rewrite (tapTempo_accept deck now s H0) by (split; assumption).
  rewrite !playClick_getDeck. split.
  - right. exists (Math_round (60000 / (now - lastTap s))). split.
    + destruct deck; reflexivity.
    + apply tap_bpm_bounds. split; assumption.
  - destruct deck; reflexivity.
Qed.

Lemma syncTempo_eq (deck : DeckId) (s : App) (x y : number) :
  bpm (getDeck deck s) = Some x ->
  bpm (getDeck (other_deck deck) s) = Some y ->
  ~ x == 0 -> ~ y == 0 ->
  syncTempo deck s = playClick (setTempo deck (Math_min 1.5 (Math_max 0.6 (y / x))) s).
Proof.
  intros Hx Hy Hx0 Hy0. apply falsy_false in Hx0, Hy0. unfold syncTempo, bpmA, bpmB.
  destruct deck; cbn [other_deck getDeck] in *; rewrite Hx, Hy, Hx0, Hy0; reflexivity.
Qed.

Lemma setTempo_other (deck d : DeckId) (value : number) (s : App) :
  deck <> d -> getDeck d (setTempo deck value s) = getDeck d s.
Proof.
  intros Hne. unfold setTempo. destruct (wave (getDeck deck s)); [|reflexivity].
  now apply getDeck_set_deck_ne.
Qed.

Lemma setTempo_bpm (deck d : DeckId) (value : number) (s : App) :
  bpm (getDeck d (setTempo deck value s)) = bpm (getDeck d s).
Proof.
  unfold setTempo. destruct (wave (getDeck deck s)); [|reflexivity].
  destruct deck, d; reflexivity.
Qed.

Lemma other_deck_ne (deck : DeckId) : deck <> other_deck deck.
Proof. destruct deck; discriminate. Qed.

Lemma other_deck_involutive (deck : DeckId) : other_deck (other_deck deck) = deck.
Proof. destruct deck; reflexivity. Qed.

(** X2. Sync works from the detected BPMs, not from the rates in force.
    With detected BPMs x on deck X and y on deck Y whose ratio needs no
    clamping, syncing X makes X play at the tempo of Y's track
    (x * rate(X) = y) and leaves Y alone; syncing Y afterwards leaves X
    alone and makes Y play at the tempo of X's track (y * rate(Y) = x):
    syncing both decks swaps the two tempos. *)
Theorem syncTempo_both_decks (deck : DeckId) (s : App) (x y : number) (wx wy : WaveSurfer) :
  bpm (getDeck deck s) = Some x ->
  bpm (getDeck (other_deck deck) s) = Some y ->
  ~ x == 0 -> ~ y == 0 ->
  wave (getDeck deck s) = Some wx ->
  wave (getDeck (other_deck deck) s) = Some wy ->
  0.6 <= y / x <= 1.5 -> 0.6 <= x / y <= 1.5 ->
  let s1 := syncTempo deck s in
  let s2 := syncTempo (other_deck deck) s1 in
  x * tempo (getDeck deck s1) == y /\
  getDeck (other_deck deck) s1 = getDeck (other_deck deck) s /\
  getDeck deck s2 = getDeck deck s1 /\
  y * tempo (getDeck (other_deck deck) s2) == x /\
  getPlaybackRate <$> wave (getDeck (other_deck deck) s2)
  = Some (tempo (getDeck (other_deck deck) s2)).
Proof.
  intros Hx Hy Hx0 Hy0 Hwx Hwy Hr1 Hr2. cbn zeta.
  assert (Hlh : 0.6 <= 1.5) by (intros H; discriminate H).
  rewrite (syncTempo_eq deck s x y Hx Hy Hx0 Hy0).
  set (s1 := playClick (setTempo deck (Math_min 1.5 (Math_max 0.6 (y / x))) s)).
  assert (E1 : getDeck (other_deck deck) s1 = getDeck (other_deck deck) s).
  { unfold s1. rewrite playClick_getDeck. apply setTempo_other, other_deck_ne. }
  assert (Hx1 : bpm (getDeck deck s1) = Some x).
  { unfold s1. rewrite playClick_getDeck, setTempo_bpm. exact Hx. }
  assert (T1 : tempo (getDeck deck s1) = Math_min 1.5 (Math_max 0.6 (y / x))).
  { unfold s1. rewrite playClick_getDeck, (setTempo_mounted deck _ s wx Hwx).
    rewrite getDeck_set_deck_eq. reflexivity. }
  assert (Hy1 : bpm (getDeck (other_deck deck) s1) = Some y) by (rewrite E1; exact Hy).
  assert (Hwy1 : wave (getDeck (other_deck deck) s1) = Some wy) by (rewrite E1; exact Hwy).
  rewrite (syncTempo_eq (other_deck deck) s1 y x Hy1)
    by (rewrite ?other_deck_involutive; assumption).
  rewrite !playClick_getDeck.
  rewrite (setTempo_other (other_deck deck) deck)
    by (intros E; symmetry in E; revert E; apply other_deck_ne).
  rewrite (setTempo_mounted (other_deck deck) _ s1 wy Hwy1), getDeck_set_deck_eq.
  cbn [tempo wave set_tempo set_wave fmap option_fmap option_map getPlaybackRate
       setPlaybackRate].
  rewrite T1.
  destruct (min_max_clamp 0.6 1.5 (y / x) Hlh) as (_ & _ & M1 & _).
  destruct (min_max_clamp 0.6 1.5 (x / y) Hlh) as (_ & _ & M2 & _).
  cbn zeta in M1, M2.
  split; [rewrite (M1 Hr1); field; exact Hx0|].
  split; [exact E1|]. split; [reflexivity|].
  split; [rewrite (M2 Hr2); field; exact Hy0 | reflexivity].
Qed.

Lemma syncTempo_both_decks_witness :
  let s := setBpm DeckB (Some 150) (setBpm DeckA (Some 120) (run [EvMount] initial)) in
  150 * tempoB (syncTempo DeckB s) == 120 /\
  120 * tempoA (syncTempo DeckA (syncTempo DeckB s)) == 150.
Proof.
  cbn zeta.
  pose (s := setBpm DeckB (Some 150) (setBpm DeckA (Some 120) (run [EvMount] initial))).
  assert (N150 : ~ 150 == 0) by (intros H; discriminate H).
  assert (N120 : ~ 120 == 0) by (intros H; discriminate H).
  assert (R1 : 0.6 <= 120 / 150 <= 1.5) by (split; intros H; discriminate H).
  assert (R2 : 0.6 <= 150 / 120 <= 1.5) by (split; intros H; discriminate H).
  destruct (syncTempo_both_decks DeckB s 150 120 WaveSurfer_create WaveSurfer_create
              eq_refl eq_refl N150 N120 eq_refl eq_refl R1 R2)
    as (H1 & _ & _ & H2 & _).
  split; [exact H1 | exact H2].
Defined.

Lemma analyzeTrack_getDeck_Thrown (deck d : DeckId) (s : App) :
  getDeck d (analyzeTrack deck Thrown s)
  = if decide (deck = d) then set_bpm None (getDeck d s) else getDeck d s.
Proof.
  unfold analyzeTrack. destruct (audioCtxRef (audio s)); destruct deck, d; reflexivity.
Qed.

(** X3. When the analysis of a track throws, the deck's BPM is cleared, and
    with it what depends on the BPM is switched off for that deck: syncing
    either deck changes nothing, the deck has no beat grid, and a start
    leaves the position where it is when it comes from the Play button of
    the current render or from a MIDI callback installed by a render in
    which the deck had no BPM. (A MIDI callback installed while a BPM was
    known goes on snapping by that BPM.) *)
Theorem analyzeTrack_failure (deck : DeckId) (s : App) :
  let s' := analyzeTrack deck Thrown s in
  bpm (getDeck deck s') = None /\
  (forall d, syncTempo d s' = s') /\
  (forall w, wave (getDeck deck s') = Some w ->
     getCurrentTime <$> wave (getDeck deck (togglePlay deck s'))
     = Some (getCurrentTime w)) /\
  (forall seen connect_ok w,
     bpm (getDeck deck seen) = None -> wave (getDeck deck s') = Some w ->
     getCurrentTime <$> wave (getDeck deck (perform seen connect_ok (CallTogglePlay deck) s'))
     = Some (getCurrentTime w)) /\
  (forall duration, beatSize (bpm (getDeck deck s')) duration = None).
Proof.
  cbn zeta.
  assert (Hb : bpm (getDeck deck (analyzeTrack deck Thrown s)) = None).
  { rewrite analyzeTrack_getDeck_Thrown, decide_True by reflexivity. reflexivity. }
  split; [exact Hb|]. split; [|split; [|split]].
  - intros d. unfold syncTempo, bpmA, bpmB.
    destruct deck, d; cbn [getDeck] in Hb; rewrite Hb; try reflexivity;
      match goal with |- match ?b with _ => _ end = _ => destruct b; reflexivity end.
  - intros w Hw. rewrite (togglePlay_no_snap deck _ w Hw); [reflexivity|].
    right. right. rewrite Hb. reflexivity.
  - intros seen connect_ok w Hseen Hw. cbn [perform]. unfold togglePlay_in.
    rewrite Hw, Hseen, playClick_getDeck, getDeck_set_deck_eq. cbn [wave set_wave].
    destruct (negb (isPlaying w) && beatSnap seen); reflexivity.
  - intros duration. rewrite Hb. reflexivity.
Qed.

Lemma analyzeTrack_failure_witness :
  let s := analyzeTrack DeckA Thrown
             (step (EvSeek DeckA 1.23) (setBpm DeckA (Some 120) (run [EvMount] initial))) in
  getCurrentTime <$> waveARef (togglePlay DeckA s) = Some 1.23 /\
  getCurrentTime <$> waveARef (perform initial true (CallTogglePlay DeckA) s) = Some 1.23.
Proof.
  cbn zeta.
  pose (s0 := step (EvSeek DeckA 1.23) (setBpm DeckA (Some 120) (run [EvMount] initial))).
  pose (w := {| backend_ac := None; isPlaying := false; getCurrentTime := 1.23;
                getDuration := 0; getPlaybackRate := 1; getFilters := [] |}).
  destruct (analyzeTrack_failure DeckA s0) as (_ & _ & H1 & H2 & _).
  split; [exact (H1 w eq_refl) | exact (H2 initial true w eq_refl eq_refl)].
Defined.

Lemma Math_round_Z (k : Z) : Math_round (inject_Z k) = k.
Proof.
  destruct (Math_round_bounds (inject_Z k)) as [Hl Hu].
  set (r := Math_round (inject_Z k)) in *.
  assert (H1 : inject_Z r < inject_Z (k + 1)).
  { rewrite inject_Z_plus. change (inject_Z 1) with 1. lra. }
  assert (H2 : inject_Z k < inject_Z (r + 1)).
  { rewrite inject_Z_plus. change (inject_Z 1) with 1. lra. }
  rewrite <- Zlt_Qlt in H1, H2. lia.
Qed.

(** X4. A start never moves a position that lies on the beat grid of the
    BPM its handler goes by. If a stopped deck is at the k-th beat of a BPM
    b (not 0), within the track, then a handler that reads b as the deck's
    BPM starts the deck from exactly that position, whatever beat-snap
    switch it reads: the Play button when b is the deck's present BPM, the
    MIDI callback when b is the BPM of the render that installed it. *)
Theorem togglePlay_on_grid (deck : DeckId) (s : App) (w : WaveSurfer) (b : number) (k : Z) :
  wave (getDeck deck s) = Some w -> isPlaying w = false -> ~ b == 0 ->
  getCurrentTime w == inject_Z k * (60 / b) ->
  0 <= getCurrentTime w <= getDuration w ->
  (forall snap,
     exists p, getCurrentTime <$> wave (getDeck deck (togglePlay_in (Some b) snap deck s))
               = Some p /\ p == getCurrentTime w) /\
  (bpm (getDeck deck s) = Some b ->
     exists p, getCurrentTime <$> wave (getDeck deck (togglePlay deck s)) = Some p /\
               p == getCurrentTime w) /\
  (forall seen connect_ok, bpm (getDeck deck seen) = Some b ->
     exists p, getCurrentTime <$> wave (getDeck deck
                                          (perform seen connect_ok (CallTogglePlay deck) s))
               = Some p /\ p == getCurrentTime w).
Proof.
  intros Hw Hp Hb0 Hk Ht.
  assert (K : forall snap,
             exists p, getCurrentTime <$> wave (getDeck deck (togglePlay_in (Some b) snap deck s))
                       = Some p /\ p == getCurrentTime w).
  { intros snap. unfold togglePlay_in. rewrite Hw, Hp.
    rewrite playClick_getDeck, getDeck_set_deck_eq. cbn [wave set_wave negb andb].
    destruct snap.
    2:{ exists (getCurrentTime w). split; reflexivity. }
    pose proof Hb0 as Hf. apply falsy_false in Hf. rewrite Hf. cbn zeta.
    cbn [fmap option_fmap option_map getCurrentTime isPlaying playPause setTime].
    eexists. split; [reflexivity|].
    assert (Er : Math_round (getCurrentTime w / (60 / b)) = k).
    { rewrite (Math_round_comp _ (inject_Z k)).
      - apply Math_round_Z.
      - rewrite Hk. field. exact Hb0. }
    rewrite Er.
    assert (Hd0 : 0 <= getDuration w) by lra.
    destruct (max_min_clamp 0 (getDuration w) (inject_Z k * (60 / b)) Hd0)
      as (_ & _ & Hmid & _).
    cbn zeta in Hmid. rewrite Hmid; [symmetry; exact Hk|]. rewrite <- Hk. exact Ht. }
  split; [exact K|]. split.
  - intros Hb. unfold togglePlay. rewrite Hb. apply K.
  - intros seen connect_ok Hb. cbn [perform]. rewrite Hb. apply K.
Qed.

Lemma togglePlay_on_grid_witness :
  let s := step (EvSeek DeckA 1.5)
             (setBpm DeckA (Some 120) (run [EvMount; EvReady DeckA None 180] initial)) in
  (exists p, getCurrentTime <$> waveARef (togglePlay DeckA s) = Some p /\ p == 1.5) /\
  (exists p, getCurrentTime <$> waveARef
               (perform (setBpm DeckA (Some 120) initial) true (CallTogglePlay DeckA) s)
             = Some p /\ p == 1.5).
Proof.
  cbn zeta.
  pose (s := step (EvSeek DeckA 1.5)
               (setBpm DeckA (Some 120) (run [EvMount; EvReady DeckA None 180] initial))).
  pose (w := {| backend_ac := None; isPlaying := false; getCurrentTime := 1.5;
                getDuration := 180; getPlaybackRate := 1; getFilters := [] |}).
  assert (N120 : ~ 120 == 0) by (intros H; discriminate H).
  assert (Hk : getCurrentTime w == inject_Z 3 * (60 / 120)) by reflexivity.
  assert (Ht : 0 <= getCurrentTime w <= getDuration w) by (split; intros H; discriminate H).
  destruct (togglePlay_on_grid DeckA s w 120 3 eq_refl eq_refl N120 Hk Ht) as (_ & H1 & H2).
  split; [exact (H1 eq_refl) | exact (H2 (setBpm DeckA (Some 120) initial) true eq_refl)].
Defined.

(** ** The mixer and the beat clock *)

(** X5. The crossfade is linear: the gains of the two decks always add up
    to the master gain. With the crossfader at 0 deck A has the whole master
    gain and deck B none, at 100 it is the other way round, at 50 the two
    are equal; and with the controls within their range of 0 to 100 both
    gains lie between 0 and the master gain. *)
Theorem volumes_crossfade (s : App) :
  let a := fst (volumes s) in
  let b := snd (volumes s) in
  a + b == master s / 100 /\
  (crossfader s == 0 -> a == master s / 100 /\ b == 0) /\
  (crossfader s == 100 -> a == 0 /\ b == master s / 100) /\
  (crossfader s == 50 -> a == b) /\
  (0 <= crossfader s <= 100 -> 0 <= master s ->
     0 <= a <= master s / 100 /\ 0 <= b <= master s / 100).
Proof.
  cbn zeta. unfold volumes. cbn [fst snd].
  set (c := crossfader s). set (m := master s).
  split; [field|]. split; [|split; [|split]].
  - intros E. rewrite E. split; field.
  - intros E. rewrite E. split; field.
  - intros E. rewrite E. field.
  - intros [Hc0 Hc1] Hm.
    assert (Ex : c / 100 == c * (1 # 100)) by field.
    assert (Em : m / 100 == m * (1 # 100)) by field.
    rewrite Ex, Em.
    assert (Hx0 : 0 <= c * (1 # 100)) by lra.
    assert (Hx1 : 0 <= 1 - c * (1 # 100)) by lra.
    assert (Hm0 : 0 <= m * (1 # 100)) by lra.
    pose proof (Qmult_le_0_compat _ _ Hx0 Hm0) as P1.
    pose proof (Qmult_le_0_compat _ _ Hx1 Hm0) as P2.
    set (x := c * (1 # 100)) in *. set (g := m * (1 # 100)) in *.
    assert (E : (1 - x) * g == g - x * g) by ring.
    repeat split; lra.
Qed.

Lemma volumes_crossfade_witness :
  snd (volumes (setCrossfader 0 initial)) == 0 /\
  0 <= fst (volumes initial) <= master initial / 100.
Proof.
  split.
  - apply (proj1 (proj2 (volumes_crossfade (setCrossfader 0 initial)))). reflexivity.
  - apply (proj2 (proj2 (proj2 (proj2 (volumes_crossfade initial)))));
      [split|]; intros H; discriminate H.
Defined.

Lemma beat_clamp (bpm : number) :
  ~ bpm == 0 ->
  let r := Math_max 250 (Math_min 1200 (60000 / bpm)) in
  250 <= r <= 1200 /\ (250 <= 60000 / bpm <= 1200 -> r == 60000 / bpm).
Proof.
  intros _. cbn zeta.
  destruct (Math_min_case 1200 (60000 / bpm)) as [[H1 ->] | [H1 ->]];
    [destruct (Math_max_case 250 1200) as [[H2 ->] | [H2 ->]]
    | destruct (Math_max_case 250 (60000 / bpm)) as [[H2 ->] | [H2 ->]]];
    repeat split; intros; lra.
Qed.

(** X6. The length of the beat animation always lies between 250 ms and
    1200 ms. With no BPM known it is 500 ms (120 beats a minute); with one
    BPM known it is the beat length of that BPM, 60000 / BPM, and with both
    known that of their average, whenever that length lies within the
    bounds. *)
Theorem beatMs_range (s : App) :
  250 <= beatMs s <= 1200 /\
  (bpmA s = None -> bpmB s = None -> beatMs s == 500) /\
  (forall x, (bpmA s = Some x /\ bpmB s = None) \/ (bpmA s = None /\ bpmB s = Some x) ->
     50 <= x <= 240 -> beatMs s == 60000 / x) /\
  (forall x y, bpmA s = Some x -> bpmB s = Some y ->
     100 <= x + y <= 480 -> beatMs s == 120000 / (x + y)).
Proof.
  assert (K : forall bpm,
             let r := if falsy bpm then Math_max 250 1200
                      else Math_max 250 (Math_min 1200 (60000 / bpm)) in
             250 <= r <= 1200 /\ (250 <= 60000 / bpm <= 1200 -> ~ bpm == 0 -> r == 60000 / bpm)).
  { intros bpm. cbn zeta. destruct (falsy bpm) eqn:F.
    - split; [split; intros H; discriminate H|].
      intros _ H0. apply falsy_true in F. contradiction.
    - apply falsy_false in F. destruct (beat_clamp bpm F) as [H1 H2]. split; auto. }
  assert (D : forall x, 50 <= x <= 240 -> 250 <= 60000 / x <= 1200).
  { intros x [H1 H2]. assert (Hx : 0 < x) by lra. split.
    - apply Qle_shift_div_l; [exact Hx | lra].
    - apply Qle_shift_div_r; [exact Hx | lra]. }
  unfold beatMs, known_bpms. cbn [omap list_omap id].
  split; [|split; [|split]].
  - destruct (bpmA s), (bpmB s); cbn [omap list_omap id]; apply K.
  - intros -> ->. reflexivity.
  - intros x [[-> ->] | [-> ->]] Hx; cbn [length sum_numbers foldl];
      assert (Hx0 : ~ x == 0) by lra;
      assert (E : (0 + x) / inject_Z (Z.of_nat 1) == x) by (field);
      (destruct (K ((0 + x) / inject_Z (Z.of_nat 1))) as [_ H]; cbn zeta in H;
       rewrite H; [now rewrite E | rewrite E; now apply D | now rewrite E]).
  - intros x y -> -> Hxy. cbn [length sum_numbers foldl].
    assert (Hx0 : ~ x + y == 0) by lra.
    assert (E : (0 + x + y) / inject_Z (Z.of_nat 2) == (x + y) / 2) by (field).
    assert (Hh : 50 <= (x + y) / 2 <= 240).
    { assert (E2 : (x + y) / 2 == (x + y) * (1 # 2)) by field. rewrite E2. lra. }
    assert (Hh0 : ~ (x + y) / 2 == 0) by lra.
    destruct (K ((0 + x + y) / inject_Z (Z.of_nat 2))) as [_ H]. cbn zeta in H.
    rewrite H.
    + rewrite E. field. exact Hx0.
    + rewrite E. now apply D.
    + now rewrite E.
Qed.

Lemma beatMs_range_witness :
  beatMs initial == 500 /\
  beatMs (setBpm DeckA (Some 100) initial) == 600 /\
  beatMs (setBpm DeckB (Some 140) (setBpm DeckA (Some 100) initial)) == 500.
Proof.
  split; [|split].
  - apply (proj1 (proj2 (beatMs_range initial))); reflexivity.
  - assert (H : beatMs (setBpm DeckA (Some 100) initial) == 60000 / 100).
    { apply (proj1 (proj2 (proj2 (beatMs_range (setBpm DeckA (Some 100) initial))))).
      - left. split; reflexivity.
      - split; intros H; discriminate H. }
    rewrite H. reflexivity.
  - assert (H : beatMs (setBpm DeckB (Some 140) (setBpm DeckA (Some 100) initial))
                == 120000 / (100 + 140)).
    { apply (proj2 (proj2 (proj2
               (beatMs_range (setBpm DeckB (Some 140) (setBpm DeckA (Some 100) initial)))))).
      - reflexivity.
      - reflexivity.
      - split; intros H; discriminate H. }
    rewrite H. reflexivity.
Defined.

(** X7. A deck has a beat grid exactly when its BPM and the duration of its
    track are known and positive. The width of a beat, in percent of the
    waveform, is then 6000 / (duration * BPM), but never less than 1.5; as
    long as the track has at most 66 beats (duration * BPM <= 4000) the
    beats fill the waveform exactly. *)
Theorem beatSize_grid (bpm : option number) (duration : number) :
  (bpm = None \/ duration == 0 \/ (exists b, bpm = Some b /\ b == 0) ->
     beatSize bpm duration = None) /\
  (forall b, bpm = Some b -> 0 < b -> 0 < duration ->
     exists p, beatSize bpm duration = Some p /\
               1.5 <= p /\
               (duration * b <= 4000 -> p * (duration / (60 / b)) == 100) /\
               (4000 <= duration * b -> p == 1.5)).
Proof.
  split.
  - intros [-> | [H | (b & -> & H)]]; [reflexivity | |].
    + destruct bpm as [b|]; [|reflexivity]. cbn [beatSize].
      apply falsy_true in H. rewrite H, orb_true_r. reflexivity.
    + cbn [beatSize]. apply falsy_true in H. rewrite H. reflexivity.
  - intros b -> Hb Hd. cbn [beatSize].
    assert (Hb0 : ~ b == 0) by lra. assert (Hd0 : ~ duration == 0) by lra.
    apply falsy_false in Hb0, Hd0. rewrite Hb0, Hd0. cbn [orb].
    apply falsy_false in Hb0, Hd0. cbn zeta.
    assert (Eb : duration / (60 / b) == duration * b / 60) by (field; exact Hb0).
    assert (Hdb : 0 < duration * b) by (apply Qmult_lt_0_compat; assumption).
    assert (Hbeats : 0 < duration / (60 / b)).
    { rewrite Eb. apply Qlt_shift_div_l; lra. }
    destruct (Qle_bool (duration / (60 / b)) 0) eqn:Hle.
    { apply Qle_bool_iff in Hle. lra. }
    eexists. split; [reflexivity|].
    assert (E100 : 100 / (duration / (60 / b)) == 6000 / (duration * b)).
    { field. repeat split; first [assumption | lra]. }
    destruct (Math_max_case 1.5 (100 / (duration / (60 / b)))) as [[H1 ->] | [H1 ->]].
    + split; [exact H1|]. split.
      * intros _. field. repeat split; first [assumption | lra].
      * intros H4. rewrite E100 in H1 |- *.
        assert (H6 : 6000 / (duration * b) <= 1.5).
        { apply Qle_shift_div_r; [exact Hdb | lra]. }
        lra.
    + split; [lra|]. split.
      * intros H4. rewrite E100 in H1.
        assert (H6 : 1.5 <= 6000 / (duration * b)).
        { apply Qle_shift_div_l; [exact Hdb | lra]. }
        lra.
      * intros _. reflexivity.
Qed.

Lemma beatSize_grid_witness :
  beatSize None 180 = None /\
  (exists p, beatSize (Some 120) 20 = Some p /\ p * (20 / (60 / 120)) == 100) /\
  (exists p, beatSize (Some 120) 180 = Some p /\ p == 1.5).
Proof.
  split; [|split].
  - apply (proj1 (beatSize_grid None 180)). left. reflexivity.
  - destruct (proj2 (beatSize_grid (Some 120) 20) 120 eq_refl) as (p & Hp & _ & H & _);
      [reflexivity | reflexivity |].
    exists p. split; [exact Hp|]. apply H. intros H'; discriminate H'.
  - destruct (proj2 (beatSize_grid (Some 120) 180) 120 eq_refl) as (p & Hp & _ & _ & H);
      [reflexivity | reflexivity |].
    exists p. split; [exact Hp|]. apply H. intros H'; discriminate H'.
Defined.

(** ** MIDI controllers and messages left alone *)

Lemma cc_value_bounds (data2 : Z) :
  (0 <= data2 <= 127)%Z ->
  (0 <= Math_round (inject_Z data2 / 127 * 100)%Q <= 100)%Z.
Proof.
  intros [Hl Hu].
  assert (Q1 : 0 <= inject_Z data2) by (change 0 with (inject_Z 0); now rewrite <- Zle_Qle).
  assert (Q2 : inject_Z data2 <= 127) by (change 127 with (inject_Z 127); now rewrite <- Zle_Qle).
  assert (E : inject_Z data2 / 127 * 100 == inject_Z data2 * (100 # 127)) by field.
  rewrite (Math_round_comp _ _ E).
  destruct (Math_round_bounds (inject_Z data2 * (100 # 127))) as [Hb1 Hb2].
  set (r := Math_round (inject_Z data2 * (100 # 127))) in *.
  assert (X1 : inject_Z data2 * (100 # 127) <= 100) by lra.
  assert (X0 : 0 <= inject_Z data2 * (100 # 127)) by lra.
  split.
  - assert (H : inject_Z (-1) < inject_Z r + 0) by (change (inject_Z (-1)) with (-1); lra).
    rewrite Qplus_0_r in H. rewrite <- Zlt_Qlt in H. lia.
  - assert (H : inject_Z r + 0 < inject_Z 101) by (change (inject_Z 101) with 101; lra).
    rewrite Qplus_0_r in H. rewrite <- Zlt_Qlt in H. lia.
Qed.

Lemma Math_round_mono (x y : number) : x <= y -> (Math_round x <= Math_round y)%Z.
Proof.
  intros H. unfold Math_round. apply Qfloor_resp_le. lra.
Qed.

(** X8. A control-change message (command 0xB0) only ever moves the
    crossfader and the master, and never starts a deck, toggles an effect or
    the recording. The value it sets, [Math.round(data2 / 127 * 100)], is a
    whole number from 0 to 100 for a data byte from 0 to 127, is 0 for 0 and
    100 for 127, and grows with the data byte. *)
Theorem onmidimessage_control_change (m : MidiMap) (status data1 data2 : Z) (rest : list Z) :
  Z.land status 240 = 176%Z ->
  let v := Math_round (inject_Z data2 / 127 * 100) in
  onmidimessage m (Some (status :: data1 :: data2 :: rest))
  = when (data1 =? mm_crossfader m)%Z (CallSetCrossfader v) ++
    when (data1 =? mm_master m)%Z (CallSetMaster v) /\
  ((0 <= data2 <= 127)%Z -> (0 <= v <= 100)%Z) /\
  (data2 = 0%Z -> v = 0%Z) /\ (data2 = 127%Z -> v = 100%Z) /\
  (forall data2', (data2 <= data2')%Z ->
     (v <= Math_round (inject_Z data2' / 127 * 100)%Q)%Z).
Proof.
  intros Hc. cbn zeta. split; [|split; [|split; [|split]]].
  - unfold onmidimessage. cbn zeta. rewrite Hc. reflexivity.
  - apply cc_value_bounds.
  - intros ->. reflexivity.
  - intros ->. reflexivity.
  - intros d Hd. apply Math_round_mono.
    assert (Q1 : inject_Z data2 <= inject_Z d) by now rewrite <- Zle_Qle.
    assert (E : forall z, inject_Z z / 127 * 100 == inject_Z z * (100 # 127))
      by (intros z; field).
    rewrite !E. lra.
Qed.

Lemma onmidimessage_control_change_witness :
  onmidimessage DEFAULT_MIDI (Some [176; 1; 64]%Z) = [CallSetCrossfader 50] /\
  (0 <= Math_round (inject_Z 64 / 127 * 100)%Q <= 100)%Z.
Proof.
  destruct (onmidimessage_control_change DEFAULT_MIDI 176 1 64 [] eq_refl) as (H1 & H2 & _).
  split; [exact H1 | apply H2; lia].
Defined.

(** X9. Messages the handler does not understand are dropped: for a message
    without data, one of fewer than three bytes, or one whose command is
    neither note-on (0x90) nor control-change (0xB0), no handler is called
    and the application stays as it is. *)
Theorem onmidimessage_ignored (seen : App) (connect_ok : bool) (data : option (list Z))
    (s : App) :
  data = None \/
  (exists l, data = Some l /\ (length l < 3)%nat) \/
  (exists status l, data = Some (status :: l) /\
     Z.land status 240 <> 144%Z /\ Z.land status 240 <> 176%Z) ->
  onmidimessage (midiMap seen) data = [] /\
  step (EvMidi seen connect_ok data) s = s.
Proof.
  intros H.
  assert (E : onmidimessage (midiMap seen) data = []).
  { destruct H as [-> | [(l & -> & Hl) | (status & l & -> & H1 & H2)]].
    - reflexivity.
    - destruct l as [|a [|b [|c l]]]; try reflexivity. cbn [length] in Hl. lia.
    - destruct l as [|b [|c l]]; try reflexivity.
      unfold onmidimessage. cbn zeta.
      apply Z.eqb_neq in H1, H2. rewrite H1, H2. reflexivity. }
  split; [exact E|]. cbn [step]. rewrite E. reflexivity.
Qed.

Lemma onmidimessage_ignored_witness :
  step (EvMidi initial true (Some [128; 60; 0]%Z)) initial = initial /\
  step (EvMidi initial true (Some [144; 60]%Z)) initial = initial.
Proof.
  split.
  - apply (onmidimessage_ignored initial true (Some [128; 60; 0]%Z) initial).
    right. right. exists 128%Z, [60; 0]%Z. split; [reflexivity|]. split; discriminate.
  - apply (onmidimessage_ignored initial true (Some [144; 60]%Z) initial).
    right. left. exists [144; 60]%Z. split; [reflexivity | cbn; lia].
Defined.

(** ** A take *)

Lemma foldl_ondataavailable (blobs : list Blob) (s : App) :
  let s' := foldl (fun s b => ondataavailable b s) s blobs in
  recordChunksRef (rec s')
  = recordChunksRef (rec s) ++ filter (fun b => (0 < size b)%Z) blobs /\
  recording (rec s') = recording (rec s) /\
  recorderRef (rec s') = recorderRef (rec s) /\
  recordedUrl (rec s') = recordedUrl (rec s) /\
  audio s' = audio s /\ waveARef s' = waveARef s.
Proof.
  cbn zeta. revert s. induction blobs as [|b blobs IH]; intros s.
  - cbn [foldl]. rewrite filter_nil, app_nil_r. repeat split.
  - cbn [foldl]. destruct (IH (ondataavailable b s)) as (E1 & E2 & E3 & E4 & E5 & E6).
    rewrite E1, E2, E3, E4, E5, E6. rewrite filter_cons.
    unfold ondataavailable. destruct (Z.ltb_spec 0 (size b)) as [Hp | Hp].
    + rewrite decide_True by exact Hp. cbn [rec set_rec recordChunksRef recording
        recorderRef recordedUrl audio]. rewrite <- app_assoc. repeat split.
    + rewrite decide_False by lia. repeat split.
Qed.

Lemma playClick_context (s : App) : audioCtxRef (audio (playClick s)) <> None.
Proof. unfold playClick. destruct (audioCtxRef (audio s)); discriminate. Qed.

Lemma playClick_waveARef (s : App) : waveARef (playClick s) = waveARef s.
Proof. unfold waveARef. change (deckA ?x) with (getDeck DeckA x). now rewrite playClick_getDeck. Qed.

(** X10. A take, from start to file. With an audio context at hand and
    the capture sink connected, a record toggle by a handler that reads
    [recording] as false (the record button while idle, or a MIDI callback
    installed while idle) starts a take on an empty chunk buffer, whatever
    an earlier take left there; the chunks that arrive before and after the
    stop are kept in order of arrival, the empty ones dropped; a toggle by
    a handler that reads [recording] as true (the record button of the
    current render) stops the recorder and clears the flag; and the file
    made when the recorder has stopped holds exactly the kept chunks of
    this take. *)
Theorem recording_take (s : App) (before after : list Blob) :
  (exists w ac, waveARef s = Some w /\ backend_ac w = Some ac) \/
  audioCtxRef (audio s) <> None ->
  let feed := foldl (fun s b => ondataavailable b s) in
  let s1 := toggleRecord_in false true s in
  let s2 := feed s1 before in
  let s3 := toggleRecord_in true true s2 in
  let s4 := onstop (feed s3 after) in
  recording (rec s1) = true /\ recordChunksRef (rec s1) = [] /\
  (rec_active <$> recorderRef (rec s1)) = Some true /\
  recording (rec s3) = false /\
  (rec_active <$> recorderRef (rec s3)) = Some false /\
  recording (rec s4) = false /\
  recordedUrl (rec s4) = Some (filter (fun b => (0 < size b)%Z) (before ++ after)) /\
  (recording (rec s) = false -> toggleRecord true s = s1) /\
  toggleRecord true s2 = s3.
Proof.
  intros Hctx. cbn zeta.
  assert (E1 : exists r a,
             toggleRecord_in false true s
             = playClick (set_rec {| recording := true; recorderRef := Some r;
                                     recordChunksRef := [];
                                     recordedUrl := recordedUrl (rec s) |} a) /\
             rec_active r = true).
  { unfold toggleRecord_in.
    destruct Hctx as [(w & ac & Hw & Hac) | Hc].
    - rewrite Hw, Hac. cbn [negb]. cbv iota beta.
      eexists _, _. split; reflexivity.
    - destruct (waveARef s) as [w|] eqn:Hw.
      + destruct (backend_ac w) as [ac|].
        * eexists _, _. split; reflexivity.
        * destruct (audioCtxRef (audio s)) as [ac|]; [|congruence].
          eexists _, _. split; reflexivity.
      + destruct (audioCtxRef (audio s)) as [ac|]; [|congruence].
        eexists _, _. split; reflexivity. }
  destruct E1 as (r & a & E1 & Hr).
  assert (B1 : recording (rec s) = false ->
               toggleRecord true s = toggleRecord_in false true s).
  { intros Hidle. unfold toggleRecord. now rewrite Hidle. }
  rewrite E1 in *.
  set (s1 := playClick _) in *.
  assert (R1 : rec s1 = {| recording := true; recorderRef := Some r;
                           recordChunksRef := [];
                           recordedUrl := recordedUrl (rec s) |}).
  { unfold s1. rewrite playClick_rec. reflexivity. }
  assert (C1 : audioCtxRef (audio s1) <> None) by apply playClick_context.
  destruct (foldl_ondataavailable before s1) as (F1 & F2 & F3 & F4 & F5 & F6).
  cbn zeta in *.
  set (s2 := foldl (fun s b => ondataavailable b s) s1 before) in *.
  assert (E3 : toggleRecord_in true true s2
               = playClick
                   (set_rec {| recording := false;
                               recorderRef := MediaRecorder_stop <$> recorderRef (rec s2);
                               recordChunksRef := recordChunksRef (rec s2);
                               recordedUrl := recordedUrl (rec s2) |} s2)).
  { unfold toggleRecord_in. rewrite F5.
    destruct (match waveARef s2 with Some w => backend_ac w | None => None end);
      [reflexivity|].
    destruct (audioCtxRef (audio s1)); [reflexivity | congruence]. }
  assert (B3 : toggleRecord true s2 = toggleRecord_in true true s2).
  { unfold toggleRecord. rewrite F2, R1. reflexivity. }
  rewrite B3, E3. set (s3 := playClick _).
  assert (R3 : rec s3 = {| recording := false;
                           recorderRef := MediaRecorder_stop <$> recorderRef (rec s2);
                           recordChunksRef := recordChunksRef (rec s2);
                           recordedUrl := recordedUrl (rec s2) |}).
  { unfold s3. rewrite playClick_rec. reflexivity. }
  destruct (foldl_ondataavailable after s3) as (G1 & G2 & G3 & G4 & G5 & G6).
  cbn zeta in *.
  rewrite R1, R3. cbn [recording recordChunksRef recorderRef].
  rewrite F3, R1. cbn [recorderRef fmap option_fmap option_map MediaRecorder_stop rec_active].
  rewrite Hr. repeat split.
  - unfold onstop. cbn [rec set_rec recording]. rewrite G2, R3. reflexivity.
  - unfold onstop. cbn [rec set_rec recordedUrl]. rewrite G1, R3.
    cbn [recordChunksRef]. rewrite F1, R1. cbn [recordChunksRef app].
    now rewrite filter_app.
  - exact B1.
Qed.

Lemma recording_take_witness :
  let s := run [EvMount; EvTogglePlay DeckA] initial in
  let feed := foldl (fun s b => ondataavailable b s) in
  recordedUrl
    (rec (onstop (feed (toggleRecord_in true true
                          (feed (toggleRecord_in false true s)
                             [{| size := 10 |}; {| size := 0 |}]))
                       [{| size := 7 |}])))
  = Some [{| size := 10 |}; {| size := 7 |}].
Proof.
  cbn zeta.
  pose (s := run [EvMount; EvTogglePlay DeckA] initial).
  assert (Hc : (exists w ac, waveARef s = Some w /\ backend_ac w = Some ac) \/
               audioCtxRef (audio s) <> None) by (right; discriminate).
  exact (proj1 (proj2 (proj2 (proj2 (proj2 (proj2 (proj2
           (recording_take s [{| size := 10 |}; {| size := 0 |}] [{| size := 7 |}]
              Hc)))))))).
Defined.

(** ** Presets and sessions *)

Section Lists.

Context {A : Type} (key : A -> string).

Lemma find_by_app (name : string) (l k : list A) :
  find_by key name (l ++ k)
  = match find_by key name l with
    | Some p => Some p
    | None => find_by key name k
    end.
Proof.
  induction l as [|p l IH]; [reflexivity|]. cbn [app find_by].
  destruct (decide (key p = name)); [reflexivity | exact IH].
Qed.

Lemma find_by_without_eq (name : string) (l : list A) :
  find_by key name (without key name l) = None.
Proof.
  unfold without. induction l as [|p l IH]; [reflexivity|]. rewrite filter_cons.
  destruct (decide (key p <> name)) as [Hne | He]; [|exact IH].
  cbn [find_by]. rewrite decide_False by exact Hne. exact IH.
Qed.

Lemma find_by_without_ne (name name' : string) (l : list A) :
  name' <> name -> find_by key name' (without key name l) = find_by key name' l.
Proof.
  intros Hn. unfold without. induction l as [|p l IH]; [reflexivity|]. rewrite filter_cons.
  destruct (decide (key p <> name)) as [Hne | He].
  - cbn [find_by]. destruct (decide (key p = name')); [reflexivity | exact IH].
  - cbn [find_by]. rewrite decide_False; [exact IH|].
    intros E. apply He. congruence.
Qed.

Lemma find_by_None (name : string) (l : list A) :
  find_by key name l = None <-> name ∉ (key <$> l).
Proof.
  induction l as [|p l IH]; cbn [find_by fmap list_fmap].
  - split; [intros _; apply not_elem_of_nil | reflexivity].
  - rewrite not_elem_of_cons. destruct (decide (key p = name)) as [E | Hne].
    + split; [discriminate | intros [H _]; congruence].
    + rewrite IH. split; [intros H; split; [congruence | exact H] | tauto].
Qed.

Lemma find_by_key (name : string) (l : list A) (p : A) :
  find_by key name l = Some p -> key p = name /\ p ∈ l.
Proof.
  induction l as [|q l IH]; cbn [find_by]; [discriminate|].
  destruct (decide (key q = name)) as [E | Hne].
  - intros [= <-]. split; [exact E | apply elem_of_cons; now left].
  - intros H. destruct (IH H) as [H1 H2]. split; [exact H1 | apply elem_of_cons; now right].
Qed.

(** The list after a save: the entries of other names, then the new one. *)
Lemma saved_find (name : string) (l : list A) (p : A) :
  key p = name ->
  find_by key name (without key name l ++ [p]) = Some p /\
  forall name', name' <> name ->
    find_by key name' (without key name l ++ [p]) = find_by key name' l.
Proof.
  intros Hp. split.
  - rewrite find_by_app, find_by_without_eq. cbn [find_by]. now rewrite decide_True.
  - intros name' Hne. rewrite find_by_app, (find_by_without_ne _ _ _ Hne).
    destruct (find_by key name' l); [reflexivity|].
    cbn [find_by]. rewrite decide_False; [reflexivity | congruence].
Qed.

Lemma saved_NoDup (name : string) (l : list A) (p : A) :
  key p = name -> NoDup (key <$> l) -> NoDup (key <$> (without key name l ++ [p])).
Proof.
  intros Hp Hl. rewrite fmap_app. apply NoDup_app. split; [|split].
  - unfold without. induction l as [|q l IH]; [constructor|].
    cbn [fmap list_fmap] in Hl. apply NoDup_cons in Hl as [Hq Hl].
    rewrite filter_cons. destruct (decide (key q <> name)); [|now apply IH].
    cbn [fmap list_fmap]. apply NoDup_cons. split; [|now apply IH].
    intros Hin. apply Hq. apply list_elem_of_fmap in Hin as (x & Hx & Hin).
    apply list_elem_of_fmap. exists x. split; [exact Hx|].
    apply list_elem_of_filter in Hin. tauto.
  - intros x Hx Hx'. cbn [fmap list_fmap] in Hx'. apply list_elem_of_singleton in Hx'.
    apply list_elem_of_fmap in Hx as (q & Hq & Hin).
    apply list_elem_of_filter in Hin as [Hne _]. congruence.
  - cbn [fmap list_fmap]. apply NoDup_singleton.
Qed.

Lemma without_length (name : string) (l : list A) :
  (length (without key name l) <= length l)%nat.
Proof. apply length_filter. Qed.

End Lists.

Section Saving.

Variable trim : string -> string.

(** X11. An effect preset comes back as it was saved. After saving the
    effects of a deck under a name (not blank once trimmed), applying the
    preset of that name to the deck, at any later time, gives the deck the
    flags and the wet amounts it had when the preset was saved, and leaves
    the other deck alone; the presets of other names are found as before,
    and the name field is cleared. *)
Theorem saveFxPreset_round_trip (deck : DeckId) (s : App) (u : Settings) (later : App) :
  trim (fxPresetName deck u) <> EmptyString ->
  let name := trim (fxPresetName deck u) in
  let u' := saveFxPreset trim deck s u in
  let s' := applyFxPreset deck name u' later in
  fx (getDeck deck s') = fx (getDeck deck s) /\
  wet (getDeck deck s') = wet (getDeck deck s) /\
  getDeck (other_deck deck) s' = getDeck (other_deck deck) later /\
  (forall name', name' <> name ->
     find_by fp_name name' (fxPresets deck u') = find_by fp_name name' (fxPresets deck u)) /\
  fxPresets (other_deck deck) u' = fxPresets (other_deck deck) u /\
  fxPresetName deck u' = EmptyString.
Proof.
  intros Hname. cbn zeta. unfold saveFxPreset. rewrite decide_False by exact Hname.
  set (name := trim (fxPresetName deck u)) in *.
  set (payload := {| fp_name := name; fp_fx := fx (getDeck deck s);
                     fp_wet := wet (getDeck deck s) |}).
  assert (El : fxPresets deck (set_fxPresets deck
                 (without fp_name name (fxPresets deck u) ++ [payload]) EmptyString u)
               = without fp_name name (fxPresets deck u) ++ [payload])
    by (destruct deck; reflexivity).
  destruct (saved_find fp_name name (fxPresets deck u) payload eq_refl) as [F1 F2].
  unfold applyFxPreset. rewrite El, F1.
  rewrite getDeck_set_deck_eq, getDeck_set_deck_ne by apply other_deck_ne.
  repeat split; try (destruct deck; reflexivity). exact F2.
Qed.

(** X12. A MIDI map comes back as it was saved: applying the preset of
    the name it was saved under sets the map in force to the map that was
    in force at the time of saving. The presets of other names are found
    as before, and applying a name that no preset has changes nothing. *)
Theorem savePreset_round_trip (s : App) (u : Settings) (later : App) :
  trim (presetName u) <> EmptyString ->
  let name := trim (presetName u) in
  let u' := savePreset trim s u in
  midiMap (applyPreset name u' later) = midiMap s /\
  (forall name', name' <> name ->
     find_by fst name' (presets u') = find_by fst name' (presets u)) /\
  (forall name', name' ∉ (fst <$> presets u') -> applyPreset name' u' later = later).
Proof.
  intros Hname. cbn zeta. unfold savePreset. rewrite decide_False by exact Hname.
  set (name := trim (presetName u)) in *.
  destruct (saved_find fst name (presets u) (name, midiMap s) eq_refl) as [F1 F2].
  unfold applyPreset. cbn [presets set_presets]. rewrite F1. split; [reflexivity|].
  split; [exact F2|].
  intros name' Hn. apply find_by_None in Hn. now rewrite Hn.
Qed.

(** X13. What a session brings back. Loading a session under the name it
    was saved with restores, on both decks, the effect flags and the wet
    amounts, and the crossfader, the master, beat-snap, the MIDI map and
    the two display modes, as they were at the time of saving; a BPM is
    restored only if it was known then, and a track name only if there was
    one, otherwise the present value stays. All this holds after the
    handler and still after the effect that the restored flags and wet
    amounts start, and neither of the two touches the tempo, the position,
    playing state, rate and duration of the transports, the recording
    state or the last tap. The handler itself leaves the audio nodes and
    the chains as they are; the effect then gives every deck that has a
    transport and a context the chain of the restored flags. *)
Theorem saveSession_round_trip (now : string) (s : App) (u : Settings)
    (later : App) (u2 : Settings) :
  trim (sessionName u) <> EmptyString ->
  sessions u2 = sessions (saveSession trim now s u) ->
  let name := trim (sessionName u) in
  let s1 := fst (loadSession name (later, u2)) in
  let s2 := fx_effect s1 in
  let u' := snd (loadSession name (later, u2)) in
  (forall s', s' = s1 \/ s' = s2 ->
     (forall deck,
        fx (getDeck deck s') = fx (getDeck deck s) /\
        wet (getDeck deck s') = wet (getDeck deck s) /\
        bpm (getDeck deck s')
        = match bpm (getDeck deck s) with
          | Some b => Some b
          | None => bpm (getDeck deck later)
          end /\
        tempo (getDeck deck s') = tempo (getDeck deck later) /\
        transport <$> wave (getDeck deck s') = transport <$> wave (getDeck deck later)) /\
     crossfader s' = crossfader s /\ master s' = master s /\
     beatSnap s' = beatSnap s /\ midiMap s' = midiMap s /\
     rec s' = rec later /\ lastTap s' = lastTap later) /\
  (forall deck,
     wave (getDeck deck s1) = wave (getDeck deck later) /\
     nodes (getDeck deck s1) = nodes (getDeck deck later)) /\
  audio s1 = audio later /\
  (app_ok later ->
   forall deck w ac,
     wave (getDeck deck later) = Some w -> backend_ac w = Some ac ->
     getFilters <$> wave (getDeck deck s2)
     = Some (chain_of (fx (getDeck deck s)) (nodes (getDeck deck s2)))) /\
  performanceMode u' = performanceMode u /\ darkMode u' = darkMode u /\
  deckATrackName u'
  = match deckATrackName u with
    | Some n => if decide (n = EmptyString) then deckATrackName u2 else Some n
    | None => deckATrackName u2
    end /\
  deckBTrackName u'
  = match deckBTrackName u with
    | Some n => if decide (n = EmptyString) then deckBTrackName u2 else Some n
    | None => deckBTrackName u2
    end /\
  sessions u' = sessions u2.
Proof.
  intros Hname Hu2. cbn zeta. unfold loadSession. rewrite Hu2.
  unfold saveSession. rewrite decide_False by exact Hname.
  set (name := trim (sessionName u)) in *.
  cbn [sessions set_sessions].
  match goal with
  | |- context [without ss_name name (sessions u) ++ [?p]] => set (payload := p)
  end.
  destruct (saved_find ss_name name (sessions u) payload eq_refl) as [F1 _].
  rewrite F1. cbn [fst snd]. unfold payload.
  cbn [ss_fxA ss_fxB ss_wetA ss_wetB ss_deckA ss_deckB ss_crossfader ss_master
       ss_beatSnap ss_midiMap ss_performanceMode ss_darkMode session_bpm
       session_trackName di_bpm trackName performanceMode darkMode deckATrackName
       deckBTrackName sessions].
  match goal with |- context [fx_effect ?x] => set (s1 := x) end.
  assert (D1 : forall deck,
             fx (getDeck deck s1) = fx (getDeck deck s) /\
             wet (getDeck deck s1) = wet (getDeck deck s) /\
             bpm (getDeck deck s1)
             = match bpm (getDeck deck s) with
               | Some b => Some b
               | None => bpm (getDeck deck later)
               end /\
             tempo (getDeck deck s1) = tempo (getDeck deck later) /\
             wave (getDeck deck s1) = wave (getDeck deck later) /\
             nodes (getDeck deck s1) = nodes (getDeck deck later)).
  { intros []; subst s1;
      cbn [getDeck deckA deckB fx wet bpm tempo wave nodes set_bpm set_wetState set_fxState];
      unfold bpmA, bpmB, fxA, fxB, wetA, wetB; repeat split; try reflexivity;
      match goal with |- context [match ?b with _ => _ end] => destruct b; reflexivity end. }
  destruct (graph_only_fx_effect s1) as [GD (G1 & G2 & G3 & G4 & G5 & G6)].
  split.
  { intros s' [-> | ->].
    - split.
      + intros deck. destruct (D1 deck) as (P1 & P2 & P3 & P4 & P5 & _).
        rewrite P5. repeat split; assumption.
      + repeat split.
    - split.
      + intros deck. destruct (D1 deck) as (P1 & P2 & P3 & P4 & P5 & _).
        destruct (GD deck) as (Q1 & Q2 & Q3 & Q4 & Q5).
        rewrite Q1, Q2, Q3, Q4, Q5, P5. repeat split; assumption.
      + rewrite G1, G2, G3, G4, G5, G6. repeat split. }
  split; [intros deck; destruct (D1 deck) as (_ & _ & _ & _ & P5 & P6); now split|].
  split; [reflexivity|].
  split; [|repeat split;
           match goal with
           | |- context [match ?b with _ => _ end] => destruct b; reflexivity
           | |- _ => reflexivity
           end].
  intros Hok deck w ac Hw Hac.
  assert (H1 : app_ok s1).
  { apply app_ok_deck. intros d. destruct (D1 d) as (_ & _ & _ & _ & _ & P6).
    rewrite P6. change (audio s1) with (audio later). now apply app_ok_deck. }
  destruct (D1 deck) as (P1 & _ & _ & _ & P5 & _).
  rewrite (fx_effect_chain deck s1 w ac H1) by (rewrite ?P5; assumption).
  cbn [fmap option_fmap option_map getFilters setFilters]. now rewrite P1.
Qed.

(** X14. Saving never leaves two entries of one name in a list: if the
    names of the effect presets of each deck, of the MIDI presets and of
    the sessions are pairwise distinct, they are so after any of the
    three save handlers; the lists the application starts with have
    distinct names. Saving under a name in use replaces that entry, so a
    list grows by one entry at most. *)
Theorem save_names_unique (deck : DeckId) (now : string) (s : App) (u : Settings) :
  names_unique initial_settings /\
  (names_unique u ->
     names_unique (saveFxPreset trim deck s u) /\
     names_unique (savePreset trim s u) /\
     names_unique (saveSession trim now s u)) /\
  (length (fxPresets deck (saveFxPreset trim deck s u)) <= S (length (fxPresets deck u)))%nat /\
  (length (presets (savePreset trim s u)) <= S (length (presets u)))%nat /\
  (length (sessions (saveSession trim now s u)) <= S (length (sessions u)))%nat.
Proof.
  split; [|split; [|split; [|split]]].
  - repeat split; cbn; compute_done.
  - intros (HA & HB & HP & HS). unfold saveFxPreset, savePreset, saveSession.
    split; [|split].
    + destruct (decide (trim (fxPresetName deck u) = EmptyString));
        [repeat split; assumption|].
      destruct deck; repeat split; cbn [fxPresetsA fxPresetsB presets sessions set_fxPresets
                                        fxPresets];
        try assumption; now apply saved_NoDup.
    + destruct (decide (trim (presetName u) = EmptyString)); [repeat split; assumption|].
      repeat split; cbn [fxPresetsA fxPresetsB presets sessions set_presets];
        try assumption; now apply saved_NoDup.
    + destruct (decide (trim (sessionName u) = EmptyString)); [repeat split; assumption|].
      repeat split; cbn [fxPresetsA fxPresetsB presets sessions set_sessions];
        try assumption; now apply saved_NoDup.
  - unfold saveFxPreset. destruct (decide _); [lia|].
    replace (fxPresets deck (set_fxPresets deck _ EmptyString u))
      with (without fp_name (trim (fxPresetName deck u)) (fxPresets deck u) ++
            [{| fp_name := trim (fxPresetName deck u); fp_fx := fx (getDeck deck s);
                fp_wet := wet (getDeck deck s) |}])
      by (destruct deck; reflexivity).
    rewrite length_app. cbn [length].
    pose proof (without_length fp_name (trim (fxPresetName deck u)) (fxPresets deck u)). lia.
  - unfold savePreset. destruct (decide _); [lia|]. cbn [presets set_presets].
    rewrite length_app. cbn [length].
    pose proof (without_length fst (trim (presetName u)) (presets u)). lia.
  - unfold saveSession. destruct (decide _); [lia|]. cbn [sessions set_sessions].
    rewrite length_app. cbn [length].
    pose proof (without_length ss_name (trim (sessionName u)) (sessions u)). lia.
Qed.

End Saving.

Lemma saveFxPreset_round_trip_witness :
  let typed := set_fxPresets DeckA DEFAULT_FX_PRESETS "Mine" initial_settings in
  let s := toggleFx DeckA FxDelay initial in
  fx (getDeck DeckA (applyFxPreset DeckA "Mine" (saveFxPreset id DeckA s typed) initial))
  = fx (getDeck DeckA s).
Proof.
  cbn zeta.
  assert (H : id (fxPresetName DeckA
                    (set_fxPresets DeckA DEFAULT_FX_PRESETS "Mine" initial_settings))
              <> EmptyString) by discriminate.
  exact (proj1 (saveFxPreset_round_trip id DeckA (toggleFx DeckA FxDelay initial)
                  (set_fxPresets DeckA DEFAULT_FX_PRESETS "Mine" initial_settings)
                  initial H)).
Defined.

Lemma savePreset_round_trip_witness :
  let typed := set_presets DEFAULT_PRESETS "Mine" initial_settings in
  let s := setMidiMap COMPACT_MIDI initial in
  midiMap (applyPreset "Mine" (savePreset id s typed) initial) = COMPACT_MIDI /\
  applyPreset "Other" (savePreset id s typed) initial = initial.
Proof.
  cbn zeta.
  assert (H : id (presetName (set_presets DEFAULT_PRESETS "Mine" initial_settings))
              <> EmptyString) by discriminate.
  destruct (savePreset_round_trip id (setMidiMap COMPACT_MIDI initial)
              (set_presets DEFAULT_PRESETS "Mine" initial_settings) initial H)
    as (H1 & _ & H3).
  split; [exact H1|]. apply H3. vm_compute. 
  intros Hin. repeat (apply elem_of_cons in Hin as [Hin | Hin]; [discriminate Hin|]).
  now apply elem_of_nil in Hin.
Defined.

Lemma saveSession_round_trip_witness :
  let typed := set_sessions [] "Gig" initial_settings in
  let s := setBpm DeckA (Some 128) (setCrossfader 30 initial) in
  let u' := saveSession id "2026-01-01T00:00:00.000Z" s typed in
  let s' := fx_effect (fst (loadSession "Gig" (initial, u'))) in
  crossfader s' = 30 /\ bpmA s' = Some 128 /\ bpmB s' = None.
Proof.
  cbn zeta.
  pose (typed := set_sessions [] "Gig" initial_settings).
  pose (s := setBpm DeckA (Some 128) (setCrossfader 30 initial)).
  assert (H : id (sessionName typed) <> EmptyString) by discriminate.
  destruct (saveSession_round_trip id "2026-01-01T00:00:00.000Z" s typed initial
              (saveSession id "2026-01-01T00:00:00.000Z" s typed) H eq_refl)
    as (Hb & _).
  destruct (Hb _ (or_intror eq_refl)) as (Hd & Hc & _).
  split; [exact Hc|]. split.
  - exact (proj1 (proj2 (proj2 (Hd DeckA)))).
  - exact (proj1 (proj2 (proj2 (Hd DeckB)))).
Defined.

Lemma save_names_unique_witness :
  names_unique (saveFxPreset id DeckB initial
                  (set_fxPresets DeckB DEFAULT_FX_PRESETS "Wide" initial_settings)).
Proof.
  destruct (save_names_unique id DeckB EmptyString initial
              (set_fxPresets DeckB DEFAULT_FX_PRESETS "Wide" initial_settings))
    as (H0 & H & _).
  apply H. exact H0.
Defined.

(** X15. A deleted session is gone: loading its name afterwards changes
    nothing, however many entries had that name. The sessions of other
    names are found as before, and nothing but the list of sessions is
    touched. *)
Theorem deleteSession_gone (name : string) (s : App) (u : Settings) :
  let u' := deleteSession name u in
  loadSession name (s, u') = (s, u') /\
  (name ∉ (ss_name <$> sessions u')) /\
  (forall name', name' <> name ->
     find_by ss_name name' (sessions u') = find_by ss_name name' (sessions u)) /\
  set_sessions (sessions u) (sessionName u) u' = u.
Proof.
  cbn zeta. unfold deleteSession, loadSession. cbn [sessions set_sessions].
  rewrite find_by_without_eq. split; [reflexivity|]. split; [|split].
  - apply find_by_None, find_by_without_eq.
  - intros name' Hne. now apply find_by_without_ne.
  - destruct u; reflexivity.
Qed.

Lemma deleteSession_gone_witness :
  let s := setCrossfader 30 initial in
  let u := saveSession id "2026-01-01T00:00:00.000Z" s
             (set_sessions [] "Gig" initial_settings) in
  fst (loadSession "Gig" (initial, u)) <> initial /\
  loadSession "Gig" (initial, deleteSession "Gig" u) = (initial, deleteSession "Gig" u).
Proof.
  cbn zeta. split.
  - intros E. apply (f_equal crossfader) in E. discriminate E.
  - exact (proj1 (deleteSession_gone "Gig" initial
                    (saveSession id "2026-01-01T00:00:00.000Z" (setCrossfader 30 initial)
                       (set_sessions [] "Gig" initial_settings)))).
Defined.

(** ** The spectrum *)

Lemma spectrum_loop_spec (dataA dataB : option (list Z)) (bars n : nat) :
  forall (i : nat) (levels : list number),
    (i + n <= length levels)%nat ->
    exists levels',
      spectrum_loop dataA dataB bars n i levels = Some levels' /\
      length levels' = length levels /\
      forall j,
        levels' !! j
        = if decide (i <= j < i + n)%nat
          then (fun l => Math_max (l * 0.82) (bar_value dataA dataB bars j)) <$> levels !! j
          else levels !! j.
Proof.
  induction n as [|n IH]; intros i levels Hlen.
  - exists levels. split; [reflexivity|]. split; [reflexivity|].
    intros j. rewrite decide_False by lia. reflexivity.
  - cbn [spectrum_loop].
    destruct (levels !! i) as [level|] eqn:El.
    2:{ exfalso. apply lookup_ge_None in El. unfold number in *. lia. }
    set (sm := Math_max (level * 0.82) (bar_value dataA dataB bars i)).
    destruct (IH (S i) (<[i := sm]> levels)) as (levels' & E & L & H).
    { rewrite length_insert. lia. }
    exists levels'. split; [exact E|]. split; [now rewrite L, length_insert|].
    intros j. rewrite H. destruct (decide (j = i)) as [-> | Hne].
    + rewrite decide_False by lia. rewrite decide_True by lia.
      rewrite list_lookup_insert_eq by (apply lookup_lt_Some in El; exact El).
      rewrite El. reflexivity.
    + rewrite !list_lookup_insert_ne by congruence.
      destruct (decide (S i <= j < S i + n)%nat), (decide (i <= j < i + S n)%nat);
        try reflexivity; exfalso; lia.
Qed.

Lemma bin_at_range (data : option (list Z)) (idx : Z) :
  (forall d, data = Some d -> Forall (fun v => (0 <= v <= 255)%Z) d) ->
  0 <= bin_at data idx <= 255.
Proof.
  intros H. unfold bin_at. destruct data as [d|]; [|split; intros E; discriminate E].
  destruct (idx <? 0)%Z; [split; intros E; discriminate E|].
  destruct (d !! Z.to_nat idx) as [v|] eqn:E; [|split; intros E'; discriminate E'].
  pose proof (H d eq_refl) as Hd. rewrite Forall_forall in Hd.
  destruct (Hd v) as [H0 H1]; [eapply list_elem_of_lookup_2; exact E|].
  split.
  - change 0 with (inject_Z 0). now rewrite <- Zle_Qle.
  - change 255 with (inject_Z 255). now rewrite <- Zle_Qle.
Qed.

Lemma bar_value_range (dataA dataB : option (list Z)) (bars i : nat) :
  (forall d, dataA = Some d -> Forall (fun v => (0 <= v <= 255)%Z) d) ->
  (forall d, dataB = Some d -> Forall (fun v => (0 <= v <= 255)%Z) d) ->
  0 <= bar_value dataA dataB bars i <= 1.
Proof.
  intros HA HB. unfold bar_value. cbn zeta.
  set (idx := Qfloor _).
  pose proof (bin_at_range dataA idx HA) as [A0 A1].
  pose proof (bin_at_range dataB idx HB) as [B0 B1].
  destruct (Math_max_case (bin_at dataA idx) (bin_at dataB idx)) as [[_ ->] | [_ ->]].
  - split; [apply Qle_shift_div_l | apply Qle_shift_div_r]; lra.
  - split; [apply Qle_shift_div_l | apply Qle_shift_div_r]; lra.
Qed.

Lemma bar_value_silent (bars i : nat) : bar_value None None bars i == 0.
Proof. unfold bar_value. cbn. reflexivity. Qed.

Lemma spectrum_data_bytes (deck : DeckId) (freq : list Z) (s : App) :
  Forall (fun v => (0 <= v <= 255)%Z) freq ->
  forall d, spectrum_data deck freq s = Some d -> Forall (fun v => (0 <= v <= 255)%Z) d.
Proof.
  intros H d. unfold spectrum_data.
  destruct (n_analyser _); [|discriminate]. destruct (wave _) as [w|]; [|discriminate].
  destruct (isPlaying w); [|discriminate]. now intros [= <-].
Qed.

(** X16. One round of the spectrum. With a level for every bar on screen,
    levels between 0 and 1 and analyser bytes between 0 and 255, each bar
    gets the larger of 0.82 times its level and the byte value of its
    frequency bin over 255: a bar rises at once and never falls by more than
    18 percent a round. The levels stay between 0 and 1, those beyond the
    bars on screen are not touched, and with no deck playing (or no
    analyser yet) every bar falls to exactly 0.82 times its level. *)
Theorem updateSpectrum_levels (bars : nat) (freqA freqB : list Z) (s : App)
    (levels : list number) :
  (bars <= length levels)%nat ->
  Forall (fun l => 0 <= l <= 1) levels ->
  Forall (fun v => (0 <= v <= 255)%Z) freqA ->
  Forall (fun v => (0 <= v <= 255)%Z) freqB ->
  exists levels',
    updateSpectrum bars freqA freqB s levels = Some levels' /\
    length levels' = length levels /\
    Forall (fun l => 0 <= l <= 1) levels' /\
    (forall i old, (i < bars)%nat -> levels !! i = Some old ->
       exists new,
         levels' !! i = Some new /\
         new = Math_max (old * 0.82)
                 (bar_value (spectrum_data DeckA freqA s) (spectrum_data DeckB freqB s) bars i) /\
         old * 0.82 <= new /\
         bar_value (spectrum_data DeckA freqA s) (spectrum_data DeckB freqB s) bars i <= new /\
         (spectrum_data DeckA freqA s = None -> spectrum_data DeckB freqB s = None ->
          new == old * 0.82)) /\
    (forall i, (bars <= i)%nat -> levels' !! i = levels !! i).
Proof.
  intros Hlen Hl HA HB.
  set (dataA := spectrum_data DeckA freqA s). set (dataB := spectrum_data DeckB freqB s).
  assert (HdA := spectrum_data_bytes DeckA freqA s HA). fold dataA in HdA.
  assert (HdB := spectrum_data_bytes DeckB freqB s HB). fold dataB in HdB.
  destruct (spectrum_loop_spec dataA dataB bars bars 0 levels) as (levels' & E & L & H);
    [lia|].
  exists levels'.
  assert (Eu : updateSpectrum bars freqA freqB s levels = Some levels').
  { unfold updateSpectrum. fold dataA dataB. destruct bars; [|exact E].
    cbn [spectrum_loop] in E. exact E. }
  split; [exact Eu|]. split; [exact L|].
  rewrite Forall_forall in Hl.
  split; [|split].
  - apply Forall_forall. intros x Hx. apply list_elem_of_lookup_1 in Hx as [j Hj].
    rewrite H in Hj. destruct (decide (0 <= j < 0 + bars)%nat).
    + destruct (levels !! j) as [old|] eqn:Eo; [|discriminate].
      cbn in Hj. injection Hj as <-.
      destruct (Hl old) as [O0 O1]; [eapply list_elem_of_lookup_2; exact Eo|].
      destruct (bar_value_range dataA dataB bars j HdA HdB) as [V0 V1].
      destruct (Math_max_case (old * 0.82) (bar_value dataA dataB bars j))
        as [[_ ->] | [_ ->]]; lra.
    + apply Hl. eapply list_elem_of_lookup_2; exact Hj.
  - intros i old Hi Eo. rewrite H, decide_True by lia. rewrite Eo. cbn.
    eexists. split; [reflexivity|]. split; [reflexivity|].
    destruct (Math_max_case (old * 0.82) (bar_value dataA dataB bars i))
      as [[Hc ->] | [Hc ->]].
    + split; [exact Hc|]. split; [lra|]. intros EA EB. 
      rewrite EA, EB in Hc |- *. rewrite bar_value_silent in Hc |- *.
      destruct (Hl old) as [O0 O1]; [eapply list_elem_of_lookup_2; exact Eo|].
      apply Qle_antisym; lra.
    + split; [lra|]. split; [lra|]. intros _ _. reflexivity.
  - intros i Hi. rewrite H, decide_False by lia. reflexivity.
Qed.

Lemma updateSpectrum_levels_witness :
  exists levels',
    updateSpectrum SPECTRUM_BARS [] [] initial (replicate SPECTRUM_BARS 0.5) = Some levels' /\
    exists new, levels' !! 3%nat = Some new /\ new == 0.41.
Proof.
  assert (Hl : Forall (fun l => 0 <= l <= 1) (replicate SPECTRUM_BARS 0.5)).
  { apply Forall_forall. intros x Hx. apply elem_of_replicate in Hx as [-> _].
    split; intros H; discriminate H. }
  destruct (updateSpectrum_levels SPECTRUM_BARS [] [] initial (replicate SPECTRUM_BARS 0.5))
    as (levels' & E & _ & _ & H & _);
    [rewrite length_replicate; lia | exact Hl | constructor | constructor |].
  exists levels'. split; [exact E|].
  destruct (H 3%nat 0.5) as (new & Hn & _ & _ & _ & Hq);
    [unfold SPECTRUM_BARS; lia | reflexivity |].
  exists new. split; [exact Hn|].
  rewrite Hq by reflexivity. reflexivity.
Defined.

(** * Further properties of the audio graph *)

(** ** Steps that leave the graph alone *)

Lemma store_kept_refl (a : Audio) : store_kept a a.
Proof. split; [lia | reflexivity]. Qed.

Lemma store_kept_trans (a b c : Audio) : store_kept a b -> store_kept b c -> store_kept a c.
Proof.
  intros [N1 H1] [N2 H2]. split; [lia|].
  intros h Hh. rewrite H2 by lia. now apply H1.
Qed.

Lemma store_kept_alloc (x : AudioNode) (a : Audio) : store_kept a (snd (alloc x a)).
Proof.
  split; cbn; [lia|]. intros h Hh. apply lookup_insert_ne. lia.
Qed.

Lemma store_kept_new_AudioContext (a : Audio) : store_kept a (snd (new_AudioContext a)).
Proof. split; cbn; [lia | reflexivity]. Qed.

Lemma store_kept_set_audioCtxRef (c : option AudioContext) (a : Audio) :
  store_kept a (set_audioCtxRef c a).
Proof. split; cbn; [lia | reflexivity]. Qed.

Lemma store_kept_connect (src dst : Endpoint) (a : Audio) : store_kept a (connect src dst a).
Proof. split; cbn; [lia | reflexivity]. Qed.

Lemma store_kept_extends (a a' : Audio) : store_kept a a' -> extends a a'.
Proof.
  intros [N H]. split; [exact N|]. intros h Hh. unfold kind_at. now rewrite H.
Qed.

Lemma calm_quiet (s s' : App) : calm s s' -> quiet s s'.
Proof. intros [K N]. split; [now apply store_kept_extends | exact N]. Qed.

Lemma still_refl (s : App) : still s s.
Proof. split; [split; [apply store_kept_refl|] |]; reflexivity. Qed.

Lemma still_trans (s1 s2 s3 : App) : still s1 s2 -> still s2 s3 -> still s1 s3.
Proof.
  intros [[K1 N1] W1] [[K2 N2] W2]. split; [split|].
  - eapply store_kept_trans; eassumption.
  - intros deck. now rewrite N2, N1.
  - intros deck. now rewrite W2, W1.
Qed.

Lemma still_set_audio (a : Audio) (s : App) : store_kept (audio s) a -> still s (set_audio a s).
Proof. intros H. split; [split; [exact H|] |]; intros []; reflexivity. Qed.

Lemma still_set_deck (deck : DeckId) (d : Deck) (s : App) :
  nodes d = nodes (getDeck deck s) -> wet d = wet (getDeck deck s) ->
  still s (set_deck deck d s).
Proof.
  intros Hn Hw. split; [split|].
  - destruct deck; apply store_kept_refl.
  - intros deck'. destruct (decide (deck = deck')) as [<- | Hne].
    + now rewrite getDeck_set_deck_eq.
    + now rewrite getDeck_set_deck_ne.
  - intros deck'. destruct (decide (deck = deck')) as [<- | Hne].
    + now rewrite getDeck_set_deck_eq.
    + now rewrite getDeck_set_deck_ne.
Qed.

Lemma still_playClick (s : App) : still s (playClick s).
Proof.
  unfold playClick.
  assert (H : forall ac a, store_kept (audio s) a ->
            still s (let a := set_audioCtxRef (Some ac) a in
                     let '(osc, a) := alloc (OscillatorNode 760) a in
                     let '(gain, a) := alloc (GainNode 0.001) a in
                     let a := connect (Node osc) (Node gain) a in
                     let a := connect (Node gain) (Destination ac) a in
                     set_audio a s)).
  { intros ac a Ha. cbn zeta. cbn [alloc]. apply still_set_audio.
    eapply store_kept_trans; [exact Ha|].
    split; cbn; [lia|]. intros h Hh. rewrite !lookup_insert_ne by lia. reflexivity. }
  destruct (audioCtxRef (audio s)) as [ac|].
  - apply H, store_kept_refl.
  - apply (H _ _ (store_kept_new_AudioContext (audio s))).
Qed.

Lemma still_togglePlay_in (bpm : option number) (beatSnap : bool) (deck : DeckId) (s : App) :
  still s (togglePlay_in bpm beatSnap deck s).
Proof.
  unfold togglePlay_in. destruct (wave (getDeck deck s)) as [w|]; [|apply still_refl].
  eapply still_trans; [|apply still_playClick]. now apply still_set_deck.
Qed.

Lemma still_setTempo (deck : DeckId) (value : number) (s : App) :
  still s (setTempo deck value s).
Proof.
  unfold setTempo. destruct (wave (getDeck deck s)) as [w|]; [|apply still_refl].
  now apply still_set_deck.
Qed.

Lemma still_syncTempo (deck : DeckId) (s : App) : still s (syncTempo deck s).
Proof.
  unfold syncTempo.
  repeat match goal with
         | |- still _ (match ?b with _ => _ end) => destruct b
         end; try apply still_refl;
    (eapply still_trans; [apply still_setTempo | apply still_playClick]).
Qed.

Lemma still_setBpm (deck : DeckId) (b : option number) (s : App) : still s (setBpm deck b s).
Proof. unfold setBpm. now apply still_set_deck. Qed.

Lemma still_setLastTap (t : number) (s : App) : still s (setLastTap t s).
Proof. split; [split; [apply store_kept_refl|] |]; intros []; reflexivity. Qed.

Lemma still_tapTempo (deck : DeckId) (now : number) (s : App) : still s (tapTempo deck now s).
Proof.
  unfold tapTempo. destruct (falsy (lastTap s)); [apply still_setLastTap|]. cbn zeta.
  destruct (_ || _); [apply still_setLastTap|].
  eapply still_trans; [apply still_setLastTap|].
  eapply still_trans; [apply still_setBpm | apply still_playClick].
Qed.

Lemma still_analyzeTrack (deck : DeckId) (result : Analysis) (s : App) :
  still s (analyzeTrack deck result s).
Proof.
  unfold analyzeTrack.
  assert (H : forall ctx a, store_kept (audio s) a ->
            still s (let s := set_audio (set_audioCtxRef (Some ctx) a) s in
                     match result with
                     | Detected bpmValue => setBpm deck (Some (inject_Z (Math_round bpmValue))) s
                     | NoValue => s
                     | Thrown => setBpm deck None s
                     end)).
  { intros ctx a Ha. cbn zeta.
    assert (S1 : still s (set_audio (set_audioCtxRef (Some ctx) a) s))
      by (apply still_set_audio; exact Ha).
    destruct result; [| exact S1 |]; (eapply still_trans; [exact S1 | apply still_setBpm]). }
  destruct (audioCtxRef (audio s)) as [ac|].
  - apply H, store_kept_refl.
  - apply (H _ _ (store_kept_new_AudioContext (audio s))).
Qed.

Lemma still_set_rec (r : Recording) (s : App) : still s (set_rec r s).
Proof. split; [split; [apply store_kept_refl|] |]; intros []; reflexivity. Qed.

Lemma still_toggleRecord_in (seen connect_ok : bool) (s : App) :
  still s (toggleRecord_in seen connect_ok s).
Proof.
  unfold toggleRecord_in.
  destruct (match match waveARef s with Some w => backend_ac w | None => None end with
            | Some ac => Some ac
            | None => audioCtxRef (audio s)
            end) as [ac|]; [|apply still_refl].
  destruct seen.
  - eapply still_trans; [apply still_set_rec | apply still_playClick].
  - cbn [alloc]. cbn zeta.
    set (a1 := {| audioCtxRef := audioCtxRef (audio s);
                  heap := <[next (audio s) := MediaStreamAudioDestinationNode]> (heap (audio s));
                  edges := edges (audio s); next := S (next (audio s)) |}).
    assert (S1 : still s (set_audio a1 s)).
    { apply still_set_audio. apply (store_kept_alloc MediaStreamAudioDestinationNode). }
    destruct connect_ok; cbn [negb]; [|exact S1].
    eapply still_trans; [exact S1|].
    eapply still_trans; [apply still_set_audio, store_kept_connect|].
    eapply still_trans; [apply still_set_rec | apply still_playClick].
Qed.

Lemma still_toggleFx (deck : DeckId) (key : FxKey) (s : App) : still s (toggleFx deck key s).
Proof. unfold toggleFx. now apply still_set_deck. Qed.

Lemma calm_setWet (deck : DeckId) (key : FxKey) (value : number) (s : App) :
  calm s (setWet deck key value s).
Proof.
  unfold setWet. split.
  - destruct deck; apply store_kept_refl.
  - intros deck'. destruct (decide (deck = deck')) as [<- | Hne].
    + now rewrite getDeck_set_deck_eq.
    + now rewrite getDeck_set_deck_ne.
Qed.

Lemma still_perform (seen : App) (connect_ok : bool) (c : Action) (s : App) :
  still s (perform seen connect_ok c s).
Proof.
  destruct c; cbn [perform].
  - apply still_togglePlay_in.
  - apply still_toggleFx.
  - apply still_toggleRecord_in.
  - split; [split; [apply store_kept_refl|] |]; intros []; reflexivity.
  - split; [split; [apply store_kept_refl|] |]; intros []; reflexivity.
Qed.

Lemma still_dispatch (seen : App) (connect_ok : bool) (cs : list Action) (s : App) :
  still s (dispatch (perform seen connect_ok) cs s).
Proof.
  unfold dispatch. revert s. induction cs as [|c cs IH]; intros s; [apply still_refl|].
  cbn [foldl]. eapply still_trans; [apply still_perform | apply IH].
Qed.

(** ** Steps on the graph of one deck *)

Lemma block_kept_refl (an : Audio * DeckNodes) : block_kept an an.
Proof. split; [apply store_kept_refl|]. split; auto. Qed.

Lemma in_range_at_kept (a a' : Audio) (h : handle) :
  store_kept a a' -> (h < next a)%nat -> in_range_at a h -> in_range_at a' h.
Proof. intros [_ H] Hh (x & Hx & Hr). exists x. rewrite H by exact Hh. now split. Qed.

Lemma block_kept_trans (x y z : Audio * DeckNodes) :
  Forall (fun h => (h < next (fst y))%nat) (handles (snd y)) ->
  block_kept x y -> block_kept y z -> block_kept x z.
Proof.
  intros Hy (K1 & S1 & N1) (K2 & S2 & N2). split; [eapply store_kept_trans; eassumption|].
  split; [auto|]. intros h Hh. destruct (N2 h Hh) as [Hin | [Hn Hr]].
  - destruct (N1 h Hin) as [Hin' | [Hn Hr]]; [now left|]. right. split; [exact Hn|].
    rewrite Forall_forall in Hy. eapply in_range_at_kept; [exact K2 | now apply Hy | exact Hr].
  - right. split; [destruct K1; lia | exact Hr].
Qed.

Lemma ensure_filter_kept (an : Audio * DeckNodes) : block_kept an (ensure_filter an).
Proof.
  destruct an as [a n]. unfold ensure_filter.
  destruct (n_filter n) as [h|] eqn:E; [apply block_kept_refl|]. cbn [alloc].
  split; [apply (store_kept_alloc (BiquadFilterNode lowpass 8000 0.6 0))|]. cbn [fst snd].
  split.
  - intros h Hh. apply elem_of_handles in Hh. apply elem_of_handles.
    destruct n; cbn in *. rewrite E in Hh. intuition congruence.
  - intros h Hh. apply elem_of_handles in Hh.
    destruct (decide (h = next a)) as [-> | Hne].
    + right. split; [lia|]. eexists. split; [apply lookup_insert_eq|].
      cbn. split; intros H; discriminate H.
    + left. apply elem_of_handles. destruct n; cbn in *. intuition congruence.
Qed.

Lemma ensure_reverb_kept (an : Audio * DeckNodes) : block_kept an (ensure_reverb an).
Proof.
  destruct an as [a n]. unfold ensure_reverb.
  destruct (n_reverb n) as [h|] eqn:E; [apply block_kept_refl|]. cbn [alloc].
  split; [apply (store_kept_alloc (ConvolverNode (Some (createImpulse 1.3 2.3))))|].
  cbn [fst snd]. split.
  - intros h Hh. apply elem_of_handles in Hh. apply elem_of_handles.
    destruct n; cbn in *. rewrite E in Hh. intuition congruence.
  - intros h Hh. apply elem_of_handles in Hh.
    destruct (decide (h = next a)) as [-> | Hne].
    + right. split; [lia|]. eexists. split; [apply lookup_insert_eq | exact I].
    + left. apply elem_of_handles. destruct n; cbn in *. intuition congruence.
Qed.

Lemma ensure_gate_kept (an : Audio * DeckNodes) : block_kept an (ensure_gate an).
Proof.
  destruct an as [a n]. unfold ensure_gate.
  destruct (n_gate n) as [h|] eqn:E; [apply block_kept_refl|]. cbn [alloc].
  split; [apply (store_kept_alloc (DynamicsCompressorNode (-40) 12 0.003 0.2))|].
  cbn [fst snd]. split.
  - intros h Hh. apply elem_of_handles in Hh. apply elem_of_handles.
    destruct n; cbn in *. rewrite E in Hh. intuition congruence.
  - intros h Hh. apply elem_of_handles in Hh.
    destruct (decide (h = next a)) as [-> | Hne].
    + right. split; [lia|]. eexists. split; [apply lookup_insert_eq|].
      cbn. split; intros H; discriminate H.
    + left. apply elem_of_handles. destruct n; cbn in *. intuition congruence.
Qed.

Lemma ensure_delay_kept (an : Audio * DeckNodes) :
  (n_delay (snd an) = None -> n_delayFeedback (snd an) = None) ->
  block_kept an (ensure_delay an).
Proof.
  destruct an as [a n]. cbn [snd]. intros Hp. unfold ensure_delay.
  destruct (n_delay n) as [h|] eqn:E; [apply block_kept_refl|]. cbn [alloc connect].
  specialize (Hp eq_refl).
  split; [|split]; cbn [fst snd].
  - split; cbn; [lia|]. intros h Hh. rewrite !lookup_insert_ne by lia. reflexivity.
  - intros h Hh. apply elem_of_handles in Hh. apply elem_of_handles.
    destruct n; cbn in *. rewrite E, Hp in Hh. intuition congruence.
  - intros h Hh. apply elem_of_handles in Hh.
    destruct (decide (h = next a)) as [-> | Hne]; [|destruct (decide (h = S (next a))) as [-> | Hne']].
    + right. split; [lia|]. eexists. split.
      * cbn. rewrite lookup_insert_ne by lia. apply lookup_insert_eq.
      * cbn. split; intros H; discriminate H.
    + right. split; [lia|]. eexists. split; [cbn; apply lookup_insert_eq|].
      cbn. split; intros H; discriminate H.
    + left. apply elem_of_handles. destruct n; cbn in *. intuition congruence.
Qed.

Lemma ensure_all_kept (an : Audio * DeckNodes) :
  nodes_ok (fst an) (snd an) -> block_kept an (ensure_all an).
Proof.
  intros H. unfold ensure_all.
  destruct (ensure_filter_grows an) as [G1 _].
  destruct (ensure_delay_grows (ensure_filter an)) as [G2 _].
  destruct (ensure_reverb_grows (ensure_delay (ensure_filter an))) as [G3 _].
  destruct (G1 H) as (H1 & _). destruct (G2 H1) as (H2 & _). destruct (G3 H2) as (H3 & _).
  eapply block_kept_trans; [apply (ok_fresh _ _ H3)| |apply ensure_gate_kept].
  eapply block_kept_trans; [apply (ok_fresh _ _ H2)| |apply ensure_reverb_kept].
  eapply block_kept_trans; [apply (ok_fresh _ _ H1)|apply ensure_filter_kept|].
  apply ensure_delay_kept. intros E. now apply (ok_pair _ _ H1).
Qed.

(** A parameter write whose function keeps the ranges. *)
Lemma set_param_in_range (h i : handle) (f : AudioNode -> AudioNode) (a : Audio) :
  (forall x, heap a !! h = Some x -> node_in_range x -> node_in_range (f x)) ->
  in_range_at a i -> in_range_at (set_param h f a) i.
Proof.
  intros Hf (x & Hx & Hr). destruct (decide (h = i)) as [-> | Hne].
  - exists (f x). rewrite heap_set_param_eq, Hx. split; [reflexivity | now apply Hf].
  - exists x. rewrite heap_set_param_ne by exact Hne. now split.
Qed.

Lemma wet_ranges (w : number) :
  0 <= w <= 1 ->
  -50 <= -50 + w * 30 <= -20 /\ 500 <= 500 + w * 7500 <= 8000 /\
  0.05 <= 0.05 + w * 0.45 <= 0.5 /\ 0.1 <= 0.1 + w * 0.6 <= 0.7.
Proof. intros [H0 H1]. repeat split; lra. Qed.

Lemma build_chain_in_range (fxState : FxFlags) (wet : FxWet) (n : DeckNodes) (a : Audio)
    (i : handle) :
  wet_in_range wet ->
  in_range_at a i -> in_range_at (fst (build_chain fxState wet n a)) i.
Proof.
  intros (_ & Hd & Hf & Hg) Hi. rewrite build_chain_writes.
  destruct (wet_ranges _ Hd) as (_ & _ & D1 & D2).
  destruct (wet_ranges _ Hf) as (_ & F1 & _).
  destruct (wet_ranges _ Hg) as (G1 & _).
  assert (Wg : in_range_at (write_gate fxState wet n a) i).
  { unfold write_gate. destruct (fx_gate fxState); [|exact Hi].
    destruct (n_gate n) as [g|]; [|exact Hi].
    apply set_param_in_range; [|exact Hi]. intros [] _; cbn; try tauto; destruct type; tauto. }
  assert (Wf : in_range_at (write_filter fxState wet n (write_gate fxState wet n a)) i).
  { unfold write_filter. destruct (fx_filter fxState); [|exact Wg].
    destruct (n_filter n) as [f|]; [|exact Wg].
    apply set_param_in_range; [|exact Wg]. intros [] _; cbn; try tauto; destruct type; tauto. }
  unfold write_delay. destruct (fx_delay fxState); [|exact Wf].
  destruct (n_delay n) as [d|]; [|exact Wf].
  assert (Wd : in_range_at
                 (set_param d (set_delayTime (0.05 + wet_delay wet * 0.45))
                    (write_filter fxState wet n (write_gate fxState wet n a))) i).
  { apply set_param_in_range; [|exact Wf]. intros [] _; cbn; try tauto; destruct type; tauto. }
  destruct (n_delayFeedback n) as [fb|]; [|exact Wd].
  apply set_param_in_range; [|exact Wd]. intros [] _; cbn; try tauto; destruct type; tauto.
Qed.

Lemma build_chain_heap (fxState : FxFlags) (wet : FxWet) (n : DeckNodes) (a : Audio)
    (i : handle) :
  i ∉ handles n ->
  heap (fst (build_chain fxState wet n a)) !! i = heap a !! i.
Proof.
  intros Hi. rewrite build_chain_writes.
  assert (Hn : n_gate n <> Some i /\ n_filter n <> Some i /\ n_delay n <> Some i /\
               n_delayFeedback n <> Some i).
  { repeat split; intros E; apply Hi, elem_of_handles; tauto. }
  destruct Hn as (N1 & N2 & N3 & N4).
  rewrite write_delay_other, write_filter_other, write_gate_other by assumption.
  reflexivity.
Qed.

Lemma touches_refl (deck : DeckId) (s : App) : touches deck s s.
Proof. split; auto. Qed.

Lemma touches_trans (deck : DeckId) (s1 s2 s3 : App) :
  touches deck s1 s2 -> touches deck s2 s3 -> touches deck s1 s3.
Proof.
  intros [N1 O1 W1 F1 K1 G1 H1] [N2 O2 W2 F2 K2 G2 H2]. split.
  - lia.
  - now rewrite O2.
  - now rewrite W2.
  - now rewrite F2.
  - auto.
  - intros h Hh. destruct (G2 h Hh) as [Hin | Hn]; [|right; lia].
    destruct (G1 h Hin); [now left | now right].
  - intros h Hh Hn. rewrite H2; [apply H1; [exact Hh|] | lia | exact Hn].
    intros Hin. apply Hn. now apply K2.
Qed.

(** A change of the store and of the nodes of [deck] alone. *)
Lemma touches_set_deck (deck : DeckId) (s : App) (a : Audio) (d : Deck) :
  (next (audio s) <= next a)%nat ->
  wet d = wet (getDeck deck s) -> fx d = fx (getDeck deck s) ->
  (forall h, h ∈ handles (nodes (getDeck deck s)) -> h ∈ handles (nodes d)) ->
  (forall h, h ∈ handles (nodes d) ->
     h ∈ handles (nodes (getDeck deck s)) \/ (next (audio s) <= h)%nat) ->
  (forall h, (h < next (audio s))%nat -> h ∉ handles (nodes d) ->
     heap a !! h = heap (audio s) !! h) ->
  touches deck s (set_deck deck d (set_audio a s)).
Proof.
  intros N W F K G H.
  assert (Ea : audio (set_deck deck d (set_audio a s)) = a) by (destruct deck; reflexivity).
  split; rewrite ?Ea, ?getDeck_set_deck_eq; try assumption.
  rewrite getDeck_set_deck_ne by apply other_deck_ne. apply getDeck_set_audio.
Qed.

Lemma applyFilters_in_touches (fxState : FxFlags) (amounts : FxWet) (deck : DeckId) (s : App) :
  app_ok s -> touches deck s (applyFilters_in fxState amounts deck s).
Proof.
  intros Hs.
  assert (Hidle : (forall w, wave (getDeck deck s) = Some w -> backend_ac w = None) ->
                  touches deck s (applyFilters_in fxState amounts deck s)).
  { intros H. rewrite applyFilters_in_idle by exact H. apply touches_refl. }
  destruct (wave (getDeck deck s)) as [w|] eqn:Hw; [|apply Hidle; intros w' E; congruence].
  destruct (backend_ac w) as [ac|] eqn:Hac; [|apply Hidle; intros w' E; congruence].
  clear Hidle. rewrite (applyFilters_in_eq _ _ _ _ w ac Hw Hac). cbn zeta.
  assert (H0 : nodes_ok (set_audioCtxRef (Some ac) (audio s)) (nodes (getDeck deck s))).
  { eapply nodes_ok_extends; [apply extends_set_audioCtxRef|]. now apply app_ok_deck. }
  pose proof (ensure_all_kept (set_audioCtxRef (Some ac) (audio s), nodes (getDeck deck s)) H0)
    as ([N1 K1] & S1 & G1).
  destruct (ensure_all _) as [a n]. cbn [fst snd set_audioCtxRef next heap] in *.
  destruct (build_chain_store fxState amounts n a) as (N2 & _).
  apply touches_set_deck; cbn [nodes wet fx set_wave set_nodes]; try reflexivity.
  - lia.
  - exact S1.
  - intros h Hh. destruct (G1 h Hh) as [Hin | [Hn _]]; [now left | now right].
  - intros h Hh Hn. rewrite build_chain_heap by exact Hn. now apply K1.
Qed.

Lemma applyFilters_in_tuned (fxState : FxFlags) (amounts : FxWet) (deck : DeckId) (s : App) :
  app_ok s -> wet_in_range amounts -> tuned s -> tuned (applyFilters_in fxState amounts deck s).
Proof.
  intros Hs Hwet Ht.
  assert (Hidle : (forall w, wave (getDeck deck s) = Some w -> backend_ac w = None) ->
                  tuned (applyFilters_in fxState amounts deck s)).
  { intros H. now rewrite applyFilters_in_idle by exact H. }
  destruct (wave (getDeck deck s)) as [w|] eqn:Hw; [|apply Hidle; intros w' E; congruence].
  destruct (backend_ac w) as [ac|] eqn:Hac; [|apply Hidle; intros w' E; congruence].
  clear Hidle. rewrite (applyFilters_in_eq _ _ _ _ w ac Hw Hac). cbn zeta.
  assert (H0 : nodes_ok (set_audioCtxRef (Some ac) (audio s)) (nodes (getDeck deck s))).
  { eapply nodes_ok_extends; [apply extends_set_audioCtxRef|]. now apply app_ok_deck. }
  pose proof (ensure_all_kept (set_audioCtxRef (Some ac) (audio s), nodes (getDeck deck s)) H0)
    as (K1 & S1 & G1).
  destruct (ensure_all _) as [a n]. cbn [fst snd] in *.
  assert (Hold : forall d h, h ∈ handles (nodes (getDeck d s)) -> in_range_at a h).
  { intros d h Hh. eapply in_range_at_kept; [exact K1| |now apply (Ht d)].
    apply app_ok_deck with (deck := d) in Hs. destruct Hs as [Hf _ _ _ _ _ _ _ _ _].
    rewrite Forall_forall in Hf. now apply Hf. }
  intros d h.
  replace (audio (set_deck deck
                    (set_wave (Some (setFilters (snd (build_chain fxState amounts n a)) w))
                       (set_nodes n (getDeck deck s)))
                    (set_audio (fst (build_chain fxState amounts n a)) s)))
    with (fst (build_chain fxState amounts n a)) by (destruct deck; reflexivity).
  intros Hh. apply build_chain_in_range; [exact Hwet|].
  destruct (decide (deck = d)) as [<- | Hne].
  - rewrite getDeck_set_deck_eq in Hh. cbn [nodes set_wave set_nodes] in Hh.
    destruct (G1 h Hh) as [Hin | [_ Hr]]; [now apply (Hold deck) | exact Hr].
  - rewrite getDeck_set_deck_ne, getDeck_set_audio in Hh by exact Hne. now apply (Hold d).
Qed.

Lemma attachAnalyser_touches (deck : DeckId) (w : WaveSurfer) (s : App) :
  touches deck s (attachAnalyser deck w s).
Proof.
  unfold attachAnalyser. destruct (backend_ac w); [|apply touches_refl].
  destruct (n_analyser (nodes (getDeck deck s))) eqn:E; [apply touches_refl|].
  cbn [alloc]. apply touches_set_deck; cbn [next nodes wet fx set_nodes heap]; try reflexivity.
  - lia.
  - intros h Hh. apply elem_of_handles in Hh. apply elem_of_handles.
    destruct (nodes (getDeck deck s)); cbn in *. rewrite E in Hh. intuition congruence.
  - intros h Hh. apply elem_of_handles in Hh.
    destruct (decide (h = next (audio s))) as [-> | Hne]; [right; lia|].
    left. apply elem_of_handles. destruct (nodes (getDeck deck s)); cbn in *.
    intuition congruence.
  - intros h Hh _. apply lookup_insert_ne. lia.
Qed.

Lemma attachAnalyser_tuned (deck : DeckId) (w : WaveSurfer) (s : App) :
  app_ok s -> tuned s -> tuned (attachAnalyser deck w s).
Proof.
  intros Hs Ht. unfold attachAnalyser. destruct (backend_ac w); [|exact Ht].
  destruct (n_analyser (nodes (getDeck deck s))) eqn:E; [exact Ht|].
  cbn [alloc]. intros d h.
  match goal with
  | |- _ ∈ handles (nodes (getDeck d (set_deck deck ?x (set_audio ?a s)))) -> _ =>
      replace (audio (set_deck deck x (set_audio a s))) with a by (destruct deck; reflexivity)
  end.
  intros Hh.
  assert (Hold : forall d h, h ∈ handles (nodes (getDeck d s)) ->
            in_range_at
              {| audioCtxRef := audioCtxRef (audio s);
                 heap := <[next (audio s) := AnalyserNode 256]> (heap (audio s));
                 edges := edges (audio s); next := S (next (audio s)) |} h).
  { intros d' h' Hh'.
    eapply in_range_at_kept; [apply (store_kept_alloc (AnalyserNode 256))| |now apply (Ht d')].
    apply app_ok_deck with (deck := d') in Hs. destruct Hs as [Hf _ _ _ _ _ _ _ _ _].
    rewrite Forall_forall in Hf. now apply Hf. }
  destruct (decide (deck = d)) as [<- | Hne].
  - rewrite getDeck_set_deck_eq in Hh. cbn [nodes set_nodes] in Hh.
    apply elem_of_handles in Hh.
    destruct (decide (h = next (audio s))) as [-> | Hn].
    + eexists. split; [apply lookup_insert_eq | exact I].
    + apply (Hold deck). apply elem_of_handles.
      destruct (nodes (getDeck deck s)); cbn in *. intuition congruence.
  - rewrite getDeck_set_deck_ne, getDeck_set_audio in Hh by exact Hne. now apply (Hold d).
Qed.

(** ** The EQ *)

Lemma eq_lookup_elem (t : BiquadFilterType) (l : list (BiquadFilterType * handle)) (h : handle) :
  eq_lookup t l = Some h -> (t, h) ∈ l.
Proof.
  induction l as [|[t' h'] l IH]; cbn [eq_lookup]; [discriminate|].
  destruct (decide (t = t')) as [<- | Hne].
  - intros [= <-]. apply elem_of_cons. now left.
  - intros H. apply elem_of_cons. right. now apply IH.
Qed.

Lemma eq_lookup_None (t : BiquadFilterType) (l : list (BiquadFilterType * handle)) :
  eq_lookup t l = None <-> t ∉ (fst <$> l).
Proof.
  induction l as [|[t' h'] l IH]; cbn [eq_lookup fmap list_fmap fst].
  - split; [intros _; apply not_elem_of_nil | reflexivity].
  - rewrite not_elem_of_cons. destruct (decide (t = t')) as [<- | Hne].
    + split; [discriminate | intros [H _]; congruence].
    + rewrite IH. tauto.
Qed.

Lemma eq_lookup_app_new (t : BiquadFilterType) (l : list (BiquadFilterType * handle))
    (h : handle) :
  eq_lookup t l = None -> eq_lookup t (l ++ [(t, h)]) = Some h.
Proof.
  induction l as [|[t' h'] l IH]; cbn [eq_lookup app].
  - intros _. now rewrite decide_True.
  - destruct (decide (t = t')); [discriminate | exact IH].
Qed.

(** In a node set without repetition an EQ stage is none of the nodes
    [applyFilters] writes to. *)
Lemma eq_not_effect (n : DeckNodes) (h : handle) :
  NoDup (handles n) -> h ∈ (snd <$> n_eq n) ->
  n_gate n <> Some h /\ n_filter n <> Some h /\ n_delay n <> Some h /\
  n_delayFeedback n <> Some h.
Proof.
  unfold handles. intros Hnd Hin.
  apply NoDup_app in Hnd as (_ & Hg & Hnd).
  apply NoDup_app in Hnd as (_ & He & _).
  specialize (He h Hin). split.
  - intros E. apply (Hg h); [now apply elem_of_option_list|].
    apply elem_of_app. now left.
  - repeat split; intros E; apply He; rewrite !elem_of_app, !elem_of_option_list; tauto.
Qed.

Lemma biquad_of_kind (a : Audio) (h : handle) (t : BiquadFilterType) :
  kind_at a h = Some (KBiquad t) ->
  exists f q g, heap a !! h = Some (BiquadFilterNode t f q g).
Proof.
  intros H. apply kind_at_inv in H as (x & Hx & Hk).
  destruct x as [? ? ? ?| | | [?|] | | | |]; try discriminate Hk.
  cbn in Hk. injection Hk as ->. eauto.
Qed.

Lemma touches_deck (deck d : DeckId) (s s' : App) :
  touches deck s s' ->
  wet (getDeck d s') = wet (getDeck d s) /\ fx (getDeck d s') = fx (getDeck d s).
Proof.
  intros [_ O W F _ _ _]. destruct deck, d; cbn [other_deck] in *; rewrite ?O; auto.
Qed.

Lemma handles_bound (deck : DeckId) (s : App) (h : handle) :
  app_ok s -> h ∈ handles (nodes (getDeck deck s)) -> (h < next (audio s))%nat.
Proof.
  intros Hs Hh. apply app_ok_deck with (deck := deck) in Hs.
  destruct Hs as [Hf _ _ _ _ _ _ _ _ _]. rewrite Forall_forall in Hf. now apply Hf.
Qed.

(** [ensureNodes] as a step on the graph of its deck. *)
Lemma ensureNodes_touches (deck : DeckId) (w : WaveSurfer) (s : App) :
  app_ok s ->
  touches deck s (fst (ensureNodes deck w s)) /\
  (tuned s -> tuned (fst (ensureNodes deck w s))) /\
  store_kept (audio s) (audio (fst (ensureNodes deck w s))).
Proof.
  intros Hs. destruct (backend_ac w) as [ac|] eqn:Hac.
  2:{ rewrite (ensureNodes_null deck w s Hac).
      split; [apply touches_refl | split; [auto | apply store_kept_refl]]. }
  rewrite (ensureNodes_eq deck w s ac Hac). cbn zeta. cbn [fst].
  assert (H0 : nodes_ok (set_audioCtxRef (Some ac) (audio s)) (nodes (getDeck deck s))).
  { eapply nodes_ok_extends; [apply extends_set_audioCtxRef|]. now apply app_ok_deck. }
  pose proof (ensure_all_kept (set_audioCtxRef (Some ac) (audio s), nodes (getDeck deck s)) H0)
    as (K1 & S1 & G1).
  destruct (ensure_all _) as [a n]. cbn [fst snd] in *.
  assert (K1' : store_kept (audio s) a) by exact K1.
  split; [|split].
  3:{ replace (audio (set_deck deck (set_nodes n (getDeck deck s)) (set_audio a s)))
        with a by (destruct deck; reflexivity). exact K1'. }
  - apply touches_set_deck; cbn [nodes wet fx set_nodes]; try reflexivity.
    + destruct K1'; assumption.
    + exact S1.
    + intros h Hh. destruct (G1 h Hh) as [Hin | [Hn _]]; [now left | now right].
    + intros h Hh _. now apply K1'.
  - intros Ht d h.
    replace (audio (set_deck deck (set_nodes n (getDeck deck s)) (set_audio a s)))
      with a by (destruct deck; reflexivity).
    intros Hh.
    assert (Hold : forall d h, h ∈ handles (nodes (getDeck d s)) -> in_range_at a h).
    { intros d' h' Hh'. eapply in_range_at_kept; [exact K1'| |now apply (Ht d')].
      now apply (handles_bound d'). }
    destruct (decide (deck = d)) as [<- | Hne].
    + rewrite getDeck_set_deck_eq in Hh. cbn [nodes set_nodes] in Hh.
      destruct (G1 h Hh) as [Hin | [_ Hr]]; [now apply (Hold deck) | exact Hr].
    + rewrite getDeck_set_deck_ne, getDeck_set_audio in Hh by exact Hne. now apply (Hold d).
Qed.

(** The write of the gain of an EQ stage. *)
Lemma eq_gain_write (deck : DeckId) (type : BiquadFilterType) (h : handle) (value : number)
    (s : App) :
  app_ok s -> (type, h) ∈ n_eq (nodes (getDeck deck s)) ->
  let s' := set_audio (set_param h (set_gain value) (audio s)) s in
  app_ok s' /\ touches deck s s' /\ (tuned s -> tuned s') /\
  (forall d, getDeck d s' = getDeck d s) /\
  exists f q g,
    heap (audio s) !! h = Some (BiquadFilterNode type f q g) /\
    heap (audio s') !! h = Some (BiquadFilterNode type f q value).
Proof.
  intros Hs Hin. cbn zeta.
  set (s' := set_audio (set_param h (set_gain value) (audio s)) s).
  assert (Q : quiet s s') by (apply quiet_set_audio; auto).
  assert (Hn : nodes_ok (audio s) (nodes (getDeck deck s))) by now apply app_ok_deck.
  assert (Hk : kind_at (audio s) h = Some (KBiquad type)).
  { pose proof (ok_eq _ _ Hn) as He. rewrite Forall_forall in He. exact (He _ Hin). }
  destruct (biquad_of_kind _ _ _ Hk) as (f & q & g & Hx).
  assert (Hh : h ∈ handles (nodes (getDeck deck s))).
  { apply elem_of_handles. right. left. apply list_elem_of_fmap. now exists (type, h). }
  split; [eapply quiet_ok; eassumption|]. split; [|split; [|split]].
  - subst s'. split; rewrite ?getDeck_set_audio; try reflexivity.
    + auto.
    + intros i Hi. now left.
    + intros i _ Hi. cbn [audio set_audio].
      apply heap_set_param_ne. intros ->. contradiction.
  - intros Ht d i Hi. subst s'. rewrite getDeck_set_audio in Hi. cbn [audio set_audio].
    apply set_param_in_range; [|now apply (Ht d)].
    intros x Ex Hr. rewrite Hx in Ex. injection Ex as <-. exact Hr.
  - intros d. subst s'. apply getDeck_set_audio.
  - exists f, q, g. split; [exact Hx|]. subst s'. cbn [audio set_audio].
    rewrite heap_set_param_eq, Hx. reflexivity.
Qed.

(** The creation of an EQ stage. *)
Lemma eq_create (deck : DeckId) (type : BiquadFilterType) (s : App) :
  app_ok s ->
  let x := BiquadFilterNode type (eq_frequency type) 1 0 in
  let h := next (audio s) in
  let n := nodes (getDeck deck s) in
  let s' := set_deck deck (set_nodes (set_n_eq (n_eq n ++ [(type, h)]) n) (getDeck deck s))
              (set_audio (snd (alloc x (audio s))) s) in
  app_ok s' /\ touches deck s s' /\ (tuned s -> tuned s') /\
  heap (audio s') !! h = Some x /\
  getDeck deck s' = set_nodes (set_n_eq (n_eq n ++ [(type, h)]) n) (getDeck deck s).
Proof.
  intros Hs. cbn zeta.
  set (x := BiquadFilterNode type (eq_frequency type) 1 0).
  set (n := nodes (getDeck deck s)).
  set (n2 := set_n_eq (n_eq n ++ [(type, next (audio s))]) n).
  set (a := snd (alloc x (audio s))).
  assert (Ea : audio (set_deck deck (set_nodes n2 (getDeck deck s)) (set_audio a s)) = a)
    by (destruct deck; reflexivity).
  assert (Hn : nodes_ok (audio s) n) by now apply app_ok_deck.
  assert (Hn2 : nodes_ok a n2).
  { apply nodes_ok_add_eq.
    - exact (nodes_ok_extends _ _ _ (extends_alloc x (audio s)) Hn).
    - pose proof (next_not_in_handles _ _ 0 Hn) as Hni. now rewrite Nat.add_0_r in Hni.
    - cbn. lia.
    - apply (kind_at_alloc x). }
  assert (Hh2 : forall i, i ∈ handles n2 <-> i ∈ handles n \/ i = next (audio s)).
  { intros i. rewrite !elem_of_handles. subst n2. destruct n; cbn.
    rewrite fmap_app, elem_of_app. cbn. rewrite list_elem_of_singleton. tauto. }
  split; [apply app_ok_set_deck; [exact Hs | apply (extends_alloc x) | exact Hn2]|].
  split; [|split; [|split]].
  - apply touches_set_deck; cbn [nodes wet fx set_nodes]; try reflexivity.
    + cbn. lia.
    + intros i Hi. apply Hh2. now left.
    + intros i Hi. apply Hh2 in Hi as [Hi | ->]; [now left | right; lia].
    + intros i Hi _. cbn. apply lookup_insert_ne. lia.
  - intros Ht d i. rewrite Ea. intros Hi.
    assert (Hold : forall d i, i ∈ handles (nodes (getDeck d s)) -> in_range_at a i).
    { intros d' i' Hi'. eapply in_range_at_kept;
        [apply (store_kept_alloc x) | now apply (handles_bound d') | now apply (Ht d')]. }
    destruct (decide (deck = d)) as [<- | Hne].
    + rewrite getDeck_set_deck_eq in Hi. cbn [nodes set_nodes] in Hi.
      apply Hh2 in Hi as [Hi | ->]; [now apply (Hold deck)|].
      exists x. split; [apply lookup_insert_eq|].
      subst x. cbn. destruct type; cbn; try exact I. split; intros H; discriminate H.
    + rewrite getDeck_set_deck_ne, getDeck_set_audio in Hi by exact Hne. now apply (Hold d).
  - rewrite Ea. apply lookup_insert_eq.
  - apply getDeck_set_deck_eq.
Qed.

Lemma setEQ_idle (deck : DeckId) (type : BiquadFilterType) (value : number) (s : App) :
  (forall w, wave (getDeck deck s) = Some w -> backend_ac w = None) ->
  setEQ deck type value s = s.
Proof.
  intros H. unfold setEQ. destruct (wave (getDeck deck s)) as [w|]; [|reflexivity].
  now rewrite (ensureNodes_null deck w s (H w eq_refl)).
Qed.

(** [setEQ] on a deck with a transport and a context, up to its call of
    [applyFilters]: the stage of [type], found or created, has the gain
    [value]. *)
Lemma setEQ_split (deck : DeckId) (type : BiquadFilterType) (value : number) (s : App)
    (w : WaveSurfer) (ac : AudioContext) :
  app_ok s -> wave (getDeck deck s) = Some w -> backend_ac w = Some ac ->
  exists s3 h f q,
    setEQ deck type value s = applyFilters deck s3 /\
    app_ok s3 /\ wave (getDeck deck s3) = Some w /\
    touches deck s s3 /\ (tuned s -> tuned s3) /\
    eq_lookup type (n_eq (nodes (getDeck deck s3))) = Some h /\
    heap (audio s3) !! h = Some (BiquadFilterNode type f q value) /\
    (forall h0, eq_lookup type (n_eq (nodes (getDeck deck s))) = Some h0 ->
       h = h0 /\ n_eq (nodes (getDeck deck s3)) = n_eq (nodes (getDeck deck s)) /\
       exists g, heap (audio s) !! h = Some (BiquadFilterNode type f q g)) /\
    (eq_lookup type (n_eq (nodes (getDeck deck s))) = None ->
       f = eq_frequency type /\ q = 1 /\ (next (audio s) <= h)%nat /\
       n_eq (nodes (getDeck deck s3)) = n_eq (nodes (getDeck deck s)) ++ [(type, h)]) /\
    (forall i, (i < next (audio s))%nat -> i <> h ->
       heap (audio s3) !! i = heap (audio s) !! i).
Proof.
  intros Hs Hw Hac. unfold setEQ. rewrite Hw.
  destruct (ensureNodes_touches deck w s Hs) as (T1 & U1 & S1).
  destruct (ensureNodes_facts deck w s ac Hs Hac) as (s1 & E1 & H1 & A1 & K1 & Q1 & C1 & D1).
  rewrite E1 in *. cbn [fst] in T1, U1, S1.
  assert (Hw1 : wave (getDeck deck s1) = Some w) by (rewrite D1; exact Hw).
  destruct (eq_lookup type (n_eq (nodes (getDeck deck s1)))) as [h|] eqn:El.
  - pose proof (eq_lookup_elem _ _ _ El) as Hin.
    destruct (eq_gain_write deck type h value s1 H1 Hin) as (H2 & T2 & U2 & D2 & f & q & g & X1 & X2).
    cbn zeta in *.
    exists (set_audio (set_param h (set_gain value) (audio s1)) s1), h, f, q.
    split; [reflexivity|]. split; [exact H2|]. split; [now rewrite D2|].
    split; [eapply touches_trans; eassumption|]. split; [auto|].
    split; [now rewrite D2|]. split; [exact X2|]. rewrite D2, Q1 in *. split; [|split].
    + intros h0 E0. rewrite El in E0. injection E0 as <-. split; [reflexivity|].
      split; [reflexivity|]. exists g. rewrite <- X1. symmetry. apply S1.
      apply (handles_bound deck s h Hs). apply elem_of_handles. right. left.
      apply list_elem_of_fmap. exists (type, h). split; [reflexivity | exact Hin].
    + intros E0. rewrite El in E0. discriminate E0.
    + intros i Hi Hne. cbn [audio set_audio].
      rewrite heap_set_param_ne by congruence. now apply S1.
  - unfold createEQFilter. rewrite C1.
    destruct (eq_create deck type s1 H1) as (H2 & T2 & U2 & X2 & D2). cbn zeta in *.
    change (match type with lowshelf => 150 | highshelf => 6000 | _ => 1000 end)
      with (eq_frequency type).
    set (x := BiquadFilterNode type (eq_frequency type) 1 0) in *.
    change (alloc x (audio s1)) with (next (audio s1), snd (alloc x (audio s1))).
    cbv iota beta.
    set (s2 := set_deck deck _ (set_audio (snd (alloc x (audio s1))) s1)) in *.
    assert (Hin : (type, next (audio s1)) ∈ n_eq (nodes (getDeck deck s2))).
    { rewrite D2. cbn [nodes set_nodes n_eq set_n_eq]. apply elem_of_app. right.
      now apply list_elem_of_singleton. }
    destruct (eq_gain_write deck type (next (audio s1)) value s2 H2 Hin)
      as (H3 & T3 & U3 & D3 & f & q & g & X3 & X4).
    cbn zeta in *. rewrite X2 in X3. injection X3 as <- <- <-.
    exists (set_audio (set_param (next (audio s1)) (set_gain value) (audio s2)) s2),
      (next (audio s1)), (eq_frequency type), 1.
    split; [reflexivity|]. split; [exact H3|].
    split; [rewrite D3, D2; exact Hw1|].
    split; [eapply touches_trans; [exact T1|]; eapply touches_trans; eassumption|].
    split; [auto|].
    assert (Eq3 : n_eq (nodes (getDeck deck (set_audio
                     (set_param (next (audio s1)) (set_gain value) (audio s2)) s2)))
                  = n_eq (nodes (getDeck deck s)) ++ [(type, next (audio s1))]).
    { rewrite D3, D2. cbn [nodes set_nodes n_eq set_n_eq]. now rewrite Q1. }
    rewrite Eq3, Q1 in *.
    split; [now apply eq_lookup_app_new|]. split; [exact X4|]. split; [|split].
    + intros h0 E0. rewrite El in E0. discriminate E0.
    + intros _. split; [reflexivity|]. split; [reflexivity|].
      split; [destruct S1; assumption | reflexivity].
    + intros i Hi Hne. cbn [audio set_audio].
      rewrite heap_set_param_ne by congruence.
      replace (audio s2) with (snd (alloc x (audio s1)))
        by (subst s2; destruct deck; reflexivity).
      cbn [alloc snd heap]. destruct S1 as [Sn Sk].
      rewrite lookup_insert_ne by lia. now apply Sk.
Qed.

Lemma applyFilters_in_eq_heap (fxState : FxFlags) (amounts : FxWet) (deck : DeckId) (s : App)
    (h : handle) :
  app_ok s -> h ∈ (snd <$> n_eq (nodes (getDeck deck s))) ->
  heap (audio (applyFilters_in fxState amounts deck s)) !! h = heap (audio s) !! h.
Proof.
  intros Hs Hin.
  assert (Hidle : (forall w, wave (getDeck deck s) = Some w -> backend_ac w = None) ->
            heap (audio (applyFilters_in fxState amounts deck s)) !! h = heap (audio s) !! h).
  { intros H. now rewrite applyFilters_in_idle by exact H. }
  destruct (wave (getDeck deck s)) as [w|] eqn:Hw; [|apply Hidle; intros w' E; congruence].
  destruct (backend_ac w) as [ac|] eqn:Hac; [|apply Hidle; intros w' E; congruence].
  clear Hidle. rewrite (applyFilters_in_eq _ _ _ _ w ac Hw Hac). cbn zeta.
  destruct (ensure_all_app deck s (Some ac) Hs) as (H1 & _ & _ & _ & Q1 & _).
  assert (H0 : nodes_ok (set_audioCtxRef (Some ac) (audio s)) (nodes (getDeck deck s))).
  { eapply nodes_ok_extends; [apply extends_set_audioCtxRef|]. now apply app_ok_deck. }
  pose proof (ensure_all_kept (set_audioCtxRef (Some ac) (audio s), nodes (getDeck deck s)) H0)
    as ([_ K1] & _ & _).
  destruct (ensure_all _) as [a n]. cbn [fst snd set_audioCtxRef next heap] in *.
  replace (audio (set_deck deck
                    (set_wave (Some (setFilters (snd (build_chain fxState amounts n a)) w))
                       (set_nodes n (getDeck deck s)))
                    (set_audio (fst (build_chain fxState amounts n a)) s)))
    with (fst (build_chain fxState amounts n a)) by (destruct deck; reflexivity).
  rewrite build_chain_writes.
  destruct (eq_not_effect n h (ok_nodup _ _ H1)) as (N1 & N2 & N3 & N4); [now rewrite Q1|].
  rewrite write_delay_other, write_filter_other, write_gate_other by assumption.
  apply K1. apply (handles_bound deck s h Hs). apply elem_of_handles. tauto.
Qed.

Lemma setEQ_touches (deck : DeckId) (type : BiquadFilterType) (value : number) (s : App) :
  app_ok s -> touches deck s (setEQ deck type value s).
Proof.
  intros Hs.
  assert (Hidle : (forall w, wave (getDeck deck s) = Some w -> backend_ac w = None) ->
                  touches deck s (setEQ deck type value s)).
  { intros H. rewrite setEQ_idle by exact H. apply touches_refl. }
  destruct (wave (getDeck deck s)) as [w|] eqn:Hw; [|apply Hidle; intros w' E; congruence].
  destruct (backend_ac w) as [ac|] eqn:Hac; [|apply Hidle; intros w' E; congruence].
  destruct (setEQ_split deck type value s w ac Hs Hw Hac)
    as (s3 & h & f & q & -> & H3 & _ & T3 & _).
  eapply touches_trans; [exact T3|]. now apply applyFilters_in_touches.
Qed.

Lemma setEQ_tuned (deck : DeckId) (type : BiquadFilterType) (value : number) (s : App) :
  app_ok s -> wet_in_range (wet (getDeck deck s)) -> tuned s ->
  tuned (setEQ deck type value s).
Proof.
  intros Hs Hr Ht.
  assert (Hidle : (forall w, wave (getDeck deck s) = Some w -> backend_ac w = None) ->
                  tuned (setEQ deck type value s)).
  { intros H. now rewrite setEQ_idle by exact H. }
  destruct (wave (getDeck deck s)) as [w|] eqn:Hw; [|apply Hidle; intros w' E; congruence].
  destruct (backend_ac w) as [ac|] eqn:Hac; [|apply Hidle; intros w' E; congruence].
  destruct (setEQ_split deck type value s w ac Hs Hw Hac)
    as (s3 & h & f & q & -> & H3 & _ & T3 & U3 & _).
  apply applyFilters_in_tuned; [exact H3| |now apply U3].
  now rewrite (t_wet _ _ _ T3).
Qed.

(** ** What every history keeps *)

Section Invariant.

Variable R : FxWet -> Prop.
Variable P : App -> Prop.

Hypothesis R_initial : R (wet initial_deck).
Hypothesis P_calm : forall s s', app_ok s -> P s -> calm s s' -> P s'.
Hypothesis P_apply :
  forall fxState amounts deck s,
    app_ok s -> R amounts -> P s -> P (applyFilters_in fxState amounts deck s).
Hypothesis P_setEQ :
  forall deck type value s,
    app_ok s -> R (wet (getDeck deck s)) -> P s -> P (setEQ deck type value s).
Hypothesis P_analyser :
  forall deck w s, app_ok s -> P s -> P (attachAnalyser deck w s).

Lemma holds_calm (s s' : App) :
  calm s s' -> (forall deck, R (wet (getDeck deck s'))) -> holds R P s -> holds R P s'.
Proof.
  intros C Hr (Hs & _ & Hp). split; [|split].
  - eapply quiet_ok; [apply calm_quiet; exact C | exact Hs].
  - exact Hr.
  - eapply P_calm; eassumption.
Qed.

Lemma holds_still (s s' : App) : still s s' -> holds R P s -> holds R P s'.
Proof.
  intros [C W] H. apply (holds_calm s s' C); [|exact H].
  intros deck. rewrite W. apply H.
Qed.

Lemma holds_apply (fxState : FxFlags) (amounts : FxWet) (deck : DeckId) (s : App) :
  R amounts -> holds R P s -> holds R P (applyFilters_in fxState amounts deck s).
Proof.
  intros Ha (Hs & Hr & Hp). split; [|split].
  - now apply applyFilters_in_advance.
  - intros d.
    rewrite (proj1 (touches_deck deck d _ _ (applyFilters_in_touches fxState amounts deck s Hs))).
    apply Hr.
  - now apply P_apply.
Qed.

Lemma holds_fx_effect (s : App) : holds R P s -> holds R P (fx_effect s).
Proof.
  intros H. unfold fx_effect, applyFilters.
  pose proof (holds_apply (fx (getDeck DeckA s)) (wet (getDeck DeckA s)) DeckA s
                (proj1 (proj2 H) DeckA) H) as H1.
  apply holds_apply; [apply H1 | exact H1].
Qed.

Lemma holds_setEQ (deck : DeckId) (type : BiquadFilterType) (value : number) (s : App) :
  holds R P s -> holds R P (setEQ deck type value s).
Proof.
  intros (Hs & Hr & Hp). split; [|split].
  - now apply setEQ_advance.
  - intros d.
    rewrite (proj1 (touches_deck deck d _ _ (setEQ_touches deck type value s Hs))).
    apply Hr.
  - now apply P_setEQ.
Qed.

Lemma holds_analyser (deck : DeckId) (w : WaveSurfer) (s : App) :
  holds R P s -> holds R P (attachAnalyser deck w s).
Proof.
  intros (Hs & Hr & Hp). split; [|split].
  - now apply attachAnalyser_advance.
  - intros d.
    rewrite (proj1 (touches_deck deck d _ _ (attachAnalyser_touches deck w s))).
    apply Hr.
  - now apply P_analyser.
Qed.

Lemma step_holds (e : Event) (s : App) :
  event_ok R e -> holds R P s -> holds R P (step e s).
Proof.
  intros He H. destruct e; cbn [step event_ok] in *.
  - apply holds_fx_effect.
    eapply holds_still; [|exact H].
    eapply still_trans; now apply still_set_deck.
  - destruct (wave (getDeck deck s)) as [w|]; [|exact H]. cbn zeta.
    apply holds_analyser, holds_apply; [exact R_initial|].
    eapply holds_still; [|exact H]. now apply still_set_deck.
  - destruct (wave (getDeck deck s)) as [w|]; [|exact H].
    eapply holds_still; [|exact H]. now apply still_set_deck.
  - eapply holds_still; [apply still_togglePlay_in | exact H].
  - now apply holds_setEQ.
  - apply holds_fx_effect. eapply holds_still; [apply still_toggleFx | exact H].
  - apply holds_fx_effect. eapply holds_calm; [apply calm_setWet | | exact H].
    intros d. unfold setWet. destruct (decide (deck = d)) as [<- | Hne].
    + rewrite getDeck_set_deck_eq. cbn [wet set_wetState]. apply He, H.
    + rewrite getDeck_set_deck_ne by exact Hne. apply H.
  - now apply holds_apply.
  - eapply holds_still; [apply still_analyzeTrack | exact H].
  - eapply holds_still; [apply still_setTempo | exact H].
  - eapply holds_still; [apply still_syncTempo | exact H].
  - eapply holds_still; [apply still_tapTempo | exact H].
  - eapply holds_still; [apply still_toggleRecord_in | exact H].
  - eapply holds_still; [|exact H]. unfold ondataavailable.
    destruct (0 <? size data)%Z; [apply still_set_rec | apply still_refl].
  - eapply holds_still; [apply still_set_rec | exact H].
  - eapply holds_still; [|exact H].
    split; [split; [apply store_kept_refl|] |]; intros []; reflexivity.
  - eapply holds_still; [|exact H].
    split; [split; [apply store_kept_refl|] |]; intros []; reflexivity.
  - cbn zeta.
    assert (H1 : holds R P (dispatch (perform seen connect_ok)
                              (onmidimessage (midiMap seen) data) s))
      by (eapply holds_still; [apply still_dispatch | exact H]).
    destruct (existsb is_toggleFx _); [now apply holds_fx_effect | exact H1].
Qed.

Lemma run_holds (evs : list Event) (s : App) :
  Forall (event_ok R) evs -> holds R P s -> holds R P (run evs s).
Proof.
  revert s. induction evs as [|e evs IH]; intros s He H; [exact H|].
  apply Forall_cons in He as [He1 He2].
  change (run (e :: evs) s) with (run evs (step e s)).
  apply IH; [exact He2 | now apply step_holds].
Qed.

End Invariant.

Lemma event_ok_True (e : Event) : event_ok (fun _ => True) e.
Proof. destruct e; cbn; auto. Qed.

Lemma slider_event_ok (e : Event) : slider_event e -> event_ok wet_in_range e.
Proof.
  destruct e; cbn; auto.
  intros Hv w (H1 & H2 & H3 & H4). destruct key; cbn; repeat split; tauto.
Qed.

Lemma apart_touches (deck : DeckId) (s s' : App) :
  app_ok s -> decks_apart s -> touches deck s s' -> decks_apart s'.
Proof.
  intros Hs Ha [_ O _ _ _ G _] h HA HB.
  destruct deck; cbn [other_deck getDeck] in *.
  - rewrite O in HB. destruct (G h HA) as [Hin | Hn].
    + exact (Ha h Hin HB).
    + pose proof (handles_bound DeckB s h Hs HB). lia.
  - rewrite O in HA. destruct (G h HB) as [Hin | Hn].
    + exact (Ha h HA Hin).
    + pose proof (handles_bound DeckA s h Hs HA). lia.
Qed.

Lemma decks_apart_run (evs : list Event) :
  app_ok (run evs initial) /\ decks_apart (run evs initial).
Proof.
  assert (H : holds (fun _ => True) decks_apart (run evs initial)).
  { apply run_holds.
    - exact I.
    - intros s s' _ Ha [_ N] h. pose proof (N DeckA) as NA. pose proof (N DeckB) as NB.
      cbn [getDeck] in NA, NB. rewrite NA, NB. apply Ha.
    - intros fxState amounts deck s Hs _ Ha.
      eapply apart_touches; [exact Hs | exact Ha | now apply applyFilters_in_touches].
    - intros deck type value s Hs _ Ha.
      eapply apart_touches; [exact Hs | exact Ha | now apply setEQ_touches].
    - intros deck w s Hs Ha.
      eapply apart_touches; [exact Hs | exact Ha | apply attachAnalyser_touches].
    - apply Forall_forall. intros e _. apply event_ok_True.
    - split; [apply initial_ok|]. split; [auto|].
      intros h Hh. cbn in Hh. now apply elem_of_nil in Hh. }
  destruct H as (H1 & _ & H2). now split.
Qed.

(** X17. The two decks never share an audio node: after any history, the
    nodes of deck A (effect chain, EQ, analyser) and those of deck B are
    all distinct objects. *)
Theorem decks_never_share (evs : list Event) :
  let s := run evs initial in
  NoDup (handles (nodes (deckA s)) ++ handles (nodes (deckB s))).
Proof.
  cbn zeta. destruct (decks_apart_run evs) as [[HA HB] Ha].
  apply NoDup_app. split; [apply (ok_nodup _ _ HA)|].
  split; [exact Ha | apply (ok_nodup _ _ HB)].
Qed.

Lemma touches_isolated (deck : DeckId) (s s' : App) :
  app_ok s -> decks_apart s -> touches deck s s' ->
  getDeck (other_deck deck) s' = getDeck (other_deck deck) s /\
  forall h, h ∈ handles (nodes (getDeck (other_deck deck) s)) ->
            heap (audio s') !! h = heap (audio s) !! h.
Proof.
  intros Hs Ha T. split; [apply (t_other _ _ _ T)|].
  intros h Hh. apply (t_heap _ _ _ T).
  - exact (handles_bound _ s h Hs Hh).
  - intros Hin. destruct (t_new _ _ _ T h Hin) as [Hin' | Hn].
    + destruct deck; cbn [other_deck getDeck] in *; [exact (Ha h Hin' Hh) | exact (Ha h Hh Hin')].
    + pose proof (handles_bound _ s h Hs Hh). lia.
Qed.

(** X18. Work on one deck never reaches the other. After any history, an
    EQ change, a rebuild of the effect chain or the attachment of the
    analyser on one deck leaves the whole state of the other deck as it
    was, and every audio node of the other deck with the parameters it
    had. *)
Theorem deck_isolation (evs : list Event) (deck : DeckId) (s' : App) :
  let s := run evs initial in
  (exists fxState amounts, s' = applyFilters_in fxState amounts deck s) \/
  (exists type value, s' = setEQ deck type value s) \/
  (exists w, s' = attachAnalyser deck w s) ->
  getDeck (other_deck deck) s' = getDeck (other_deck deck) s /\
  forall h, h ∈ handles (nodes (getDeck (other_deck deck) s)) ->
            heap (audio s') !! h = heap (audio s) !! h.
Proof.
  cbn zeta. intros H. destruct (decks_apart_run evs) as [Hs Ha].
  apply touches_isolated; [exact Hs | exact Ha |].
  destruct H as [(fxState & amounts & ->) | [(type & value & ->) | (w & ->)]].
  - now apply applyFilters_in_touches.
  - now apply setEQ_touches.
  - apply attachAnalyser_touches.
Qed.

Lemma deck_isolation_witness :
  let s := run [EvMount; EvReady DeckA (Some (mkAudioContext 7)) 180;
                EvReady DeckB (Some (mkAudioContext 7)) 200] initial in
  getDeck DeckB (setEQ DeckA lowshelf 6 s) = getDeck DeckB s.
Proof.
  cbn zeta.
  apply (deck_isolation [EvMount; EvReady DeckA (Some (mkAudioContext 7)) 180;
                         EvReady DeckB (Some (mkAudioContext 7)) 200] DeckA).
  right. left. exists lowshelf, 6. reflexivity.
Defined.

(** X19. Setting an EQ band. On a deck with a transport and a context,
    after any history, [setEQ] leaves the deck with a stage of the band's
    type whose gain is the value given, and that stage is in the deck's
    chain. A stage the deck had keeps its identity, frequency and Q; a
    missing one is created, as a new object, with the frequency of its type
    (150 low shelf, 6000 high shelf, 1000 otherwise) and Q = 1. The stages
    of other types keep all their parameters. *)
Theorem setEQ_sets_gain (evs : list Event) (deck : DeckId) (type : BiquadFilterType)
    (value : number) (w : WaveSurfer) (ac : AudioContext) :
  let s := run evs initial in
  let l := n_eq (nodes (getDeck deck s)) in
  wave (getDeck deck s) = Some w -> backend_ac w = Some ac ->
  let s' := setEQ deck type value s in
  exists h f q,
    eq_lookup type (n_eq (nodes (getDeck deck s'))) = Some h /\
    heap (audio s') !! h = Some (BiquadFilterNode type f q value) /\
    (exists w', wave (getDeck deck s') = Some w' /\ h ∈ getFilters w') /\
    (forall h0, eq_lookup type l = Some h0 ->
       h = h0 /\ exists g, heap (audio s) !! h = Some (BiquadFilterNode type f q g)) /\
    (eq_lookup type l = None ->
       f = eq_frequency type /\ q = 1 /\ (next (audio s) <= h)%nat) /\
    (forall t' h', t' <> type -> (t', h') ∈ l ->
       heap (audio s') !! h' = heap (audio s) !! h').
Proof.
  cbn zeta. intros Hw Hac. pose proof (reachable_ok evs) as Hs.
  set (s := run evs initial) in *.
  destruct (setEQ_split deck type value s w ac Hs Hw Hac)
    as (s3 & h & f & q & E & H3 & Hw3 & T3 & _ & L3 & X3 & Hold & Hnew & Hfr).
  rewrite E. unfold applyFilters.
  set (fx3 := fx (getDeck deck s3)). set (wet3 := wet (getDeck deck s3)).
  destruct (applyFilters_in_facts fx3 wet3 deck s3 w ac H3 Hw3 Hac)
    as (H4 & _ & _ & Q4 & W4 & _).
  cbn zeta in Q4, W4.
  assert (Hin3 : h ∈ (snd <$> n_eq (nodes (getDeck deck s3)))).
  { apply list_elem_of_fmap. exists (type, h). split; [reflexivity|].
    now apply eq_lookup_elem. }
  exists h, f, q. rewrite Q4.
  split; [exact L3|].
  split; [rewrite applyFilters_in_eq_heap by assumption; exact X3|].
  split.
  { eexists. split; [exact W4|]. cbn [getFilters setFilters]. unfold chain_of.
    rewrite Q4. rewrite !elem_of_app. right. left. exact Hin3. }
  split; [intros h0 E0; destruct (Hold h0 E0) as (-> & _ & Hg); split; [reflexivity | exact Hg]|].
  split; [intros E0; destruct (Hnew E0) as (-> & -> & Hn & _); repeat split; exact Hn|].
  intros t' h' Hne Hin.
  assert (Hk' : kind_at (audio s) h' = Some (KBiquad t')).
  { pose proof (ok_eq _ _ (proj1 (app_ok_deck s) Hs deck)) as He.
    rewrite Forall_forall in He. exact (He _ Hin). }
  assert (Hh' : h' ∈ handles (nodes (getDeck deck s))).
  { apply elem_of_handles. right. left. apply list_elem_of_fmap. now exists (t', h'). }
  pose proof (handles_bound deck s h' Hs Hh') as Hb.
  assert (Hne' : h' <> h).
  { intros ->. destruct (eq_lookup type (n_eq (nodes (getDeck deck s)))) as [h0|] eqn:E0.
    - destruct (Hold h0 eq_refl) as (_ & _ & g & Hg).
      apply kind_at_inv in Hk' as (x & Hx & Hk). rewrite Hg in Hx. injection Hx as <-.
      cbn in Hk. congruence.
    - destruct (Hnew eq_refl) as (_ & _ & Hn & _). lia. }
  rewrite applyFilters_in_eq_heap; [now apply Hfr | exact H3 |].
  apply (t_keep _ _ _ T3) in Hh'.
  destruct (eq_lookup type (n_eq (nodes (getDeck deck s)))) as [h0|] eqn:E0.
  - destruct (Hold h0 eq_refl) as (_ & -> & _).
    apply list_elem_of_fmap. now exists (t', h').
  - destruct (Hnew eq_refl) as (_ & _ & _ & ->). rewrite fmap_app, elem_of_app. left.
    apply list_elem_of_fmap. now exists (t', h').
Qed.

Lemma setEQ_sets_gain_witness :
  let s := run [EvMount; EvReady DeckA (Some (mkAudioContext 7)) 180] initial in
  exists h f q,
    eq_lookup peaking (n_eq (nodes (getDeck DeckA (setEQ DeckA peaking (-3) s)))) = Some h /\
    heap (audio (setEQ DeckA peaking (-3) s)) !! h = Some (BiquadFilterNode peaking f q (-3)).
Proof.
  cbn zeta.
  pose (w := {| backend_ac := Some (mkAudioContext 7); isPlaying := false;
                getCurrentTime := 0; getDuration := 180; getPlaybackRate := 1;
                getFilters := [] |}).
  edestruct (setEQ_sets_gain [EvMount; EvReady DeckA (Some (mkAudioContext 7)) 180]
               DeckA peaking (-3)) as (h & f & q & H1 & H2 & _);
    [vm_compute; reflexivity | reflexivity |].
  exists h, f, q. split; [exact H1 | exact H2].
Defined.

Lemma applyFilters_in_n_eq (fxState : FxFlags) (amounts : FxWet) (deck d : DeckId) (s : App) :
  app_ok s ->
  n_eq (nodes (getDeck d (applyFilters_in fxState amounts deck s)))
  = n_eq (nodes (getDeck d s)).
Proof.
  intros Hs. destruct (decide (deck = d)) as [<- | Hne];
    [|now rewrite applyFilters_in_other].
  destruct (wave (getDeck deck s)) as [w|] eqn:Hw.
  - destruct (backend_ac w) as [ac|] eqn:Hac.
    + now destruct (applyFilters_in_facts fxState amounts deck s w ac Hs Hw Hac)
        as (_ & _ & _ & Q & _).
    + rewrite applyFilters_in_idle; [reflexivity|]. intros w' E. congruence.
  - rewrite applyFilters_in_idle; [reflexivity|]. intros w' E. congruence.
Qed.

Lemma eq_lookup_NoDup (t : BiquadFilterType) (h : handle)
    (l : list (BiquadFilterType * handle)) :
  NoDup (fst <$> l) -> (t, h) ∈ l -> eq_lookup t l = Some h.
Proof.
  induction l as [|[t' h'] l IH]; cbn [eq_lookup fmap list_fmap fst]; intros Hnd Hin.
  - now apply elem_of_nil in Hin.
  - apply NoDup_cons in Hnd as [Hni Hnd]. apply elem_of_cons in Hin as [[= <- <-] | Hin].
    + now rewrite decide_True.
    + destruct (decide (t = t')) as [<- | Hne]; [|now apply IH].
      exfalso. apply Hni. apply list_elem_of_fmap. now exists (t, h).
Qed.

Lemma eq_keys_run (evs : list Event) (deck : DeckId) :
  NoDup (fst <$> n_eq (nodes (getDeck deck (run evs initial)))).
Proof.
  assert (H : holds (fun _ => True)
                (fun s => forall d, NoDup (fst <$> n_eq (nodes (getDeck d s))))
                (run evs initial)).
  { apply run_holds.
    - exact I.
    - intros s s' _ Hp [_ N] d. rewrite (N d). apply Hp.
    - intros fxState amounts dk s Hs _ Hp d. rewrite applyFilters_in_n_eq by exact Hs.
      apply Hp.
    - intros dk type value s Hs _ Hp d.
      destruct (decide (dk = d)) as [<- | Hne].
      + destruct (wave (getDeck dk s)) as [w|] eqn:Hw.
        2:{ rewrite setEQ_idle; [apply Hp|]. intros w' E. congruence. }
        destruct (backend_ac w) as [ac|] eqn:Hac.
        2:{ rewrite setEQ_idle; [apply Hp|]. intros w' E. congruence. }
        destruct (setEQ_facts dk type value s w ac Hs Hw Hac) as (_ & _ & Q1 & Q2 & _).
        cbn zeta in Q1, Q2.
        destruct (eq_lookup type (n_eq (nodes (getDeck dk s)))) as [h|] eqn:El.
        * rewrite (Q1 h eq_refl). apply Hp.
        * destruct (Q2 eq_refl) as (h & _ & ->). rewrite fmap_app. apply NoDup_app.
          split; [apply Hp|]. split; [|apply NoDup_singleton].
          intros t Ht Ht'. cbn in Ht'. apply list_elem_of_singleton in Ht'. subst t.
          now apply eq_lookup_None in El.
      + pose proof (t_other _ _ _ (setEQ_touches dk type value s Hs)) as O.
        replace d with (other_deck dk) by (destruct dk, d; try reflexivity; congruence).
        rewrite O. apply Hp.
    - intros dk w s Hs Hp d.
      destruct (decide (dk = d)) as [<- | Hne].
      + unfold attachAnalyser. destruct (backend_ac w); [|apply Hp].
        destruct (n_analyser (nodes (getDeck dk s))); [apply Hp|]. cbn [alloc].
        rewrite getDeck_set_deck_eq. cbn [nodes set_nodes n_eq set_n_analyser]. apply Hp.
      + pose proof (t_other _ _ _ (attachAnalyser_touches dk w s)) as O.
        replace d with (other_deck dk) by (destruct dk, d; try reflexivity; congruence).
        rewrite O. apply Hp.
    - apply Forall_forall. intros e _. apply event_ok_True.
    - split; [apply initial_ok|]. split; [auto|]. intros []; constructor. }
  destruct H as (_ & _ & H). apply H.
Qed.

(** X20. One EQ stage per band. After any history a deck has at most one
    EQ stage of each filter type, so never more than eight; the stages are
    distinct objects, each a biquad filter of the type it is filed under,
    and looking a type up finds exactly the stage filed under it. *)
Theorem eq_one_stage_per_type (evs : list Event) (deck : DeckId) :
  let s := run evs initial in
  let l := n_eq (nodes (getDeck deck s)) in
  NoDup (fst <$> l) /\ NoDup (snd <$> l) /\ (length l <= 8)%nat /\
  forall t h, (t, h) ∈ l ->
    eq_lookup t l = Some h /\
    exists f q g, heap (audio s) !! h = Some (BiquadFilterNode t f q g).
Proof.
  cbn zeta. pose proof (eq_keys_run evs deck) as Hk.
  pose proof (proj1 (app_ok_deck _) (reachable_ok evs) deck) as Hn.
  set (s := run evs initial) in *. set (l := n_eq (nodes (getDeck deck s))) in *.
  split; [exact Hk|]. split; [|split].
  - pose proof (ok_nodup _ _ Hn) as Hnd. unfold handles in Hnd.
    apply NoDup_app in Hnd as (_ & _ & Hnd). now apply NoDup_app in Hnd as (Hnd & _).
  - rewrite <- (length_fmap fst l).
    change 8%nat with (length [lowpass; highpass; bandpass; lowshelf; highshelf; peaking;
                               notch; allpass]).
    apply submseteq_length, NoDup_submseteq; [exact Hk|].
    intros t _. destruct t; repeat (first [apply list_elem_of_here | apply list_elem_of_further]).
  - intros t h Hin. split; [now apply eq_lookup_NoDup|].
    apply biquad_of_kind. pose proof (ok_eq _ _ Hn) as He.
    rewrite Forall_forall in He. exact (He _ Hin).
Qed.

Lemma eq_one_stage_per_type_witness :
  let s := run [EvMount; EvReady DeckA (Some (mkAudioContext 7)) 180;
                EvSetEQ DeckA lowshelf 3; EvSetEQ DeckA lowshelf 6] initial in
  exists h, n_eq (nodes (getDeck DeckA s)) = [(lowshelf, h)] /\
            eq_lookup lowshelf (n_eq (nodes (getDeck DeckA s))) = Some h.
Proof.
  cbn zeta. eexists. split; [vm_compute; reflexivity|].
  apply (eq_one_stage_per_type
           [EvMount; EvReady DeckA (Some (mkAudioContext 7)) 180;
            EvSetEQ DeckA lowshelf 3; EvSetEQ DeckA lowshelf 6] DeckA).
  vm_compute. apply list_elem_of_here.
Defined.

Lemma tuned_run (evs : list Event) :
  Forall slider_event evs -> holds wet_in_range tuned (run evs initial).
Proof.
  intros He. apply run_holds.
  - cbn. repeat split; intros H; discriminate H.
  - intros s s' Hs Ht [K N] d h. rewrite (N d). intros Hh.
    eapply in_range_at_kept; [exact K | now apply (handles_bound d) | now apply (Ht d)].
  - intros fxState amounts deck s Hs Hr Ht. now apply applyFilters_in_tuned.
  - intros deck type value s Hs Hr Ht. now apply setEQ_tuned.
  - intros deck w s Hs Ht. now apply attachAnalyser_tuned.
  - eapply Forall_impl; [exact He | apply slider_event_ok].
  - split; [apply initial_ok|]. split.
    + intros []; cbn; repeat split; intros H; discriminate H.
    + intros [] h Hh; cbn in Hh; now apply elem_of_nil in Hh.
Qed.

(** X21. The effect parameters stay in range. In every history in which
    the wet amounts set are between 0 and 1, as the sliders give them, each
    deck's delay feedback gain stays between 0.1 and 0.7, so the echo loop
    always decays; the delay time stays between 0.05 s and 0.5 s, within
    the one second the delay line holds; the cutoff of the resonant filter
    stays between 500 and 8000; and the threshold of the gate between -50
    and -20. This holds for the nodes of effects that are switched off,
    too. *)
Theorem effect_parameters_in_range (evs : list Event) (deck : DeckId) :
  Forall slider_event evs ->
  let s := run evs initial in
  let n := nodes (getDeck deck s) in
  (forall h, n_delayFeedback n = Some h ->
     exists gain, heap (audio s) !! h = Some (GainNode gain) /\ 0.1 <= gain <= 0.7) /\
  (forall h, n_delay n = Some h ->
     exists delayTime,
       heap (audio s) !! h = Some (DelayNode delayTime) /\ 0.05 <= delayTime <= 0.5) /\
  (forall h, n_filter n = Some h ->
     exists frequency q gain,
       heap (audio s) !! h = Some (BiquadFilterNode lowpass frequency q gain) /\
       500 <= frequency <= 8000) /\
  (forall h, n_gate n = Some h ->
     exists threshold ratio attack release,
       heap (audio s) !! h = Some (DynamicsCompressorNode threshold ratio attack release) /\
       -50 <= threshold <= -20).
Proof.
  intros He. cbn zeta. destruct (tuned_run evs He) as (Hs & _ & Ht).
  pose proof (proj1 (app_ok_deck _) Hs deck) as Hn.
  set (s := run evs initial) in *. set (n := nodes (getDeck deck s)) in *.
  assert (K : forall h k, h ∈ handles n -> kind_at (audio s) h = Some k ->
                exists x, heap (audio s) !! h = Some x /\ node_kind x = k /\ node_in_range x).
  { intros h k Hh Hk. destruct (Ht deck h Hh) as (x & Hx & Hr). exists x.
    split; [exact Hx|]. split; [|exact Hr].
    unfold kind_at in Hk. rewrite Hx in Hk. cbn in Hk. congruence. }
  split; [|split; [|split]]; intros h E.
  - destruct (K h KGain) as (x & Hx & Hk & Hr);
      [apply elem_of_handles; tauto | now apply (ok_feedback _ _ Hn)|].
    destruct x as [? ? ? ?| | | [?|] | | | |]; try discriminate Hk. eauto.
  - destruct (K h KDelay) as (x & Hx & Hk & Hr);
      [apply elem_of_handles; tauto | now apply (ok_delay _ _ Hn)|].
    destruct x as [? ? ? ?| | | [?|] | | | |]; try discriminate Hk. eauto.
  - destruct (K h (KBiquad lowpass)) as (x & Hx & Hk & Hr);
      [apply elem_of_handles; tauto | now apply (ok_filter _ _ Hn)|].
    destruct x as [? ? ? ?| | | [?|] | | | |]; try discriminate Hk.
    cbn in Hk. injection Hk as ->. eauto.
  - destruct (K h KCompressor) as (x & Hx & Hk & Hr);
      [apply elem_of_handles; tauto | now apply (ok_gate _ _ Hn)|].
    destruct x as [? ? ? ?| | | [?|] | | | |]; try discriminate Hk. eauto 6.
Qed.

Lemma effect_parameters_in_range_witness :
  let s := run [EvMount; EvReady DeckA (Some (mkAudioContext 7)) 180;
                EvSetWet DeckA FxDelay 1; EvToggleFx DeckA FxDelay] initial in
  exists h gain,
    n_delayFeedback (nodes (getDeck DeckA s)) = Some h /\
    heap (audio s) !! h = Some (GainNode gain) /\ 0.1 <= gain <= 0.7.
Proof.
  cbn zeta.
  assert (He : Forall slider_event
                 [EvMount; EvReady DeckA (Some (mkAudioContext 7)) 180;
                  EvSetWet DeckA FxDelay 1; EvToggleFx DeckA FxDelay]).
  { repeat constructor; intros H; discriminate H. }
  destruct (effect_parameters_in_range _ DeckA He) as (H & _).
  cbn zeta in H. eexists. 
  edestruct H as (gain & Hg & Hr); [vm_compute; reflexivity|].
  exists gain. split; [vm_compute; reflexivity|]. split; [exact Hg | exact Hr].
Defined.

(** X22. A rebuild of the chain settles at once: after any history, a
    second call of [applyFilters] with the same flags and wet amounts
    changes nothing at all. It creates no node, moves no parameter and
    leaves the chain of the transport as the first call made it. *)
Theorem applyFilters_settles (evs : list Event) (fxState : FxFlags) (amounts : FxWet)
    (deck : DeckId) :
  let s := applyFilters_in fxState amounts deck (run evs initial) in
  applyFilters_in fxState amounts deck s = s.
Proof. cbn zeta. apply applyFilters_in_idem, reachable_ok. Qed.

(** ** Handlers held by the MIDI callback *)

Lemma toggleRecord_in_start (s : App) :
  audioCtxRef (audio s) <> None ->
  exists a,
    toggleRecord_in false true s
    = playClick (set_rec {| recording := true;
                            recorderRef := Some {| rec_sink := next (audio s);
                                                   rec_active := true |};
                            recordChunksRef := [];
                            recordedUrl := recordedUrl (rec s) |} a).
Proof.
  intros Hc. unfold toggleRecord_in.
  destruct (match waveARef s with Some w => backend_ac w | None => None end) as [ac|].
  - eexists. reflexivity.
  - destruct (audioCtxRef (audio s)) as [ac|]; [|congruence]. eexists. reflexivity.
Qed.

(** X23. The record toggle of the MIDI callback goes by the [recording]
    flag of the render that installed the callback. A callback installed
    while idle therefore starts a take on every record message, also when a
    recording is running: the state is recording afterwards, with a new
    active recorder on a new capture sink in [recorderRef] and an empty
    chunk buffer, whereas the button of the current render would have
    stopped the recording. *)
Theorem midi_record_restarts (seen s : App) (status data2 : Z) :
  recording (rec seen) = false ->
  Z.land status 240 = 144%Z -> (0 < data2)%Z ->
  NoDup (fst <$> note_actions (midiMap seen)) ->
  audioCtxRef (audio s) <> None ->
  let s' := step (EvMidi seen true (Some [status; recordToggle (midiMap seen); data2])) s in
  recording (rec s') = true /\
  recorderRef (rec s') = Some {| rec_sink := next (audio s); rec_active := true |} /\
  recordChunksRef (rec s') = [] /\
  audioCtxRef (audio s') <> None /\
  (recording (rec s) = true -> recording (rec (toggleRecord true s)) = false).
Proof.
  intros Hseen Hc Hv Hnd Hctx. cbn zeta. cbn [step].
  rewrite (onmidimessage_note _ _ _ _ _ Hc Hv).
  rewrite (mapped_to_unique _ CallToggleRecord _ Hnd).
  2:{ unfold note_actions. rewrite !elem_of_cons. do 10 right. now left. }
  cbn [existsb is_toggleFx orb dispatch foldl perform]. rewrite Hseen.
  destruct (toggleRecord_in_start s Hctx) as (a & ->).
  rewrite playClick_rec. cbn [rec set_rec recording recorderRef recordChunksRef].
  split; [reflexivity|]. split; [reflexivity|]. split; [reflexivity|].
  split; [apply playClick_context|].
  intros Hr. unfold toggleRecord, toggleRecord_in. rewrite Hr.
  destruct (match waveARef s with Some w => backend_ac w | None => None end) as [ac|].
  - now rewrite playClick_rec.
  - destruct (audioCtxRef (audio s)) as [ac|]; [|congruence]. now rewrite playClick_rec.
Qed.

Lemma midi_record_restarts_witness :
  let press := EvMidi initial true (Some [144; recordToggle (midiMap initial); 127]%Z) in
  let s := run [EvMount; EvTogglePlay DeckA; press] initial in
  recording (rec s) = true /\ recording (rec (step press s)) = true.
Proof.
  cbn zeta. split; [vm_compute; reflexivity|].
  apply (midi_record_restarts initial
           (run [EvMount; EvTogglePlay DeckA;
                 EvMidi initial true (Some [144; recordToggle (midiMap initial); 127]%Z)]
              initial) 144 127).
  - reflexivity.
  - reflexivity.
  - lia.
  - vm_compute. compute_done.
  - vm_compute. discriminate.
Defined.

(** X24. Play over MIDI snaps by the BPM and the beat-snap switch of the
    render that installed the callback, not by the present ones. If that
    render had no BPM for the deck, or beat-snap off, a stopped deck
    starts from where it is, even with beat-snap on and a BPM known now;
    if it had beat-snap on and a BPM, the deck is snapped to the grid of
    that BPM, even with beat-snap off now. *)
Theorem midi_play_stale (seen s : App) (connect_ok : bool) (deck : DeckId) (w : WaveSurfer) :
  wave (getDeck deck s) = Some w -> isPlaying w = false ->
  let s' := perform seen connect_ok (CallTogglePlay deck) s in
  (bpm (getDeck deck seen) = None \/ beatSnap seen = false ->
     wave (getDeck deck s') = Some (playPause w)) /\
  (forall b, beatSnap seen = true -> bpm (getDeck deck seen) = Some b -> ~ b == 0 ->
     wave (getDeck deck s')
     = Some (playPause
               (setTime
                  (Math_max 0
                     (Math_min (inject_Z (Math_round (getCurrentTime w / (60 / b))) * (60 / b))
                        (getDuration w))) w))).
Proof.
  intros Hw Hp. cbn zeta. cbn [perform]. unfold togglePlay_in. rewrite Hw, Hp.
  rewrite playClick_getDeck, getDeck_set_deck_eq. cbn [wave set_wave negb andb].
  split.
  - intros [-> | ->]; [destruct (beatSnap seen) | destruct (bpm (getDeck deck seen))];
      reflexivity.
  - intros b -> -> Hb. apply falsy_false in Hb. rewrite Hb. reflexivity.
Qed.

Lemma midi_play_stale_witness :
  let s := step (EvSeek DeckA 1.23) (setBpm DeckA (Some 120) (run [EvMount] initial)) in
  getCurrentTime <$> waveARef (perform initial true (CallTogglePlay DeckA) s) = Some 1.23 /\
  beatSnap s = true /\ bpmA s = Some 120.
Proof.
  cbn zeta.
  pose (s := step (EvSeek DeckA 1.23) (setBpm DeckA (Some 120) (run [EvMount] initial))).
  pose (w := {| backend_ac := None; isPlaying := false; getCurrentTime := 1.23;
                getDuration := 0; getPlaybackRate := 1; getFilters := [] |}).
  split; [|split; reflexivity].
  destruct (midi_play_stale initial s true DeckA w eq_refl eq_refl) as [H _].
  exact (f_equal (fmap getCurrentTime) (H (or_introl eq_refl))).
Defined.

(** * The rate multiplier over histories *)



























(** * Calls from callbacks of an older render *)

(** C7. A start over MIDI is not snapped. The MIDI effect depends on
    [midiMap] only, so the callback it installs keeps the [togglePlay] of
    the render that installed it, here the first, in which the deck had no
    BPM. Deck A is stopped at 1.23 s of 180 s, its BPM has since been
    detected as 120 and beat-snap is on: the note-on with deck A's play
    code starts the deck and leaves the position at 1.23 s, where the Play
    button on the same state moves it to 1.0 s. *)
Theorem midi_start_not_snapped :
  let s := run [EvMount; EvReady DeckA None 180; EvAnalyzed DeckA (Detected 120);
                EvSeek DeckA 1.23] initial in
  let s' := step (EvMidi initial true (Some [144; deckAPlay (midiMap initial); 127]%Z)) s in
  beatSnap s = true /\ bpmA s = Some 120 /\
  isPlaying <$> waveARef s = Some false /\
  getCurrentTime <$> waveARef s = Some 1.23 /\
  getDuration <$> waveARef s = Some 180 /\
  isPlaying <$> waveARef s' = Some true /\
  getCurrentTime <$> waveARef s' = Some 1.23 /\
  exists p, getCurrentTime <$> waveARef (togglePlay DeckA s) = Some p /\ p == 1.
Proof.
  cbn zeta. repeat (split; [vm_compute; reflexivity|]).
  eexists. split; [vm_compute; reflexivity|]. reflexivity.
Qed.

(** C8. The "ready" callback realizes the chain with the flags of the
    first render. Deck A has its nodes and the gate switched on, so its
    chain is the gate alone; when another track becomes ready, the callback
    calls [applyFilters] once more: the flags are what they were, the gate
    is the same object, and the chain is empty. The call that the effect
    on the flags makes, on the same state, leaves the chain as it is. *)
Theorem ready_realizes_first_flags :
  let ac := Some (mkAudioContext 7) in
  let s := run [EvMount; EvReady DeckA ac 180; EvToggleFx DeckA FxGate] initial in
  let s' := step (EvReady DeckA ac 200) s in
  (exists g, n_gate (nodes (getDeck DeckA s)) = Some g /\
             getFilters <$> waveARef s = Some [g] /\
             n_gate (nodes (getDeck DeckA s')) = Some g) /\
  fx_gate (fx (getDeck DeckA s)) = true /\
  fx (getDeck DeckA s') = fx (getDeck DeckA s) /\
  wet (getDeck DeckA s') = wet (getDeck DeckA s) /\
  getFilters <$> waveARef s' = Some [] /\
  getFilters <$> waveARef (applyFilters DeckA s) = getFilters <$> waveARef s.
Proof.
  cbn zeta. split.
  - eexists. split; [vm_compute; reflexivity|]. split; vm_compute; reflexivity.
  - repeat split; vm_compute; reflexivity.
Qed.
